(** * graph-prototype: scheduler, settings and buffer contracts

    A shallow embedding of
    - [core/include/gnuradio-4.0/scheduler.hpp] (scheduler_base, simple,
      breadth_first),
    - the settings header (BasicSettings::set),
    - the buffer and history-buffer contracts exercised by
      [core/test/qa_buffer.cpp].

    Conventions.  [std::size_t] and [uint64_t] values are [Z] with the
    wrap-around modulo 2^64 written out; [uint32_t] wraps modulo 2^32.
    A [node_model *] is its address.  [std::map] and [std::set] that are
    only looked up and inserted into are [gmap] and [gset]; a container
    whose iteration order is observable is a list. *)

From Stdlib Require Import ZArith Lia.
From stdpp Require Import gmap strings list fin_maps relations sorting.

Set Warnings "-clear-no-such-hyp".

(* ===================================================================== *)
(** * Part I: definitions *)
(* ===================================================================== *)

(** ** Machine integers *)

Definition wrap64 (z : Z) : Z := (z mod 2 ^ 64)%Z.
Definition wrap32 (z : Z) : Z := (z mod 2 ^ 32)%Z.

(** [std::numeric_limits<std::size_t>::max()] *)
Definition SIZE_MAX : Z := (2 ^ 64 - 1)%Z.

(** [std::accumulate(v.begin(), v.end(), 0_UZ)]: a left fold in
    [std::size_t] arithmetic. *)
Definition accumulate (v : list Z) : Z :=
  fold_left (fun acc x => wrap64 (acc + x)) v 0%Z.

(** ** Block interface seen by the scheduler *)

(** Modelled from the spec: the declaration of [work_return_status_t] is in
    a header that is not part of the sources at hand; the spec (section 6)
    lists the five values. *)
Module work_return_status_t.
Inductive t := ERROR | INSUFFICIENT_OUTPUT_ITEMS | INSUFFICIENT_INPUT_ITEMS | DONE | OK.

#[global] Instance eq_dec : EqDecision t.
Proof. solve_decision. Defined.
End work_return_status_t.

(** [work_return_t], in the order of its aggregate initialiser
    [{ requested_work, performed_work, status }]. *)
Record work_return_t := mk_work_return {
  requested_work : Z;
  performed_work : Z;
  status : work_return_status_t.t
}.

(** [node_model *]: blocks are heap allocated and identified by address. *)
Abbreviation node_t := N (only parsing).

(** The capability surface of the blocks, indexed by the block's address.
    [W] is the state of everything the blocks can touch (their fields and
    the buffers between them).  [work] may change it;
    [available_input_samples] is [const] and fills the vector it is given,
    returning the total count together with the filled vector. *)
Record node_model (W : Type) := mk_node_model {
  work : node_t -> Z -> W -> work_return_t * W;
  is_blocking : node_t -> bool;
  available_input_samples : node_t -> list Z -> W -> Z * list Z
}.
Arguments mk_node_model {W}.
Arguments work {W}.
Arguments is_blocking {W}.
Arguments available_input_samples {W}.

(** ** Graph *)

(** An edge; the scheduler reads only its two end points. *)
Record edge := mk_edge {
  _src_node : node_t;
  _dst_node : node_t
}.

Inductive connection_result_t := SUCCESS | FAILED.

#[global] Instance connection_result_eq_dec : EqDecision connection_result_t.
Proof. solve_decision. Defined.

(** What a connection definition can change: the blocks (their ports) and
    the resolved edges. *)
Record graph_data := mk_graph_data {
  blocks : list node_t;
  edges : list edge
}.

(** A pending connection definition is a closure called with the graph; it
    reports a result and may have changed the graph. *)
Definition connection_definition : Type :=
  graph_data -> connection_result_t * graph_data.

Record graph := mk_graph {
  graph_contents : graph_data;
  connection_definitions : list connection_definition
}.

(** [graph::clear_connection_definitions] *)
Definition clear_connection_definitions (g : graph) : graph :=
  mk_graph (graph_contents g) [].

(** Modelled from the spec: [graph::connect] lives in graph.hpp, which is
    not part of the sources at hand.  Section 4.5: a definition that
    succeeds "records the resolved edge"; one that fails reports a failure.
    [ok] stands for the port checks (type, direction, not yet connected,
    buffer allocation). *)
Definition connect (ok : bool) (src dst : node_t) : connection_definition :=
  fun g =>
    if ok then (SUCCESS, mk_graph_data (blocks g) (edges g ++ [mk_edge src dst]))
    else (FAILED, g).

(** ** scheduler_base *)

Inductive execution_policy := single_threaded | multi_threaded.

Module SchedulerState.
Inductive t :=
  IDLE | INITIALISED | RUNNING | REQUESTED_STOP | REQUESTED_PAUSE
| STOPPED | PAUSED | SHUTTING_DOWN | ERROR.

#[global] Instance eq_dec : EqDecision t.
Proof. solve_decision. Defined.
End SchedulerState.
Import SchedulerState.

(** The part of [BasicThreadPool] the schedulers read. *)
Record BasicThreadPool := mk_pool { maxThreads : nat }.

Record scheduler_base := mk_scheduler_base {
  _state : SchedulerState.t;
  _graph : graph;
  _pool : BasicThreadPool;
  _progress : Z;
  _running_threads : Z;
  _stop_requested : bool
}.

Definition set_state (st : SchedulerState.t) (s : scheduler_base) : scheduler_base :=
  mk_scheduler_base st (_graph s) (_pool s) (_progress s) (_running_threads s)
    (_stop_requested s).

Definition set_graph (g : graph) (s : scheduler_base) : scheduler_base :=
  mk_scheduler_base (_state s) g (_pool s) (_progress s) (_running_threads s)
    (_stop_requested s).

Definition set_stop_requested (b : bool) (s : scheduler_base) : scheduler_base :=
  mk_scheduler_base (_state s) (_graph s) (_pool s) (_progress s)
    (_running_threads s) b.

(** The constructor: [_state = IDLE]; the atomics start at zero. *)
Definition new_scheduler_base (g : graph) (pool : BasicThreadPool) : scheduler_base :=
  mk_scheduler_base IDLE g pool 0 0 false.

Module scheduler_base_ops.

(** [std::all_of] over the connection definitions: each definition is
    called with the graph, in order, and the first one that does not
    report [SUCCESS] stops the iteration. *)
Fixpoint all_of (defs : list connection_definition) (g : graph_data)
    : bool * graph_data :=
  match defs with
  | [] => (true, g)
  | d :: rest =>
      let '(r, g') := d g in
      if decide (r = SUCCESS) then all_of rest g' else (false, g')
  end.

Definition init (s : scheduler_base) : scheduler_base :=
  if decide (_state s <> IDLE) then s
  else
    let '(result, g') :=
      all_of (connection_definitions (_graph s)) (graph_contents (_graph s)) in
    let gr := mk_graph g' (connection_definitions (_graph s)) in
    if result
    then set_state INITIALISED (set_graph (clear_connection_definitions gr) s)
    else set_state ERROR (set_graph gr s).

Definition request_stop (s : scheduler_base) : scheduler_base :=
  set_state REQUESTED_STOP (set_stop_requested true s).

Definition request_pause (s : scheduler_base) : scheduler_base :=
  set_state REQUESTED_PAUSE (set_stop_requested true s).

(** [wait_done] sleeps on [_running_threads] until it reads zero.  This
    is the calling thread alone, at the value of the counter it finds:
    with a counter that is not positive the loop body is never entered
    and the call returns ([Some]); with a positive one the caller enters
    [_running_threads.wait] ([None]).  [None] says no more than that: the
    workers' [fetch_sub] and [notify_all], which end the wait in the
    running program, are [pool.pool_worker]'s and are not followed
    here. *)
Definition wait_done (s : scheduler_base) : option scheduler_base :=
  if decide (_running_threads s > 0)%Z then None
  else if decide (_state s = REQUESTED_PAUSE) then Some (set_state PAUSED s)
  else Some (set_state STOPPED s).

Definition stop (s : scheduler_base) : option scheduler_base :=
  if decide (_state s = STOPPED \/ _state s = ERROR) then Some s
  else
    let s1 := if decide (_state s = RUNNING) then request_stop s else s in
    s2 ← wait_done s1; Some (set_state STOPPED s2).

Definition pause (s : scheduler_base) : option scheduler_base :=
  if decide (_state s = PAUSED \/ _state s = ERROR) then Some s
  else
    let s1 := if decide (_state s = RUNNING) then request_pause s else s in
    s2 ← wait_done s1; Some (set_state PAUSED s2).

Definition reset (s : scheduler_base) : option scheduler_base :=
  match _state s with
  | IDLE => Some (init s)
  | RUNNING | REQUESTED_STOP | REQUESTED_PAUSE =>
      s1 ← pause s; Some (set_state INITIALISED s1)
  | STOPPED | PAUSED => Some (set_state INITIALISED s)
  | SHUTTING_DOWN | INITIALISED | ERROR => Some s
  end.

End scheduler_base_ops.

(** ** The progress word and [scheduler_base::pool_worker] *)

Module pool.

Local Open Scope Z_scope.

(** [(1ULL << 32) - 1] *)
Definition low32 : Z := Z.shiftl 1 32 - 1.

(** [static_cast<std::uint32_t>((progress_local >> 32) & ((1ULL << 32) - 1))] *)
Definition progress_count_of (progress_local : Z) : Z :=
  wrap32 (Z.land (Z.shiftr progress_local 32) low32).

(** [static_cast<std::uint32_t>(progress_local & ((1ULL << 32) - 1))] *)
Definition done_of (progress_local : Z) : Z :=
  wrap32 (Z.land progress_local low32).

(** The worker's two [uint32_t] locals. *)
Record locals := mk_locals {
  done : Z;
  progress_count : Z
}.

(** What the other threads do to [_progress] around one pass through a
    load / compare-exchange loop: a store that lands before the load and
    one that lands between the load and the compare-exchange.  [None]:
    no store. *)
Record attempt_env := mk_attempt_env {
  before_load : option Z;
  before_cas : option Z
}.

Definition quiet : attempt_env := mk_attempt_env None None.

Definition peer_store (e : option Z) (word : Z) : Z := default word e.

(** One pass through a do/while body followed by its
    [compare_exchange_strong]. *)
Record attempt := mk_attempt {
  progress_local : Z;   (* the value loaded *)
  att_locals : locals;  (* [progress_count], [done] after the pass *)
  progress_new : Z;     (* the value offered to the exchange *)
  cas_ok : bool;        (* did the exchange succeed *)
  word_after : Z        (* [_progress] after the exchange *)
}.

(** Branch "something happened in this thread". *)
Definition attempt_progress (e : attempt_env) (word : Z) : attempt :=
  let w1 := peer_store (before_load e) word in
  let progress_local := w1 in
  let progress_count := progress_count_of progress_local in
  let done := done_of progress_local in
  let progress_new := wrap64 (Z.shiftl (progress_count + 1) 32) in
  let w2 := peer_store (before_cas e) w1 in
  if decide (w2 = progress_local)
  then mk_attempt progress_local (mk_locals done progress_count) progress_new true progress_new
  else mk_attempt progress_local (mk_locals done progress_count) progress_new false w2.

(** Branch "nothing happened on this thread". *)
Definition attempt_idle (progress_count_old : Z) (e : attempt_env) (word : Z) : attempt :=
  let w1 := peer_store (before_load e) word in
  let progress_local := w1 in
  let progress_count := progress_count_of progress_local in
  let done := done_of progress_local in
  let progress_new :=
    if decide (progress_count = progress_count_old)
    then wrap64 (wrap64 (Z.shiftl (progress_count + 0) 32) + done + 1)
    else wrap64 (wrap64 (Z.shiftl (progress_count + 0) 32) + done) in
  let w2 := peer_store (before_cas e) w1 in
  if decide (w2 = progress_local)
  then mk_attempt progress_local (mk_locals done progress_count) progress_new true progress_new
  else mk_attempt progress_local (mk_locals done progress_count) progress_new false w2.

(** [do { ... } while (!_progress.compare_exchange_strong(...))].  The list
    is what the peers do around each pass; once it is used up they leave
    the word alone and the exchange succeeds. *)
Fixpoint cas_loop (body : attempt_env -> Z -> attempt) (peers : list attempt_env)
    (word : Z) : attempt :=
  match peers with
  | [] => body quiet word
  | e :: rest =>
      let a := body e word in
      if cas_ok a then a else cas_loop body rest (word_after a)
  end.

(** What one turn of the while loop meets: the value of [_stop_requested]
    read by the loop condition, the status its [work()] call returns, the
    peers' stores during the exchange loop, and the store that ends a wait
    ([None]: nobody stores). *)
Record iteration_env := mk_iteration_env {
  stop_seen : bool;
  work_status : work_return_status_t.t;
  peers : list attempt_env;
  woken_by : option Z
}.

Record iteration_result := mk_iteration_result {
  last_attempt : attempt;
  waits : bool         (* does the worker call [_progress.wait] *)
}.

(** The body of the while loop up to a possible wait. *)
Definition iteration (n_batches : Z) (l : locals) (it : iteration_env) (word : Z)
    : iteration_result :=
  let something_happened :=
    bool_decide (work_status it = work_return_status_t.OK) in
  if something_happened then
    mk_iteration_result (cas_loop attempt_progress (peers it) word) false
  else
    let progress_count_old := progress_count l in
    let a := cas_loop (attempt_idle progress_count_old) (peers it) word in
    mk_iteration_result a
      (bool_decide (progress_count (att_locals a) = progress_count_old
                    /\ done (att_locals a) < n_batches)).

Inductive worker_outcome :=
| Exited (l : locals) (word : Z)     (* left the while loop *)
| Blocked (l : locals) (word : Z)    (* asleep in [_progress.wait] *)
| Running (l : locals) (word : Z).   (* still looping when the script ends *)

(** [while (done < n_batches && !_stop_requested) { ... }] *)
Fixpoint worker_loop (n_batches : Z) (script : list iteration_env) (l : locals)
    (word : Z) : worker_outcome :=
  if decide (done l < n_batches) then
    match script with
    | [] => Running l word
    | it :: rest =>
        if stop_seen it then Exited l word
        else
          let r := iteration n_batches l it word in
          let a := last_attempt r in
          if waits r then
            match woken_by it with
            | Some v =>
                if decide (v = progress_new a) then Blocked (att_locals a) (word_after a)
                else worker_loop n_batches rest (att_locals a) v
            | None => Blocked (att_locals a) (word_after a)
            end
          else worker_loop n_batches rest (att_locals a) (word_after a)
    end
  else Exited l word.

(** [pool_worker]: the loop from [done = 0], [progress_count = 0], then
    [_running_threads.fetch_sub(1)] once the loop is left. *)
Definition pool_worker (n_batches : Z) (script : list iteration_env)
    (word running_threads : Z) : worker_outcome * Z :=
  match worker_loop n_batches script (mk_locals 0 0) word with
  | Exited l w => (Exited l w, wrap64 (running_threads - 1))
  | o => (o, running_threads)
  end.

(** [run_on_pool]: resets the progress word, counts the job sets and hands
    one [pool_worker] per job set to the pool; each is described by its
    job set and its [n_batches]. *)
Definition run_on_pool (jobs : list (list node_t)) (s : scheduler_base)
    : scheduler_base * list (list node_t * Z) :=
  (mk_scheduler_base (_state s) (_graph s) (_pool s) 0 (Z.of_nat (length jobs))
     (_stop_requested s),
   map (fun jobset => (jobset, Z.of_nat (length jobs))) jobs).

End pool.

(** ** Job lists (shared by both schedulers' [init]) *)

(** [for (std::size_t j = i; j < nodes.size(); j += n_batches) job.push_back(nodes[j]);]
    The loop runs at most [nodes.size()] times when [n_batches >= 1], which
    is what [fuel] counts. *)
Fixpoint job_loop (fuel j n_batches : nat) (nodes job : list node_t) : list node_t :=
  match fuel with
  | O => job
  | S fuel' =>
      match nodes !! j with
      | Some x => job_loop fuel' (j + n_batches) n_batches nodes (job ++ [x])
      | None => job      (* j >= nodes.size() *)
      end
  end.

(** [for (std::size_t i = 0; i < n_batches; i++) { auto &job = _job_lists.emplace_back(); ... }] *)
Definition make_job_lists (n_batches : nat) (nodes : list node_t) : list (list node_t) :=
  map (fun i => job_loop (length nodes) i n_batches nodes []) (seq 0 n_batches).

(** How [start] can end. *)
Inductive start_result (T W : Type) :=
| Returned (s : T) (w : W)       (* start() returned *)
| Threw (s : T) (w : W)          (* std::runtime_error: graph not initialised *)
| Unfinished.                    (* not back yet: passes go on, or the call is in a wait *)
Arguments Returned {T W}.
Arguments Threw {T W}.
Arguments Unfinished {T W}.

(** ** The simple scheduler *)

Module simple.

Record t := mk {
  base : scheduler_base;
  _job_lists : list (list node_t)
}.

Definition init (policy : execution_policy) (s : t) : t :=
  let b := scheduler_base_ops.init (base s) in
  match policy with
  | multi_threaded =>
      let nodes := blocks (graph_contents (_graph b)) in
      let n_batches := Nat.min (maxThreads (_pool b)) (length nodes) in
      mk b (_job_lists s ++ make_job_lists n_batches nodes)
  | single_threaded => mk b (_job_lists s)
  end.

(** The [switch (this->_state)] that opens [start]; [None]: the call has
    entered the wait inside [reset]. *)
Definition prepare (policy : execution_policy) (s : t) : option t :=
  match _state (base s) with
  | IDLE => Some (init policy s)
  | STOPPED => b ← scheduler_base_ops.reset (base s); Some (mk b (_job_lists s))
  | PAUSED => Some (mk (set_state INITIALISED (base s)) (_job_lists s))
  | INITIALISED | RUNNING | REQUESTED_PAUSE | REQUESTED_STOP
  | SHUTTING_DOWN | ERROR => Some s
  end.

Section with_blocks.
Context {W : Type} (ops : node_model W).

(** The range-for of [work_once], with its two accumulators. *)
Fixpoint work_once_loop (nodes : list node_t) (something_happened : bool)
    (performed : Z) (w : W) : work_return_t * W :=
  match nodes with
  | [] =>
      (mk_work_return SIZE_MAX performed
         (if something_happened then work_return_status_t.OK
          else work_return_status_t.DONE), w)
  | currentNode :: rest =>
      let '(result, w1) := work ops currentNode SIZE_MAX w in
      let performed := wrap64 (performed + performed_work result) in
      if decide (status result = work_return_status_t.ERROR) then
        (mk_work_return SIZE_MAX performed work_return_status_t.ERROR, w1)
      else
        let sh1 :=
          if decide (status result = work_return_status_t.INSUFFICIENT_INPUT_ITEMS
                     \/ status result = work_return_status_t.DONE)
          then something_happened
          else if decide (status result = work_return_status_t.OK
                          \/ status result = work_return_status_t.INSUFFICIENT_OUTPUT_ITEMS)
          then true
          else something_happened in
        let sh2 :=
          if is_blocking ops currentNode then
            let v := snd (available_input_samples ops currentNode (replicate 20 0%Z) w1) in
            orb sh1 (bool_decide (accumulate v > 0)%Z)
          else sh1 in
        work_once_loop rest sh2 performed w1
  end.

Definition work_once (nodes : list node_t) (w : W) : work_return_t * W :=
  work_once_loop nodes false 0%Z w.

(** [do { result = work_once(nodelist); } while (result.status == OK);] *)
Fixpoint run_passes (fuel : nat) (nodelist : list node_t) (w : W)
    : option (work_return_t * W) :=
  match fuel with
  | O => None
  | S fuel' =>
      let '(result, w') := work_once nodelist w in
      if decide (status result = work_return_status_t.OK)
      then run_passes fuel' nodelist w'
      else Some (result, w')
  end.

(** [start()].  The single-threaded branch runs the passes in the calling
    thread.  The multi-threaded branch is the calling thread's part only:
    the two stores of [run_on_pool] and the hand-over of the job sets.
    The workers it starts run beside the caller ([pool.pool_worker]), so
    in the running program [_progress], [_running_threads] and the blocks
    may have moved on by the time the call returns; what the result says
    of them is what the caller wrote, and nothing is to be read from it
    about the workers.  [_state], [_stop_requested], the graph and the job
    lists are written by the caller alone. *)
Definition start (policy : execution_policy) (fuel : nat) (s : t) (w : W)
    : start_result t W :=
  match prepare policy s with
  | None => Unfinished
  | Some s1 =>
      if decide (_state (base s1) <> INITIALISED) then Threw s1 w
      else
        match policy with
        | single_threaded =>
            let s2 := mk (set_state RUNNING (base s1)) (_job_lists s1) in
            let nodelist := blocks (graph_contents (_graph (base s2))) in
            match run_passes fuel nodelist w with
            | None => Unfinished
            | Some (result, w') =>
                if decide (status result = work_return_status_t.ERROR)
                then Returned (mk (set_state ERROR (base s2)) (_job_lists s2)) w'
                else Returned (mk (set_state STOPPED (base s2)) (_job_lists s2)) w'
            end
        | multi_threaded =>
            Returned (mk (fst (pool.run_on_pool (_job_lists s1) (base s1)))
                        (_job_lists s1)) w
        end
  end.

End with_blocks.

End simple.

(** ** The breadth-first scheduler *)

Module breadth_first.

Record t := mk {
  base : scheduler_base;
  _nodelist : list node_t;
  _job_lists : list (list node_t)
}.

(** The three locals filled by the loop over [_graph.edges()]. *)
Record adjacency := mk_adjacency {
  _adjacency_list : gmap node_t (list node_t);
  _source_nodes : list node_t;
  node_reached : gset node_t
}.

(** One turn of [for (auto &e : this->_graph.edges())]. *)
Definition scan_edge (a : adjacency) (e : edge) : adjacency :=
  mk_adjacency
    (<[_src_node e := default [] (_adjacency_list a !! _src_node e) ++ [_dst_node e]]>
       (_adjacency_list a))
    (_source_nodes a ++ [_src_node e])
    (node_reached a ∪ {[_dst_node e]}).

Definition scan_edges (es : list edge) : adjacency :=
  fold_left scan_edge es (mk_adjacency ∅ [] ∅).

(** [_source_nodes.erase(std::remove_if(..., node_reached.contains), end)] *)
Definition erase_reached (a : adjacency) : list node_t :=
  filter (fun current_node => current_node ∉ node_reached a) (_source_nodes a).

(** One turn of [for (node_t source_node : _source_nodes)]. *)
Definition seed (qr : list node_t * gset node_t) (source_node : node_t)
    : list node_t * gset node_t :=
  ((if decide (source_node ∈ qr.2) then qr.1 else qr.1 ++ [source_node]),
   qr.2 ∪ {[source_node]}).

(** One turn of [for (auto &dst : _adjacency_list.at(current_node))]. *)
Definition push_child (qr : list node_t * gset node_t) (dst : node_t)
    : list node_t * gset node_t :=
  if decide (dst ∈ qr.2) then qr else (qr.1 ++ [dst], qr.2 ∪ {[dst]}).

(** The state of the traversal: queue, reached set, node list. *)
Record traversal := mk_traversal {
  queue : list node_t;
  reached : gset node_t;
  nodelist : list node_t
}.

(** [while (!queue.empty()) { ... }]; each turn burns one unit of fuel. *)
Fixpoint traverse (fuel : nat) (adj : gmap node_t (list node_t)) (st : traversal)
    {struct fuel} : traversal :=
  match queue st with
  | [] => st
  | current_node :: rest =>
      match fuel with
      | O => st
      | S fuel' =>
          let nl := nodelist st ++ [current_node] in
          let qr :=
            match adj !! current_node with
            | Some dsts => fold_left push_child dsts (rest, reached st)
            | None => (rest, reached st)
            end in
          traverse fuel' adj (mk_traversal qr.1 qr.2 nl)
      end
  end.

(** Every turn of the while loop takes one node off the queue, and a node
    enters the queue at most once: the nodes waiting plus the edge
    destinations not yet reached bound the number of turns. *)
Definition traverse_fuel (a : adjacency) (q : list node_t) (r : gset node_t) : nat :=
  length q + size (node_reached a ∖ r).

(** The traversal part of [init]: from the resolved edges to the node
    list, appended to what [_nodelist] already holds. *)
Definition build_nodelist (es : list edge) (old : list node_t) : traversal :=
  let a := scan_edges es in
  let sources := erase_reached a in
  let qr := fold_left seed sources ([], ∅) in
  traverse (traverse_fuel a qr.1 qr.2) (_adjacency_list a)
    (mk_traversal qr.1 qr.2 old).

Definition init (policy : execution_policy) (s : t) : t :=
  let b := scheduler_base_ops.init (base s) in
  let nl := nodelist (build_nodelist (edges (graph_contents (_graph b))) (_nodelist s)) in
  match policy with
  | multi_threaded =>
      let n_batches := Nat.min (maxThreads (_pool b)) (length nl) in
      mk b nl (_job_lists s ++ make_job_lists n_batches nl)
  | single_threaded => mk b nl (_job_lists s)
  end.

(** The [switch (this->_state)] that opens [start]; [None]: the call has
    entered the wait inside [reset]. *)
Definition prepare (policy : execution_policy) (s : t) : option t :=
  match _state (base s) with
  | IDLE => Some (init policy s)
  | STOPPED =>
      b ← scheduler_base_ops.reset (base s); Some (mk b (_nodelist s) (_job_lists s))
  | PAUSED => Some (mk (set_state INITIALISED (base s)) (_nodelist s) (_job_lists s))
  | INITIALISED | RUNNING | REQUESTED_PAUSE | REQUESTED_STOP
  | SHUTTING_DOWN | ERROR => Some s
  end.

Section with_blocks.
Context {W : Type} (ops : node_model W).

(** The range-for of [work_once]; the text is that of the simple
    scheduler's. *)
Fixpoint work_once_loop (nodes : list node_t) (something_happened : bool)
    (performed : Z) (w : W) : work_return_t * W :=
  match nodes with
  | [] =>
      (mk_work_return SIZE_MAX performed
         (if something_happened then work_return_status_t.OK
          else work_return_status_t.DONE), w)
  | currentNode :: rest =>
      let '(result, w1) := work ops currentNode SIZE_MAX w in
      let performed := wrap64 (performed + performed_work result) in
      if decide (status result = work_return_status_t.ERROR) then
        (mk_work_return SIZE_MAX performed work_return_status_t.ERROR, w1)
      else
        let sh1 :=
          if decide (status result = work_return_status_t.INSUFFICIENT_INPUT_ITEMS
                     \/ status result = work_return_status_t.DONE)
          then something_happened
          else if decide (status result = work_return_status_t.OK
                          \/ status result = work_return_status_t.INSUFFICIENT_OUTPUT_ITEMS)
          then true
          else something_happened in
        let sh2 :=
          if is_blocking ops currentNode then
            let v := snd (available_input_samples ops currentNode (replicate 20 0%Z) w1) in
            orb sh1 (bool_decide (accumulate v > 0)%Z)
          else sh1 in
        work_once_loop rest sh2 performed w1
  end.

Definition work_once (nodes : list node_t) (w : W) : work_return_t * W :=
  work_once_loop nodes false 0%Z w.

(** How the single-threaded pass loop of [start] ends. *)
Inductive passes_end :=
| LoopExit (result : work_return_t) (w : W)     (* the while condition failed *)
| ErrorReturn (result : work_return_t) (w : W)  (* the [return] inside the body *)
| OutOfFuel.

(** [while ((result = work_once(nodelist)).status == OK) {
       if (result.status == ERROR) { _state = ERROR; return; } }] *)
Fixpoint run_passes (fuel : nat) (nodelist : list node_t) (w : W) : passes_end :=
  match fuel with
  | O => OutOfFuel
  | S fuel' =>
      let '(result, w') := work_once nodelist w in
      if decide (status result = work_return_status_t.OK) then
        if decide (status result = work_return_status_t.ERROR)
        then ErrorReturn result w'
        else run_passes fuel' nodelist w'
      else LoopExit result w'
  end.

(** [start()]; the multi-threaded branch is the calling thread's part
    only, as in the simple scheduler. *)
Definition start (policy : execution_policy) (fuel : nat) (s : t) (w : W)
    : start_result t W :=
  match prepare policy s with
  | None => Unfinished
  | Some s1 =>
      if decide (_state (base s1) <> INITIALISED) then Threw s1 w
      else
        match policy with
        | single_threaded =>
            let s2 := mk (set_state RUNNING (base s1)) (_nodelist s1) (_job_lists s1) in
            match run_passes fuel (_nodelist s2) w with
            | OutOfFuel => Unfinished
            | ErrorReturn _ w' =>
                Returned (mk (set_state ERROR (base s2)) (_nodelist s2) (_job_lists s2)) w'
            | LoopExit _ w' =>
                Returned (mk (set_state STOPPED (base s2)) (_nodelist s2) (_job_lists s2)) w'
            end
        | multi_threaded =>
            Returned (mk (fst (pool.run_on_pool (_job_lists s1) (base s1)))
                        (_nodelist s1) (_job_lists s1)) w
        end
  end.

End with_blocks.

(** A freshly constructed scheduler. *)
Definition new (g : graph) (pool : BasicThreadPool) : t :=
  mk (new_scheduler_base g pool) [] [].

End breadth_first.

(** ** Exceptions *)

(** The standard exception classes that occur, and which derives from
    which. *)
Module exn.
Inductive class := exception | logic_error | invalid_argument | out_of_range | runtime_error.

#[global] Instance eq_dec : EqDecision class.
Proof. solve_decision. Defined.

(** Direct base class. *)
Definition base (c : class) : option class :=
  match c with
  | exception => None
  | logic_error | runtime_error => Some exception
  | invalid_argument | out_of_range => Some logic_error
  end.

(** [derived_from c b]: a handler for [b] catches an object of class [c]. *)
Definition derived_from (c b : class) : bool :=
  bool_decide (c = b)
  || match base c with
     | Some c1 =>
         bool_decide (c1 = b)
         || match base c1 with
            | Some c2 => bool_decide (c2 = b)
            | None => false
            end
     | None => false
     end.

(** boost::ut's [throws<E>(f)]: [f] threw, and what it threw is an [E]. *)
Definition throws {A : Type} (b : class) (r : class + A) : bool :=
  match r with
  | inl c => derived_from c b
  | inr _ => false
  end.
End exn.

(** ** Settings: [BasicSettings<TBlock>::set] *)

Module settings.

Section with_pmt.
(** [pmtv::pmt] is a [std::variant] from a library outside the
    repository: it is a parameter, with the [index()] of the
    alternative a value holds. *)
Context {pmt : Type} (index : pmt -> nat).

(** A reflected member of [TBlock], as the [if constexpr] of [set]
    sees it. *)
Record member := mk_member {
  display_name : string;            (* get_display_name(member) *)
  type_index : nat;                 (* to_typelist<pmt>::index_of<Type>() *)
  is_not_any_port_or_collection : bool;
  is_const : bool;
  is_writable : bool;
  isSupportedType : bool
}.

(** The condition of the [if constexpr] in [iterate_over_member]. *)
Definition settable (m : member) : bool :=
  is_not_any_port_or_collection m && negb (is_const m) && is_writable m
  && isSupportedType m.

(** [std::holds_alternative<Type>(value)] *)
Definition holds_alternative (m : member) (value : pmt) : bool :=
  bool_decide (index value = type_index m).

(** The fields of [BasicSettings] that [set] touches, and the block's
    [meta_information] when the block has one. *)
Record BasicSettings := mk_settings {
  _staged : gmap string pmt;
  _auto_update : gset string;
  _changed : bool;
  meta_information : option (gmap string pmt)
}.

(** The [std::invalid_argument] thrown by [set]: the data its message
    is formatted from. *)
Record invalid_argument := mk_invalid_argument {
  ia_key : string;
  actual_index : nat;
  required_index : nat
}.

(** A call either returns, or leaves by the exception; either way the
    settings object is in the state reached so far. *)
Inductive outcome (A : Type) :=
| Normal (a : A) (st : BasicSettings)
| Thrown (e : invalid_argument) (st : BasicSettings).
Arguments Normal {A}.
Arguments Thrown {A}.

Definition state_of {A} (o : outcome A) : BasicSettings :=
  match o with Normal _ st => st | Thrown _ st => st end.

(** The body of the lambda [iterate_over_member] for one member. *)
Definition iterate_over_member (key : string) (value : pmt) (m : member)
    (is_set : bool) (st : BasicSettings) : outcome bool :=
  if settable m then
    let fieldName := display_name m in
    let '(is_set1, st1) :=
      if bool_decide (fieldName = key) && holds_alternative m value then
        (true,
         mk_settings (<[key := value]> (_staged st))
           (if decide (key ∈ _auto_update st) then _auto_update st ∖ {[key]}
            else _auto_update st)
           true (meta_information st))
      else (is_set, st) in
    if bool_decide (fieldName = key) && negb (holds_alternative m value) then
      Thrown (mk_invalid_argument key (index value) (type_index m)) st1
    else Normal is_set1 st1
  else Normal is_set st.

(** [processMembers<TBlock>(iterate_over_member)]: the members of the
    base type first, then the block's own, as one list. *)
Fixpoint processMembers (members : list member) (key : string) (value : pmt)
    (is_set : bool) (st : BasicSettings) : outcome bool :=
  match members with
  | [] => Normal is_set st
  | m :: rest =>
      match iterate_over_member key value m is_set st with
      | Normal is_set' st' => processMembers rest key value is_set' st'
      | Thrown e st' => Thrown e st'
      end
  end.

(** [for (const auto &[key, value] : parameters)]; [parameters] is the
    map's content in iteration order (ascending keys, each key once). *)
Fixpoint set_loop (members : list member) (parameters : list (string * pmt))
    (ret : gmap string pmt) (st : BasicSettings) : outcome (gmap string pmt) :=
  match parameters with
  | [] => Normal ret st
  | (key, value) :: rest =>
      match processMembers members key value false st with
      | Normal is_set st' =>
          set_loop members rest (if is_set then ret else <[key := value]> ret) st'
      | Thrown e st' => Thrown e st'
      end
  end.

(** [updateMaps(src, dest)] is declared outside the file at hand: a
    parameter giving the new [dest]. *)
Context (updateMaps : gmap string pmt -> gmap string pmt -> gmap string pmt).

(** [set(parameters, ctx)] for a reflectable block with the given
    members. *)
Definition set (members : list member) (parameters : list (string * pmt))
    (st : BasicSettings) : outcome (gmap string pmt) :=
  match set_loop members parameters ∅ st with
  | Normal ret st' =>
      Normal ret
        (mk_settings (_staged st') (_auto_update st') (_changed st')
           (updateMaps ret <$> meta_information st'))
  | Thrown e st' => Thrown e st'
  end.

End with_pmt.

Arguments Normal {pmt A}.
Arguments Thrown {pmt A}.

End settings.

(** ** Settings: the other member functions of [BasicSettings<TBlock>] *)

Module block_settings.
Import settings.

Section with_pmt.
Context {pmt : Type} (index : pmt -> nat).

(** [autoUpdate(parameters, ctx)]: the lambda for one member, and the two
    nested loops.  Nothing is thrown here, and [_auto_update] is only
    read. *)
Definition auto_update_member (key : string) (value : pmt)
    (st : BasicSettings (pmt := pmt)) (m : member) : BasicSettings :=
  if settable m then
    if bool_decide (key ∈ _auto_update st) && bool_decide (display_name m = key)
       && holds_alternative index m value
    then mk_settings (<[key := value]> (_staged st)) (_auto_update st) true
           (meta_information st)
    else st
  else st.

Definition autoUpdate (members : list member) (parameters : list (string * pmt))
    (st : BasicSettings (pmt := pmt)) : BasicSettings :=
  fold_left (fun st kv => fold_left (auto_update_member kv.1 kv.2) members st)
    parameters st.

(** A reflected member of the block with what the other member functions
    ask of it, and its current value [member( *_block )] as a [pmt]. *)
Record field := mk_field {
  desc : member;
  is_readable : bool;       (* is_readable(member) *)
  is_annotated : bool;      (* is_annotated<RawType>() *)
  value : pmt
}.

Definition with_value (v : pmt) (f : field) : field :=
  mk_field (desc f) (is_readable f) (is_annotated f) v.

(** The condition of the [if constexpr] in [update_active] and in
    [storeDefaultSettings]. *)
Definition readable (f : field) : bool :=
  is_not_any_port_or_collection (desc f) && is_readable f && isSupportedType (desc f).

(** The settings object with its block.  [core] holds [_staged],
    [_auto_update], [_changed] and the block's [meta_information];
    [_block] lists the members, those of the base type first. *)
Record t := mk {
  core : BasicSettings (pmt := pmt);
  _block : list field;
  _active : gmap string pmt;
  _auto_forward : gset string;
  _default_settings : gmap string pmt
}.

Definition with_core (c : BasicSettings (pmt := pmt)) (st : t) : t :=
  mk c (_block st) (_active st) (_auto_forward st) (_default_settings st).

Definition with_staged (m : gmap string pmt) (st : t) : t :=
  with_core (mk_settings m (_auto_update (core st)) (_changed (core st))
               (meta_information (core st))) st.

(** [stagedParameters()] *)
Definition stagedParameters (st : t) : gmap string pmt := _staged (core st).

(** [get(parameter_keys, ctx)] *)
Definition get (parameter_keys : list string) (st : t) : gmap string pmt :=
  match parameter_keys with
  | [] => _active st
  | _ =>
      fold_left
        (fun ret key =>
           match _active st !! key with
           | Some v => <[key := v]> ret
           | None => ret
           end)
        parameter_keys ∅
  end.

(** [get(parameter_key, ctx)] *)
Definition get_key (parameter_key : string) (st : t) : option pmt :=
  _active st !! parameter_key.

(** [storeDefaultSettings(oldSettings)]: the readable members' values
    written into the map, in member order.  The lambdas of
    [updateActiveParameters] and of [update_active] have the same body. *)
Definition storeDefaultSettings (oldSettings : gmap string pmt) (fields : list field)
    : gmap string pmt :=
  fold_left
    (fun m f => if readable f then <[display_name (desc f) := value f]> m else m)
    fields oldSettings.

Definition storeDefaults (st : t) : t :=
  mk (core st) (_block st) (_active st) (_auto_forward st)
    (storeDefaultSettings (_default_settings st) (_block st)).

Definition updateActiveParameters (st : t) : t :=
  mk (core st) (_block st) (storeDefaultSettings (_active st) (_block st))
    (_auto_forward st) (_default_settings st).

(** The order of [std::map<std::string, pmt, std::less<>>]. *)
Definition key_le (a b : string * pmt) : Prop := String.leb a.1 b.1 = true.

#[global] Instance key_le_dec a b : Decision (key_le a b).
Proof. unfold key_le. apply _. Defined.

(** The content of a [property_map] in iteration order. *)
Definition entries (m : gmap string pmt) : list (string * pmt) :=
  merge_sort key_le (map_to_list m).

Record ApplyStagedParametersResult := mk_result {
  forwardParameters : gmap string pmt;
  appliedParameters : gmap string pmt
}.

(** The block as its callbacks see it: the reflected members and
    [meta_information]. *)
Definition block_state : Type := list field * option (gmap string pmt).

(** Which [settingsChanged] the block has: none, the one taking the old
    and the new settings, or the one that also takes the forward
    settings.  The callback may rewrite the block, and the third variant
    the forward settings. *)
Inductive settingsChanged_t :=
| no_settingsChanged
| old_new (f : gmap string pmt -> gmap string pmt -> block_state -> block_state)
| old_new_forward
    (f : gmap string pmt -> gmap string pmt -> gmap string pmt -> block_state
         -> gmap string pmt * block_state).

(** The code outside the file at hand:
    [member( *_block ).validate_and_set(v)] (whether the value was
    accepted, and the member's value afterwards), the block's callbacks,
    and the two tag keys. *)
Context (validate_and_set : field -> pmt -> bool * pmt)
        (settingsChanged : settingsChanged_t)
        (reset : option (block_state -> block_state))
        (RESET_DEFAULTS STORE_DEFAULTS : string).

Definition HasSettingsChangedCallback : bool :=
  match settingsChanged with no_settingsChanged => false | _ => true end.

(** The locals of [applyStagedParameters] that the member lambda writes. *)
Record apply_locals := mk_apply_locals {
  result : ApplyStagedParametersResult;
  staged : gmap string pmt
}.

(** [result.appliedParameters.insert_or_assign(key, staged_value)] and,
    with a callback, [staged.insert_or_assign(key, staged_value)]. *)
Definition mark_applied (key : string) (staged_value : pmt) (a : apply_locals)
    : apply_locals :=
  mk_apply_locals
    (mk_result (forwardParameters (result a))
       (<[key := staged_value]> (appliedParameters (result a))))
    (if HasSettingsChangedCallback then <[key := staged_value]> (staged a) else staged a).

Definition mark_forward (key : string) (staged_value : pmt) (a : apply_locals)
    : apply_locals :=
  mk_apply_locals
    (mk_result (<[key := staged_value]> (forwardParameters (result a)))
       (appliedParameters (result a)))
    (staged a).

(** The lambda [apply_member_changes] for one member. *)
Definition apply_member_changes (auto_forward : gset string) (key : string)
    (staged_value : pmt) (f : field) (a : apply_locals) : field * apply_locals :=
  if settable (desc f) then
    let '(f1, a1) :=
      if bool_decide (display_name (desc f) = key)
         && holds_alternative index (desc f) staged_value
      then
        if is_annotated f then
          let '(ok, v) := validate_and_set f staged_value in
          if ok then (with_value v f, mark_applied key staged_value a)
          else (with_value v f, a)      (* a line on stderr *)
        else (with_value staged_value f, mark_applied key staged_value a)
      else (f, a) in
    (f1, if bool_decide (key ∈ auto_forward) then mark_forward key staged_value a1 else a1)
  else (f, a).

(** [processMembers<TBlock>(apply_member_changes)] *)
Fixpoint process_members (auto_forward : gset string) (key : string)
    (staged_value : pmt) (fields : list field) (a : apply_locals)
    : list field * apply_locals :=
  match fields with
  | [] => ([], a)
  | f :: rest =>
      let '(f1, a1) := apply_member_changes auto_forward key staged_value f a in
      let '(rest1, a2) := process_members auto_forward key staged_value rest a1 in
      (f1 :: rest1, a2)
  end.

(** [for (const auto &[localKey, localStaged_value] : _staged)] *)
Definition apply_loop (auto_forward : gset string) (staged_entries : list (string * pmt))
    (fields : list field) (a : apply_locals) : list field * apply_locals :=
  fold_left (fun acc kv => process_members auto_forward kv.1 kv.2 acc.1 acc.2)
    staged_entries (fields, a).

(** A call returns, or it reaches a second [std::lock_guard lg(_lock)] on
    the mutex it holds itself and goes no further. *)
Inductive outcome (A : Type) :=
| Returned (a : A) (st : t)
| Relocks (st : t).
Arguments Returned {A}.
Arguments Relocks {A}.

(** [applyStagedParameters()] for a reflectable block. *)
Definition applyStagedParameters (st : t) : outcome ApplyStagedParametersResult :=
  let oldSettings :=
    if HasSettingsChangedCallback then storeDefaultSettings ∅ (_block st) else ∅ in
  if decide (is_Some (_staged (core st) !! RESET_DEFAULTS)) then
    (* _staged.clear(); resetDefaults(): _staged = _default_settings, then
       applyStagedParameters() again, under the lock of this call *)
    Relocks (with_staged (_default_settings st) st)
  else
    let '(fields, a) :=
      apply_loop (_auto_forward st) (entries (_staged (core st))) (_block st)
        (mk_apply_locals (mk_result ∅ ∅) ∅) in
    let active := storeDefaultSettings (_active st) fields in
    let '(forward, (fields, meta)) :=
      if decide (staged a = ∅) then
        (forwardParameters (result a), (fields, meta_information (core st)))
      else
        match settingsChanged with
        | no_settingsChanged =>
            (forwardParameters (result a), (fields, meta_information (core st)))
        | old_new f =>
            (forwardParameters (result a),
             f oldSettings (staged a) (fields, meta_information (core st)))
        | old_new_forward f =>
            f oldSettings (staged a) (forwardParameters (result a))
              (fields, meta_information (core st))
        end in
    let defaults :=
      if decide (is_Some (_staged (core st) !! STORE_DEFAULTS))
      then storeDefaultSettings (_default_settings st) fields
      else _default_settings st in
    let '(fields, meta) :=
      match reset with
      | Some r =>
          if decide (is_Some (_staged (core st) !! RESET_DEFAULTS))
          then r (fields, meta) else (fields, meta)
      | None => (fields, meta)
      end in
    Returned (mk_result forward (appliedParameters (result a)))
      (mk (mk_settings ∅ (_auto_update (core st)) false meta)
         fields active (_auto_forward st) defaults).

(** [resetDefaults()], called from outside. *)
Definition resetDefaults (st : t) : outcome unit :=
  match applyStagedParameters (with_staged (_default_settings st) st) with
  | Returned _ st1 =>
      match reset with
      | Some r =>
          let '(fields, meta) := r (_block st1, meta_information (core st1)) in
          Returned tt
            (mk (mk_settings (_staged (core st1)) (_auto_update (core st1))
                   (_changed (core st1)) meta)
               fields (_active st1) (_auto_forward st1) (_default_settings st1))
      | None => Returned tt st1
      end
  | Relocks st1 => Relocks st1
  end.

(** The constructor [BasicSettings(TBlock &block)] for a reflectable
    block.  A member comes with the four texts of its type when that is
    an annotated one; [DEFAULT_TAGS] are the short keys of
    [gr::tag::DEFAULT_TAGS]; the two conversions build a [pmt] from a
    [std::string] and from a [bool]. *)
Record reflected := mk_reflected {
  rfield : field;
  annotation : option (string * string * string * bool)
}.

Context (pmt_of_string : string -> pmt) (pmt_of_bool : bool -> pmt)
        (DEFAULT_TAGS : list string).

(** The locals and fields the constructor's lambda writes:
    [meta_information] (when the block has one), [_auto_update],
    [_auto_forward]. *)
Definition construct_member
    (acc : option (gmap string pmt) * gset string * gset string) (m : reflected)
    : option (gmap string pmt) * gset string * gset string :=
  let '(meta, auto_update, auto_forward) := acc in
  let memberName := display_name (desc (rfield m)) in
  let meta1 :=
    match meta, annotation m with
    | Some mi, Some (description, documentation, unit, visible) =>
        Some (<[String.append memberName "::visible" := pmt_of_bool visible]>
                (<[String.append memberName "::unit" := pmt_of_string unit]>
                   (<[String.append memberName "::documentation"
                      := pmt_of_string documentation]>
                      (<[String.append memberName "::description"
                         := pmt_of_string description]> mi))))
    | _, _ => meta
    end in
  if settable (desc (rfield m)) then
    (meta1, auto_update ∪ {[memberName]},
     fold_left
       (fun af shortKey =>
          if bool_decide (shortKey = memberName) then af ∪ {[memberName]} else af)
       DEFAULT_TAGS auto_forward)
  else (meta1, auto_update, auto_forward).

Definition construct (meta_information : option (gmap string pmt))
    (description : option string) (members : list reflected) : t :=
  let meta0 :=
    match meta_information, description with
    | Some mi, Some d => Some (<["description" := pmt_of_string d]> mi)
    | _, _ => meta_information
    end in
  let '(meta, auto_update, auto_forward) :=
    fold_left construct_member members (meta0, ∅, ∅) in
  mk (mk_settings ∅ auto_update false meta) (map rfield members) ∅ auto_forward ∅.

End with_pmt.

Arguments Returned {pmt A}.
Arguments Relocks {pmt A}.

(** [SettingsCtx]: the optional time stamp, as the count of its
    [time_point], and the context map. *)
Section with_context.
Context {pmt : Type}.

Record SettingsCtx := mk_ctx {
  time : option Z;
  context : gmap string pmt
}.

(** [operator<]: [!time || (other.time && *time < *other.time)] *)
Definition ctx_lt (this other : SettingsCtx) : bool :=
  negb (bool_decide (is_Some (time this)))
  || match time other, time this with
     | Some o, Some t => bool_decide (t < o)%Z
     | _, _ => false
     end.
End with_context.

End block_settings.

(** ** Sequences and the circular buffer *)

Module circular_buffer.

Local Open Scope Z_scope.

(** [kInitialCursorValue] (qa_buffer.cpp, SequenceTests). *)
Definition kInitialCursorValue : Z := -1.

(** A [std::shared_ptr<Sequence>]: the sequences live in a store and are
    shared by reference. *)
Abbreviation Sequence := nat (only parsing).

Definition value (store : gmap Sequence Z) (s : Sequence) : Z :=
  default kInitialCursorValue (store !! s).

(** Modelled from the spec: Sequence.hpp is not part of the sources at
    hand.  Section 4.2: "min_sequence(set, floor = I64_MAX) returns the
    minimum value in the set, or floor if empty". *)
Definition getMinimumSequence (store : gmap Sequence Z) (sequences : list Sequence)
    (floor : Z) : Z :=
  fold_left (fun m s => Z.min m (value store s)) sequences floor.

(** Modelled from the spec: Sequence.hpp is not part of the sources at
    hand.  Section 4.2: "add_sequences(set, cursor, new_seqs) publishes
    the new sequences set to the cursor's current value before inserting
    them". *)
Definition addSequences (sequences : list Sequence) (cursor : Sequence)
    (to_add : list Sequence) (store : gmap Sequence Z)
    : list Sequence * gmap Sequence Z :=
  let store' :=
    fold_left (fun st s => <[s := value st cursor]> st) to_add store in
  (sequences ++ to_add, store').

(** Modelled from the spec: Sequence.hpp is not part of the sources at
    hand.  Section 4.2: [remove_sequence] evicts the entry from the
    registry. *)
Definition removeSequence (sequences : list Sequence) (s : Sequence) : list Sequence :=
  filter (fun x => x <> s) sequences.

(** Modelled from the spec: CircularBuffer.hpp is not part of the sources
    at hand.  Section 3: a buffer owns its slots, one writer cursor and a
    registry of consumer cursors. *)
Record t (T : Type) := mk {
  capacity : Z;
  slots : list T;
  cursor : Sequence;
  read_indices : list Sequence;
  sequences : gmap Sequence Z
}.
Arguments mk {T}.
Arguments capacity {T}.
Arguments slots {T}.
Arguments cursor {T}.
Arguments read_indices {T}.
Arguments sequences {T}.

Section with_elements.
Context {T : Type}.

(** Modelled from the spec: a new buffer of the given capacity, cursor
    at the initial sentinel, no reader. *)
Definition new (cap : nat) (fill : T) : t T :=
  mk (Z.of_nat cap) (replicate cap fill) O [] {[O := kInitialCursorValue]}.

Definition cursor_value (b : t T) : Z := value (sequences b) (cursor b).

Definition n_readers (b : t T) : nat := length (read_indices b).

(** Modelled from the spec (section 3): "A reader's available() = W - C". *)
Definition reader_available (b : t T) (r : Sequence) : Z :=
  cursor_value b - value (sequences b) r.

(** Modelled from the spec (section 3): "A writer's available() =
    capacity - (W - min(C))", the minimum taken with floor [W]
    (section 4.3, step 2). *)
Definition writer_available (b : t T) : Z :=
  capacity b
  - (cursor_value b
     - getMinimumSequence (sequences b) (read_indices b) (cursor_value b)).

(** Modelled from the spec (section 4.3, reader registration):
    [new_reader] "constructs a fresh sequence initialized to the
    current writer cursor, adds it to the weak registry, and returns
    the handle". *)
Definition new_reader (b : t T) : Sequence * t T :=
  let r : Sequence := fresh (dom (sequences b)) in
  let store := <[r := kInitialCursorValue]> (sequences b) in
  let '(registry, store') := addSequences (read_indices b) (cursor b) [r] store in
  (r, mk (capacity b) (slots b) (cursor b) registry store').

(** Modelled from the spec: "Dropping the handle removes its sequence". *)
Definition drop_reader (r : Sequence) (b : t T) : t T :=
  mk (capacity b) (slots b) (cursor b) (removeSequence (read_indices b) r)
    (sequences b).

(** Modelled from the spec: [consume(k)] "advances the consumer cursor
    by k". *)
Definition consume (r : Sequence) (k : nat) (b : t T) : t T :=
  mk (capacity b) (slots b) (cursor b) (read_indices b)
    (<[r := value (sequences b) r + Z.of_nat k]> (sequences b)).

(** The physical slot of the [i]-th element of a window that starts at
    the writer cursor [W] (section 4.3, step 4). *)
Definition slot_of (b : t T) (i : nat) : nat :=
  Z.to_nat ((cursor_value b + Z.of_nat i) mod capacity b).

Definition window (b : t T) (n : nat) : list (option T) :=
  map (fun i => slots b !! slot_of b i) (seq 0 n).

Definition write_window (b : t T) (n : nat) (data : list T) : list T :=
  fold_left (fun sl '(i, x) => <[slot_of b i := x]> sl)
    (zip (seq 0 n) data) (slots b).

(** What a user callback can throw: an object of a standard exception
    class, or anything else (the tests throw string literals). *)
Inductive thrown := std (c : exn.class) | other.

(** The user's writer callback: given the reserved window it either fills
    it or throws. *)
Inductive callback_result := Filled (data : list T) | Throws (x : thrown).

Definition writer_callback : Type := list (option T) -> callback_result.

(** What leaves [publish] when the callback throws [x].  qa_buffer.cpp,
    CircularBufferExceptions: a [std::exception] is seen as such by the
    caller, and a thrown string literal arrives as a [std::runtime_error]. *)
Definition rethrown (x : thrown) : exn.class :=
  match x with
  | std c => c
  | other => exn.runtime_error
  end.

Inductive publish_result :=
| Published (b : t T)                  (* returned normally *)
| Raised (c : exn.class) (b : t T)     (* left by an exception of class [c] *)
| Blocks.                              (* waits for a reader to advance *)

(** Modelled from the spec (section 4.3, single producer): reserve
    [n] slots when [W + n - min_C <= capacity], run the callback on
    the window, then advance the writer cursor by [n]; "if the writing
    callback throws, the window is discarded without advancing the
    cursor". *)
Definition publish (fn : writer_callback) (n : nat) (b : t T) : publish_result :=
  let W := cursor_value b in
  let min_C := getMinimumSequence (sequences b) (read_indices b) W in
  if decide (W + Z.of_nat n - min_C > capacity b) then Blocks
  else
    match fn (window b n) with
    | Throws x => Raised (rethrown x) b
    | Filled data =>
        Published
          (mk (capacity b) (write_window b n data) (cursor b) (read_indices b)
             (<[cursor b := W + Z.of_nat n]> (sequences b)))
    end.

Inductive try_publish_result :=
| TryReturned (ok : bool) (b : t T)
| TryRaised (c : exn.class) (b : t T).

(** Modelled from the spec: [try_publish] "returns false when
    insufficient capacity is available; it still propagates callback
    exceptions". *)
Definition try_publish (fn : writer_callback) (n : nat) (b : t T)
    : try_publish_result :=
  match publish fn n b with
  | Blocks => TryReturned false b
  | Raised c b' => TryRaised c b'
  | Published b' => TryReturned true b'
  end.

(** Every registered consumer cursor has a value in the store, the
    writer cursor too, and none is ahead of the writer (section 3). *)
Definition well_formed (b : t T) : Prop :=
  is_Some (sequences b !! cursor b)
  /\ (cursor b ∉ read_indices b)
  /\ forall r, r ∈ read_indices b ->
       is_Some (sequences b !! r) /\ value (sequences b) r <= cursor_value b.

End with_elements.

End circular_buffer.

(** ** History buffer *)

Module HistoryBuffer.

(** Modelled from the spec: HistoryBuffer.hpp is not part of the sources
    at hand.  Section 4.4: a fixed-capacity ring; the elements are kept
    newest first. *)
Record t (T : Type) := mk {
  capacity : nat;
  items : list T
}.
Arguments mk {T}.
Arguments capacity {T}.
Arguments items {T}.

(** Modelled from the spec: the constructor of HistoryBuffer (not part of
    the sources at hand).  Section 4.4: "Capacity = 0 fails at
    construction with InvalidArgument"; any other capacity gives an empty
    buffer of that capacity. *)
Definition create {T : Type} (capacity : nat) : exn.class + t T :=
  if decide (capacity = O) then inl exn.invalid_argument
  else inr (mk capacity []).

(** Modelled from the spec: the same constructor with the class of the
    exception for a zero capacity left open; [create] is
    [create_raising exn.invalid_argument]. *)
Definition create_raising {T : Type} (c : exn.class) (capacity : nat)
    : exn.class + t T :=
  if decide (capacity = O) then inl c else inr (mk capacity []).

(** Modelled from the spec: "push_back(x) overwrites the oldest element
    once full". *)
Definition push_back {T : Type} (x : T) (hb : t T) : t T :=
  mk (capacity hb) (take (capacity hb) (x :: items hb)).

Definition size {T : Type} (hb : t T) : nat := length (items hb).

(** Modelled from the spec: "at(i) is bounds-checked and fails with
    OutOfRange"; index 0 is the newest element. *)
Definition at_ {T : Type} (hb : t T) (i : nat) : exn.class + T :=
  match items hb !! i with
  | Some x => inr x
  | None => inl exn.out_of_range
  end.

End HistoryBuffer.


(** ** The rest of the scheduler's interface *)

(** [~scheduler_base]: [stop()], then the state SHUTTING_DOWN.  [None]: the
    destructor has entered the wait of [wait_done]. *)
Definition scheduler_base_destructor (s : scheduler_base) : option scheduler_base :=
  s' ← scheduler_base_ops.stop s; Some (set_state SHUTTING_DOWN s').

(** What follows [start()] in [run_and_wait]: [this->wait_done()] on the
    scheduler that [start] left. *)
Definition then_wait_done {T W : Type} (base : T -> scheduler_base)
    (with_base : scheduler_base -> T -> T) (r : start_result T W) : start_result T W :=
  match r with
  | Returned s w =>
      match scheduler_base_ops.wait_done (base s) with
      | Some b => Returned (with_base b s) w
      | None => Unfinished
      end
  | Threw s w => Threw s w
  | Unfinished => Unfinished
  end.

(** [simple::run_and_wait] *)
Definition simple_run_and_wait {W : Type} (ops : node_model W) (policy : execution_policy)
    (fuel : nat) (s : simple.t) (w : W) : start_result simple.t W :=
  then_wait_done simple.base (fun b s => simple.mk b (simple._job_lists s))
    (simple.start ops policy fuel s w).

(** [breadth_first::run_and_wait] *)
Definition breadth_first_run_and_wait {W : Type} (ops : node_model W)
    (policy : execution_policy) (fuel : nat) (s : breadth_first.t) (w : W)
    : start_result breadth_first.t W :=
  then_wait_done breadth_first.base
    (fun b s => breadth_first.mk b (breadth_first._nodelist s) (breadth_first._job_lists s))
    (breadth_first.start ops policy fuel s w).

(** [breadth_first::getJobLists] *)
Definition getJobLists (s : breadth_first.t) : list (list node_t) :=
  breadth_first._job_lists s.

(** The scheduler as the caller finds it once the workers have moved
    the two atomics they write, [_progress] and [_running_threads]. *)
Definition after_workers (progress running : Z) (s : scheduler_base) : scheduler_base :=
  mk_scheduler_base (_state s) (_graph s) (_pool s) progress running (_stop_requested s).

(** ** Vocabulary of the properties *)

(** *** Passes over a node list *)

Section calls.
Context {W : Type} (ops : node_model W).

(** One call of a block's [work] with the maximal budget: the block, what
    it returned, and the state it left. *)
Definition call : Type := node_t * work_return_t * W.

(** Every block of the list called in order, each in the state the
    previous one left. *)
Fixpoint calls (nodes : list node_t) (w : W) : list call :=
  match nodes with
  | [] => []
  | n :: rest =>
      let '(r, w1) := work ops n SIZE_MAX w in
      (n, r, w1) :: calls rest w1
  end.

Definition is_error (c : call) : Prop :=
  status c.1.2 = work_return_status_t.ERROR.

#[global] Instance is_error_dec (c : call) : Decision (is_error c).
Proof. unfold is_error. apply _. Defined.

(** How a returned status counts: OK and INSUFFICIENT_OUTPUT_ITEMS mark
    the pass productive, INSUFFICIENT_INPUT_ITEMS and DONE are idle. *)
Definition marks_productive (s : work_return_status_t.t) : bool :=
  match s with
  | work_return_status_t.OK | work_return_status_t.INSUFFICIENT_OUTPUT_ITEMS => true
  | work_return_status_t.INSUFFICIENT_INPUT_ITEMS | work_return_status_t.DONE => false
  | work_return_status_t.ERROR => false
  end.

(** A blocking block with a positive count of available input samples,
    polled right after its [work] call. *)
Definition has_pending_input (c : call) : bool :=
  is_blocking ops c.1.1
  && bool_decide
       (accumulate (available_input_samples ops c.1.1 (replicate 20 0%Z) c.2).2 > 0)%Z.

Definition productive (c : call) : bool :=
  marks_productive (status c.1.2) || has_pending_input c.

(** The [std::size_t] sum of the performed work of some calls. *)
Definition performed_sum (cs : list call) : Z :=
  wrap64 (foldr Z.add 0%Z (map (fun c : call => performed_work c.1.2) cs)).

(** The state after the last of some calls made from [w]. *)
Definition state_after (w : W) (cs : list call) : W :=
  default w (last (w :: map (fun c : call => c.2) cs)).

(** Two block behaviours that differ at most in block [b]. *)
Definition agree_except (b : node_t) (ops' : node_model W) : Prop :=
  forall n, n <> b ->
    (forall z w, work ops n z w = work ops' n z w)
    /\ is_blocking ops n = is_blocking ops' n
    /\ (forall v w, available_input_samples ops n v w
                    = available_input_samples ops' n v w).
End calls.

(** *** Executing connection definitions *)

(** Every definition of the list executed in order, each on the graph the
    previous one left: the result and the graph after each. *)
Fixpoint executed (defs : list connection_definition) (g : graph_data)
    : list (connection_result_t * graph_data) :=
  match defs with
  | [] => []
  | d :: rest => let '(r, g') := d g in (r, g') :: executed rest g'
  end.

Definition failed (x : connection_result_t * graph_data) : Prop := x.1 <> SUCCESS.

#[global] Instance failed_dec x : Decision (failed x).
Proof. unfold failed. apply _. Defined.

(** The resolved edges of a scheduler's graph. *)
Definition resolved_edges (s : scheduler_base) : list edge :=
  edges (graph_contents (_graph s)).

(** What the sentence "no partial graph is left connected" asks of a
    failing [init]: the state is ERROR and the resolved edges are the ones
    from before the call. *)
Definition init_failure_rolls_back (s : scheduler_base) : Prop :=
  _state s = IDLE ->
  (scheduler_base_ops.all_of (connection_definitions (_graph s))
     (graph_contents (_graph s))).1 = false ->
  _state (scheduler_base_ops.init s) = ERROR
  /\ resolved_edges (scheduler_base_ops.init s) = resolved_edges s.

(** *** Graphs as relations *)

Definition edge_rel (es : list edge) (u v : node_t) : Prop := mk_edge u v ∈ es.

(** A source block: "appearing as an edge source but never as an edge
    destination". *)
Definition is_source (es : list edge) (n : node_t) : Prop :=
  (exists e, e ∈ es /\ _src_node e = n) /\ ~ (exists e, e ∈ es /\ _dst_node e = n).

(** Reachable from some source block along edges. *)
Definition reachable (es : list edge) (n : node_t) : Prop :=
  exists s, is_source es s /\ rtc (edge_rel es) s n.

(** [a] stands before [b] in the list. *)
Definition precedes (l : list node_t) (a b : node_t) : Prop :=
  exists i j, l !! i = Some a /\ l !! j = Some b /\ i < j.

(** An edge lies on a cycle when its source is reachable from its
    destination. *)
Definition on_cycle (es : list edge) (e : edge) : Prop :=
  rtc (edge_rel es) (_dst_node e) (_src_node e).

(** "For every acyclic edge the producing block precedes the consuming
    block in the list". *)
Definition producers_precede_consumers (es : list edge) (l : list node_t) : Prop :=
  forall e, e ∈ es -> ~ on_cycle es e -> precedes l (_src_node e) (_dst_node e).

(** A block without incident edges. *)
Definition isolated (es : list edge) (b : node_t) : Prop :=
  forall e, e ∈ es -> _src_node e <> b /\ _dst_node e <> b.

(** *** The traversal *)

(** The successor relation an adjacency map stands for. *)
Definition adj_rel (adj : gmap node_t (list node_t)) (u v : node_t) : Prop :=
  v ∈ default [] (adj !! u).

(** What holds of the traversal state at every turn of the while loop.
    [L] is the node list followed by the queue: a turn moves the boundary
    between the two and appends the new children to [L]. *)
Definition traversal_inv (adj : gmap node_t (list node_t)) (S : node_t -> Prop)
    (st : breadth_first.traversal) : Prop :=
  let L := breadth_first.nodelist st ++ breadth_first.queue st in
  NoDup L
  /\ (forall x, x ∈ breadth_first.reached st <-> x ∈ L)
  /\ (forall u v, u ∈ breadth_first.nodelist st -> adj_rel adj u v ->
                  v ∈ breadth_first.reached st)
  /\ (forall x, x ∈ breadth_first.reached st -> exists s, S s /\ rtc (adj_rel adj) s x)
  /\ (forall s, S s -> s ∈ breadth_first.reached st)
  /\ (forall j v, L !! j = Some v ->
        S v \/ exists i u, i < j /\ L !! i = Some u /\ adj_rel adj u v).

(** *** The progress word under the peers' stores *)


(** *** Settings *)

Section settings_vocabulary.
Import settings.
Context {pmt : Type} (index : pmt -> nat).

(** Some member that [key] could be staged into has another type than
    the alternative [value] holds. *)
Definition some_mismatch (members : list member) (key : string) (value : pmt) : Prop :=
  exists m, m ∈ members /\ settable m = true /\ display_name m = key
            /\ type_index m <> index value.

(** Every member that [key] could be staged into has another type than
    the alternative [value] holds. *)
Definition all_mismatch (members : list member) (key : string) (value : pmt) : Prop :=
  forall m, m ∈ members -> settable m = true -> display_name m = key ->
            type_index m <> index value.
End settings_vocabulary.

(** What [set] does with a key, read off the members. *)
Section settings_members.
Import settings.
Context {pmt : Type} (index : pmt -> nat).

(** Some settable member has the name [key] and the type of [value]: the
    first [if] of [iterate_over_member] fires. *)
Definition accepts (members : list member) (key : string) (value : pmt) : bool :=
  existsb (fun m => settable m && bool_decide (display_name m = key)
                    && holds_alternative index m value) members.

(** Some settable member has the name [key] and another type: the second
    [if] fires. *)
Definition rejects (members : list member) (key : string) (value : pmt) : bool :=
  existsb (fun m => settable m && bool_decide (display_name m = key)
                    && negb (holds_alternative index m value)) members.

(** The assignments of the first [if] of [iterate_over_member]. *)
Definition stage (key : string) (value : pmt) (st : BasicSettings (pmt := pmt))
    : BasicSettings :=
  mk_settings (<[key := value]> (_staged st)) (_auto_update st ∖ {[key]}) true
    (meta_information st).

(** Some settable member has the name [key]. *)
Definition names_setting (members : list member) (key : string) : bool :=
  existsb (fun m => settable m && bool_decide (display_name m = key)) members.
End settings_members.

(** What [applyStagedParameters] does with a staged entry, read off one
    member. *)
Section apply_vocabulary.
Import settings.
Context {pmt : Type} (index : pmt -> nat).
Context (validate_and_set : block_settings.field (pmt := pmt) -> pmt -> bool * pmt).

(** The member takes the entry: it is settable, has the key as its name
    and the type of the value. *)
Definition takes (f : block_settings.field (pmt := pmt)) (key : string) (v : pmt) : bool :=
  settable (block_settings.desc f)
  && bool_decide (display_name (block_settings.desc f) = key)
  && holds_alternative index (block_settings.desc f) v.

(** The member after the lambda has seen the entry. *)
Definition touch (key : string) (v : pmt) (f : block_settings.field (pmt := pmt))
    : block_settings.field :=
  if takes f key v then
    if block_settings.is_annotated f
    then block_settings.with_value (validate_and_set f v).2 f
    else block_settings.with_value v f
  else f.

(** The entry is recorded as applied on behalf of this member. *)
Definition applies (key : string) (v : pmt) (f : block_settings.field (pmt := pmt)) : bool :=
  takes f key v
  && (negb (block_settings.is_annotated f) || (validate_and_set f v).1).

(** The member after the lambda has seen every entry of a list. *)
Definition touch_all (l : list (string * pmt)) (f : block_settings.field (pmt := pmt))
    : block_settings.field :=
  fold_left (fun f kv => touch kv.1 kv.2 f) l f.

(** The name under which a member appears in the maps. *)
Definition field_name (f : block_settings.field (pmt := pmt)) : string :=
  display_name (block_settings.desc f).

(** The member after the loop over a staged map: only the entry under
    the member's own name can change it. *)
Definition after_apply (m : gmap string pmt) (f : block_settings.field (pmt := pmt))
    : block_settings.field :=
  match m !! field_name f with
  | Some v => touch (field_name f) v f
  | None => f
  end.

(** What reflection says of a member, apart from its value. *)
Definition static (f : block_settings.field (pmt := pmt)) : member * bool * bool :=
  (block_settings.desc f, block_settings.is_readable f, block_settings.is_annotated f).
End apply_vocabulary.

(** ** Scenarios *)

Module scenario.

(** Blocks whose [work] reports a fixed status per block and one item of
    performed work; the state counts the calls made. *)
Definition fixed_status (st : node_t -> work_return_status_t.t) : node_model nat :=
  mk_node_model
    (fun n _ w => (mk_work_return SIZE_MAX 1 (st n), S w))
    (fun _ => false)
    (fun _ v _ => (0%Z, v)).

(** Block 1 fails, every other block is done. *)
Definition first_fails : node_model nat :=
  fixed_status (fun n => if decide (n = 1%N) then work_return_status_t.ERROR
                         else work_return_status_t.DONE).

(** Block 2 lacks output space, the others lack input. *)
Definition second_busy : node_model nat :=
  fixed_status (fun n => if decide (n = 2%N) then work_return_status_t.INSUFFICIENT_OUTPUT_ITEMS
                         else work_return_status_t.INSUFFICIENT_INPUT_ITEMS).

(** A graph of two blocks with one pending connection 1 -> 2. *)
Definition pipe : graph :=
  mk_graph (mk_graph_data [1%N; 2%N] []) [connect true 1%N 2%N].

(** Three blocks; the first connection resolves, the second fails. *)
Definition half_connected : graph :=
  mk_graph (mk_graph_data [1%N; 2%N; 3%N] [])
    [connect true 1%N 2%N; connect false 2%N 3%N].

(** The diamond with a long and a short way from 1 to 3:
    1 -> 3, 1 -> 2, 2 -> 3. *)
Definition short_cut : list edge :=
  [mk_edge 1%N 3%N; mk_edge 1%N 2%N; mk_edge 2%N 3%N].

Definition pool4 : BasicThreadPool := mk_pool 4.

(** The graph whose pending connections resolve to [short_cut]. *)
Definition short_cut_graph : graph :=
  mk_graph (mk_graph_data [1%N; 2%N; 3%N] [])
    [connect true 1%N 3%N; connect true 1%N 2%N; connect true 2%N 3%N].

(** A small stand-in for [pmtv::pmt] with three alternatives. *)
Inductive toy_pmt := pmt_bool (b : bool) | pmt_int (z : Z) | pmt_string (s : string).

Definition toy_index (v : toy_pmt) : nat :=
  match v with pmt_bool _ => 0 | pmt_int _ => 1 | pmt_string _ => 2 end.

(** A block with an integer field [gain] and a string field [label],
    both writable settings. *)
Definition gain : settings.member := settings.mk_member "gain" 1 true false true true.
Definition label : settings.member := settings.mk_member "label" 2 true false true true.

Definition untouched : settings.BasicSettings (pmt := toy_pmt) :=
  settings.mk_settings ∅ {["gain"; "label"]} false None.

(** [updateMaps] as an overwrite of the destination. *)
Definition overwrite (src dest : gmap string toy_pmt) : gmap string toy_pmt :=
  src ∪ dest.

(** The callbacks of the exception test: one throws [std::exception()],
    the other a string literal. *)
Definition throw_exception : circular_buffer.writer_callback (T := Z) :=
  fun _ => circular_buffer.Throws (circular_buffer.std exn.exception).

Definition throw_literal : circular_buffer.writer_callback (T := Z) :=
  fun _ => circular_buffer.Throws circular_buffer.other.

(** A buffer of 1024 slots with one registered reader, nothing
    published yet. *)
Definition one_reader : circular_buffer.t Z :=
  (circular_buffer.new_reader (circular_buffer.new 1024 0%Z)).2.

(** An amplifier block: the fields [gain] and [label] as above and an
    annotated integer field [rate] that takes positive values only and is
    forwarded downstream. *)
Definition rate : settings.member := settings.mk_member "rate" 1 true false true true.

Definition amplifier : list (block_settings.field (pmt := toy_pmt)) :=
  [block_settings.mk_field gain true false (pmt_int 1);
   block_settings.mk_field label true false (pmt_string "amp");
   block_settings.mk_field rate true true (pmt_int 48)].

Definition positive_only (f : block_settings.field (pmt := toy_pmt)) (v : toy_pmt)
    : bool * toy_pmt :=
  match v with
  | pmt_int z => if (0 <? z)%Z then (true, v) else (false, block_settings.value f)
  | _ => (false, block_settings.value f)
  end.

Definition amplifier_settings : block_settings.t (pmt := toy_pmt) :=
  block_settings.mk (settings.mk_settings ∅ {["gain"; "label"; "rate"]} false None)
    amplifier ∅ {["rate"]} ∅.

(** The ring 1 -> 2 -> 1: no block is a source. *)
Definition ring : graph :=
  mk_graph (mk_graph_data [1%N; 2%N] []) [connect true 1%N 2%N; connect true 2%N 1%N].

(** The pipe 1 -> 2 and a block 7 that no edge touches. *)
Definition pipe_and_loner : graph :=
  mk_graph (mk_graph_data [1%N; 2%N; 7%N] []) [connect true 1%N 2%N].

End scenario.

(* ===================================================================== *)
(** * Part II: properties *)
(* ===================================================================== *)

Import SchedulerState.

(** ** Machine integers *)

Lemma wrap64_range (z : Z) : (0 <= wrap64 z < 2 ^ 64)%Z.
Proof. unfold wrap64. apply Z.mod_pos_bound. lia. Qed.

Lemma wrap64_small (z : Z) : (0 <= z < 2 ^ 64)%Z -> wrap64 z = z.
Proof. intros H. unfold wrap64. apply Z.mod_small. exact H. Qed.

Lemma wrap32_small (z : Z) : (0 <= z < 2 ^ 32)%Z -> wrap32 z = z.
Proof. intros H. unfold wrap32. apply Z.mod_small. exact H. Qed.

Lemma wrap64_add_l (a b : Z) : wrap64 (wrap64 a + b) = wrap64 (a + b).
Proof. unfold wrap64. apply Zplus_mod_idemp_l. Qed.

(** The size_t sum of a list, started from [acc]. *)
Lemma accumulate_from (v : list Z) (acc : Z) :
  fold_left (fun a x => wrap64 (a + x)) v (wrap64 acc)
  = wrap64 (acc + foldr Z.add 0%Z v).
Proof.
  revert acc. induction v as [|x v IH]; intros acc; simpl.
  - f_equal. lia.
  - rewrite wrap64_add_l, IH. f_equal. lia.
Qed.

Lemma accumulate_sum (v : list Z) : accumulate v = wrap64 (foldr Z.add 0%Z v).
Proof.
  unfold accumulate.
  change 0%Z with (wrap64 0) at 1. rewrite accumulate_from. reflexivity.
Qed.

(** Without overflow the accumulated count is positive exactly when some
    entry is. *)
Lemma accumulate_positive (v : list Z) :
  Forall (fun x => 0 <= x)%Z v ->
  (foldr Z.add 0 v < 2 ^ 64)%Z ->
  (accumulate v > 0)%Z <-> Exists (fun x => 0 < x)%Z v.
Proof.
  intros Hpos Hbound.
  assert (Hnn : (0 <= foldr Z.add 0 v)%Z).
  { clear Hbound. induction Hpos; simpl; lia. }
  rewrite accumulate_sum, wrap64_small by lia.
  clear Hbound Hnn. induction Hpos as [|x v Hx Hv IH]; simpl.
  - rewrite Exists_nil. lia.
  - rewrite Exists_cons.
    assert (0 <= foldr Z.add 0 v)%Z by (clear IH; induction Hv; simpl; lia).
    split.
    + intros H1. destruct (decide (0 < x)%Z); [left; lia|right; apply IH; lia].
    + intros [H1|H1]; [lia|]. apply IH in H1. lia.
Qed.

(** ** [work_once] *)

Section work_once_facts.
Context {W : Type} (ops : node_model W).

Let raw_sum (cs : list (call (W := W))) : Z :=
  foldr Z.add 0%Z (map (fun c : call => performed_work c.1.2) cs).

Lemma state_after_cons (w : W) (c : call) (cs : list call) :
  state_after w (c :: cs) = state_after c.2 cs.
Proof.
  unfold state_after. simpl map. rewrite !last_cons.
  destruct (last (map _ cs)); reflexivity.
Qed.

(** The loop of [work_once] from any value of its two accumulators. *)
Lemma work_once_loop_calls (nodes : list node_t) (sh : bool) (p : Z) (w : W) :
  simple.work_once_loop ops nodes sh (wrap64 p) w =
  match list_find is_error (calls ops nodes w) with
  | Some (k, c) =>
      (mk_work_return SIZE_MAX
         (wrap64 (p + raw_sum (take (S k) (calls ops nodes w))))
         work_return_status_t.ERROR, c.2)
  | None =>
      (mk_work_return SIZE_MAX (wrap64 (p + raw_sum (calls ops nodes w)))
         (if sh || existsb (productive ops) (calls ops nodes w)
          then work_return_status_t.OK else work_return_status_t.DONE),
       state_after w (calls ops nodes w))
  end.
Proof.
  revert sh p w. induction nodes as [|n nodes IH]; intros sh p w.
  - simpl. unfold raw_sum; simpl. rewrite Z.add_0_r, orb_false_r. reflexivity.
  - simpl. destruct (work ops n SIZE_MAX w) as [r w1] eqn:Hwork.
    rewrite wrap64_add_l.
    simpl. unfold is_error at 1. simpl.
    destruct (decide (status r = work_return_status_t.ERROR)) as [He|He].
    + simpl. unfold raw_sum. simpl. rewrite Z.add_0_r. reflexivity.
    + rewrite IH. clear IH.
      destruct (list_find is_error (calls ops nodes w1)) as [[k c]|] eqn:Hfind; simpl.
      * unfold raw_sum. simpl. do 2 f_equal. f_equal. lia.
      * rewrite state_after_cons. simpl.
        unfold raw_sum. simpl.
        replace (p + performed_work r + _)%Z with
          (p + (performed_work r + foldr Z.add 0
             (map (fun c : call => performed_work c.1.2) (calls ops nodes w1))))%Z by lia.
        f_equal. f_equal.
        unfold productive at 2, has_pending_input. simpl.
        destruct (status r) eqn:Hst; try congruence; simpl;
          destruct (is_blocking ops n); simpl;
          repeat case_decide; try tauto; try congruence;
          rewrite ?orb_true_r, ?orb_false_r; simpl;
          try reflexivity;
          destruct sh; simpl; try reflexivity;
          destruct (bool_decide _); reflexivity.
Qed.

Lemma work_once_calls (nodes : list node_t) (w : W) :
  simple.work_once ops nodes w =
  match list_find is_error (calls ops nodes w) with
  | Some (k, c) =>
      (mk_work_return SIZE_MAX (performed_sum (take (S k) (calls ops nodes w)))
         work_return_status_t.ERROR, c.2)
  | None =>
      (mk_work_return SIZE_MAX (performed_sum (calls ops nodes w))
         (if existsb (productive ops) (calls ops nodes w)
          then work_return_status_t.OK else work_return_status_t.DONE),
       state_after w (calls ops nodes w))
  end.
Proof.
  unfold simple.work_once. change 0%Z with (wrap64 0) at 1.
  rewrite work_once_loop_calls. reflexivity.
Qed.

(** The breadth-first scheduler's [work_once] is the same function. *)
Lemma breadth_first_work_once_loop_eq (nodes : list node_t) sh p (w : W) :
  breadth_first.work_once_loop ops nodes sh p w = simple.work_once_loop ops nodes sh p w.
Proof. revert sh p w. induction nodes as [|n nodes IH]; intros; simpl; [reflexivity|].
  destruct (work ops n SIZE_MAX w) as [r w1]. case_decide; [reflexivity|]. apply IH.
Qed.

Lemma breadth_first_work_once_eq (nodes : list node_t) (w : W) :
  breadth_first.work_once ops nodes w = simple.work_once ops nodes w.
Proof. apply breadth_first_work_once_loop_eq. Qed.

End work_once_facts.

Lemma performed_sum_exact {W : Type} (cs : list (call (W := W))) :
  Forall (fun c : call => 0 <= performed_work c.1.2)%Z cs ->
  (foldr Z.add 0 (map (fun c : call => performed_work c.1.2) cs) < 2 ^ 64)%Z ->
  performed_sum cs = foldr Z.add 0%Z (map (fun c : call => performed_work c.1.2) cs).
Proof.
  intros Hpos Hlt. unfold performed_sum. apply wrap64_small. split; [|exact Hlt].
  clear Hlt. induction Hpos; simpl; lia.
Qed.

(** C4.  [simple::work_once] calls the blocks' [work] in order with the
    maximal budget.  If a call returns ERROR the pass returns at once with
    status ERROR: the blocks behind it are not called, and the performed
    work is the sum over the calls made.  Otherwise the status is OK when
    some call was productive (status OK or INSUFFICIENT_OUTPUT_ITEMS, or a
    blocking block with a positive count of available input samples) and
    DONE when every call was idle (INSUFFICIENT_INPUT_ITEMS or DONE), and
    the performed work is the sum over all blocks.  Sums are taken in
    [std::size_t]. *)
Theorem simple_work_once_classifies {W : Type} (ops : node_model W)
    (nodes : list node_t) (w : W) :
  let cs := calls ops nodes w in
  let r := simple.work_once ops nodes w in
  requested_work r.1 = SIZE_MAX
  /\ (Exists is_error cs -> status r.1 = work_return_status_t.ERROR)
  /\ (forall k c, list_find is_error cs = Some (k, c) ->
        status r.1 = work_return_status_t.ERROR
        /\ performed_work r.1 = performed_sum (take (S k) cs)
        /\ r.2 = c.2)
  /\ (~ Exists is_error cs ->
        status r.1 = (if existsb (productive ops) cs
                      then work_return_status_t.OK else work_return_status_t.DONE)
        /\ performed_work r.1 = performed_sum cs
        /\ r.2 = state_after w cs).
Proof.
  intros cs r. subst r. rewrite work_once_calls. fold cs.
  destruct (list_find is_error cs) as [[k c]|] eqn:Hfind.
  - simpl. split; [reflexivity|]. split; [reflexivity|]. split.
    + intros k' c' [= <- <-]. auto.
    + intros Hno. exfalso. apply Hno. apply list_find_Some in Hfind.
      apply Exists_exists. exists c. split; [|tauto].
      apply list_elem_of_lookup. exists k. tauto.
  - simpl. split; [reflexivity|]. split; [|split].
    + intros Hex. apply Exists_exists in Hex as (c & Hin & Hc).
      apply list_find_None in Hfind. rewrite Forall_forall in Hfind.
      exfalso. exact (Hfind c Hin Hc).
    + intros k c [=].
    + auto.
Qed.

(** The theorem at a pass over three blocks of which the second is busy. *)
Lemma simple_work_once_classifies_witness :
  status (simple.work_once scenario.second_busy [1%N; 2%N; 3%N] O).1
  = work_return_status_t.OK
  /\ performed_work (simple.work_once scenario.second_busy [1%N; 2%N; 3%N] O).1 = 3%Z.
Proof.
  destruct (simple_work_once_classifies scenario.second_busy [1%N; 2%N; 3%N] O)
    as (_ & _ & _ & H).
  assert (Hno : ~ Exists is_error (calls scenario.second_busy [1%N; 2%N; 3%N] O)).
  { rewrite Exists_exists. intros (c & Hin & Hc).
    simpl in Hin. rewrite !elem_of_cons in Hin. rewrite elem_of_nil in Hin.
    destruct Hin as [->|[->|[->|[]]]]; discriminate Hc. }
  destruct (H Hno) as (H1 & H2 & _). split; [exact H1|exact H2].
Defined.

(** A pass that meets an error returns ERROR and leaves the later blocks
    alone: only one call was made. *)
Example work_once_first_fails :
  simple.work_once scenario.first_fails [1%N; 2%N; 3%N] O
  = (mk_work_return SIZE_MAX 1 work_return_status_t.ERROR, 1).
Proof. reflexivity. Qed.

(** ** [scheduler_base::init] *)

Lemma all_of_executed (defs : list connection_definition) (g : graph_data) :
  scheduler_base_ops.all_of defs g =
  match list_find failed (executed defs g) with
  | Some (k, x) => (false, x.2)
  | None => (true, default g (last (g :: map snd (executed defs g))))
  end.
Proof.
  revert g. induction defs as [|d defs IH]; intros g; simpl; [reflexivity|].
  destruct (d g) as [r g'] eqn:Hd. simpl. unfold failed at 1. simpl.
  destruct (decide (r = SUCCESS)) as [->|Hr].
  - rewrite decide_False by (intros H; apply H; reflexivity).
    rewrite IH. destruct (list_find failed (executed defs g')) as [[k x]|]; simpl.
    + reflexivity.
    + rewrite !last_cons. destruct (last (map snd (executed defs g'))); reflexivity.
  - rewrite decide_True by exact Hr. reflexivity.
Qed.

Lemma init_from_idle (s : scheduler_base) :
  _state s = IDLE ->
  scheduler_base_ops.init s =
  let res := scheduler_base_ops.all_of (connection_definitions (_graph s))
               (graph_contents (_graph s)) in
  if res.1
  then set_state INITIALISED (set_graph (mk_graph res.2 []) s)
  else set_state ERROR (set_graph (mk_graph res.2 (connection_definitions (_graph s))) s).
Proof.
  intros Hs. unfold scheduler_base_ops.init. rewrite Hs.
  rewrite decide_False by (intros H; apply H; reflexivity).
  destruct (scheduler_base_ops.all_of _ _) as [[] g']; reflexivity.
Qed.

(** C3, as the code has it.  When [init] is called in state IDLE and a
    connection definition fails, the state becomes ERROR; the definitions
    in front of the first failing one have been executed and reported
    success, and the graph is left as the failing definition left it:
    what the earlier definitions connected stays connected, the
    definitions behind the failing one are not executed, and the pending
    definitions are not cleared. *)
Theorem init_failure_keeps_executed_prefix (s : scheduler_base) :
  _state s = IDLE ->
  (scheduler_base_ops.all_of (connection_definitions (_graph s))
     (graph_contents (_graph s))).1 = false ->
  exists k x,
    executed (connection_definitions (_graph s)) (graph_contents (_graph s)) !! k = Some x
    /\ failed x
    /\ (forall j y,
          j < k ->
          executed (connection_definitions (_graph s)) (graph_contents (_graph s)) !! j
            = Some y ->
          y.1 = SUCCESS)
    /\ _state (scheduler_base_ops.init s) = ERROR
    /\ graph_contents (_graph (scheduler_base_ops.init s)) = x.2
    /\ connection_definitions (_graph (scheduler_base_ops.init s))
       = connection_definitions (_graph s).
Proof.
  intros Hs Hfail. rewrite (init_from_idle s Hs). cbv zeta. rewrite Hfail.
  rewrite all_of_executed in Hfail |- *.
  destruct (list_find failed _) as [[k x]|] eqn:Hfind; [|discriminate Hfail].
  apply list_find_Some in Hfind as (Hk & Hx & Hbefore).
  exists k, x. split; [exact Hk|]. split; [exact Hx|]. split.
  - intros j y Hj Hy. specialize (Hbefore j y Hy Hj).
    unfold failed in Hbefore. destruct (decide (y.1 = SUCCESS)); tauto.
  - simpl. auto.
Qed.

(** The theorem at a graph whose first connection resolves and whose
    second fails: the edge 1 -> 2 is there after the failed [init]. *)
Lemma init_failure_keeps_executed_prefix_witness :
  exists k x,
    executed (connection_definitions scenario.half_connected)
      (graph_contents scenario.half_connected) !! k = Some x
    /\ failed x
    /\ (forall j y,
          j < k ->
          executed (connection_definitions scenario.half_connected)
            (graph_contents scenario.half_connected) !! j = Some y ->
          y.1 = SUCCESS)
    /\ _state (scheduler_base_ops.init
                 (new_scheduler_base scenario.half_connected scenario.pool4)) = ERROR
    /\ graph_contents (_graph (scheduler_base_ops.init
                 (new_scheduler_base scenario.half_connected scenario.pool4))) = x.2
    /\ connection_definitions (_graph (scheduler_base_ops.init
                 (new_scheduler_base scenario.half_connected scenario.pool4)))
       = connection_definitions scenario.half_connected.
Proof.
  apply (init_failure_keeps_executed_prefix
           (new_scheduler_base scenario.half_connected scenario.pool4));
    reflexivity.
Defined.

(** C3, as the sentence reads, fails: after the failed [init] of the
    half-connected graph the resolved edges hold the edge 1 -> 2. *)
Lemma init_failure_leaves_partial_graph :
  ~ init_failure_rolls_back
      (new_scheduler_base scenario.half_connected scenario.pool4).
Proof.
  intros H. destruct (H eq_refl eq_refl) as [_ Hedges].
  vm_compute in Hedges. discriminate Hedges.
Qed.

Example half_connected_after_init :
  resolved_edges (scheduler_base_ops.init
                    (new_scheduler_base scenario.half_connected scenario.pool4))
  = [mk_edge 1%N 2%N].
Proof. reflexivity. Qed.

(** When every definition succeeds the scheduler is INITIALISED and the
    pending definitions are cleared. *)
Lemma init_success (s : scheduler_base) :
  _state s = IDLE ->
  (scheduler_base_ops.all_of (connection_definitions (_graph s))
     (graph_contents (_graph s))).1 = true ->
  _state (scheduler_base_ops.init s) = INITIALISED
  /\ connection_definitions (_graph (scheduler_base_ops.init s)) = [].
Proof.
  intros Hs Hok. rewrite (init_from_idle s Hs). cbv zeta. rewrite Hok. auto.
Qed.

(** ** [start], single-threaded *)

Section start_facts.
Context {W : Type} (ops : node_model W).

(** The two pass loops make the same calls and leave on the same
    result. *)
Lemma run_passes_same (fuel : nat) (nodelist : list node_t) (w : W) :
  breadth_first.run_passes ops fuel nodelist w =
  match simple.run_passes ops fuel nodelist w with
  | Some (r, w') => breadth_first.LoopExit r w'
  | None => breadth_first.OutOfFuel
  end.
Proof.
  revert w. induction fuel as [|fuel IH]; intros w; simpl; [reflexivity|].
  rewrite breadth_first_work_once_eq.
  destruct (simple.work_once ops nodelist w) as [r w'].
  destruct (decide (status r = work_return_status_t.OK)) as [Hok|Hok].
  - rewrite decide_False by (rewrite Hok; discriminate). apply IH.
  - reflexivity.
Qed.

(** The [return] inside the breadth-first loop is never taken. *)
Lemma breadth_first_error_return_dead (fuel : nat) (nodelist : list node_t) (w : W)
    (r : work_return_t) (w' : W) :
  breadth_first.run_passes ops fuel nodelist w <> breadth_first.ErrorReturn r w'.
Proof.
  rewrite run_passes_same. destruct (simple.run_passes _ _ _ _) as [[? ?]|]; discriminate.
Qed.

(** The simple scheduler: a pass that returns ERROR puts the scheduler in
    state ERROR. *)
Lemma simple_start_error (fuel : nat) (s s1 : simple.t) (w w' : W) (r : work_return_t) :
  simple.prepare single_threaded s = Some s1 ->
  _state (simple.base s1) = INITIALISED ->
  simple.run_passes ops fuel (blocks (graph_contents (_graph (simple.base s1)))) w
    = Some (r, w') ->
  status r = work_return_status_t.ERROR ->
  exists s', simple.start ops single_threaded fuel s w = Returned s' w'
             /\ _state (simple.base s') = ERROR.
Proof.
  intros Hprep Hinit Hrun Herr. unfold simple.start. rewrite Hprep.
  rewrite decide_False by (rewrite Hinit; intros H; apply H; reflexivity).
  simpl. rewrite Hrun. rewrite decide_True by exact Herr.
  eexists. split; reflexivity.
Qed.

(** C2, breadth-first side.  When the pass loop of
    [breadth_first::start] ends on a pass with status ERROR, [start]
    returns with the scheduler in state STOPPED: the assignment of ERROR
    sits inside the loop body, which only runs after a pass with status
    OK. *)
Theorem breadth_first_start_error_ends_stopped (fuel : nat) (s s1 : breadth_first.t)
    (w w' : W) (r : work_return_t) :
  breadth_first.prepare single_threaded s = Some s1 ->
  _state (breadth_first.base s1) = INITIALISED ->
  breadth_first.run_passes ops fuel (breadth_first._nodelist s1) w
    = breadth_first.LoopExit r w' ->
  status r = work_return_status_t.ERROR ->
  exists s', breadth_first.start ops single_threaded fuel s w = Returned s' w'
             /\ _state (breadth_first.base s') = STOPPED.
Proof.
  intros Hprep Hinit Hrun Herr. unfold breadth_first.start. rewrite Hprep.
  rewrite decide_False by (rewrite Hinit; intros H; apply H; reflexivity).
  simpl. rewrite Hrun. eexists. split; reflexivity.
Qed.

(** Whatever the passes return, a single-threaded [breadth_first::start]
    that returns leaves the state STOPPED. *)
Lemma breadth_first_start_never_error (fuel : nat) (s s' : breadth_first.t) (w w' : W) :
  breadth_first.start ops single_threaded fuel s w = Returned s' w' ->
  _state (breadth_first.base s') = STOPPED.
Proof.
  unfold breadth_first.start.
  destruct (breadth_first.prepare single_threaded s) as [s1|]; [|discriminate].
  case_decide; [discriminate|].
  destruct (breadth_first.run_passes _ _ _ _) as [r1 w1|r1 w1|] eqn:Hrun.
  - intros [= <- <-]. reflexivity.
  - exfalso. exact (breadth_first_error_return_dead _ _ _ _ _ Hrun).
  - discriminate.
Qed.

End start_facts.

(** The failing run: a fresh breadth-first scheduler over the pipe 1 -> 2
    whose first block fails.  The first pass returns ERROR and [start]
    returns in state STOPPED. *)
Lemma breadth_first_start_error_ends_stopped_witness :
  exists s', breadth_first.start scenario.first_fails single_threaded 1
               (breadth_first.new scenario.pipe scenario.pool4) O
             = Returned s' 1
             /\ _state (breadth_first.base s') = STOPPED.
Proof.
  apply (breadth_first_start_error_ends_stopped scenario.first_fails 1
           (breadth_first.new scenario.pipe scenario.pool4)
           (breadth_first.init single_threaded
              (breadth_first.new scenario.pipe scenario.pool4))
           O 1
           (mk_work_return SIZE_MAX 1 work_return_status_t.ERROR));
    reflexivity.
Defined.

(** The simple scheduler on the same graph and blocks ends in ERROR. *)
Example simple_start_first_fails :
  exists s', simple.start scenario.first_fails single_threaded 1
               (simple.mk (new_scheduler_base scenario.pipe scenario.pool4) []) O
             = Returned s' 1
             /\ _state (simple.base s') = ERROR.
Proof. eexists. split; reflexivity. Qed.

(** ** The breadth-first traversal *)

Lemma size_difference_step (D r : gset node_t) (x : node_t) :
  x ∈ D -> x ∉ r -> size (D ∖ (r ∪ {[x]})) + 1 = size (D ∖ r).
Proof.
  intros HD Hr.
  assert (Heq : D ∖ r = {[x]} ∪ D ∖ (r ∪ {[x]})).
  { apply set_eq. intros y. rewrite elem_of_union, !elem_of_difference,
      elem_of_union, elem_of_singleton.
    destruct (decide (y = x)) as [->|Hne]; split; intros H; tauto. }
  assert (Hdisj : ({[x]} : gset N) ## D ∖ (r ∪ {[x]})) by set_solver.
  rewrite Heq, (size_union {[x]} (D ∖ (r ∪ {[x]})) Hdisj), size_singleton. lia.
Qed.

Lemma seed_push_child (qr : list node_t * gset node_t) (x : node_t) :
  breadth_first.seed qr x = breadth_first.push_child qr x.
Proof.
  unfold breadth_first.seed, breadth_first.push_child. destruct qr as [q r]. simpl.
  destruct (decide (x ∈ r)) as [Hin|Hin]; [|reflexivity].
  f_equal. set_solver.
Qed.

Lemma fold_seed_push_child (l : list node_t) (qr : list node_t * gset node_t) :
  fold_left breadth_first.seed l qr = fold_left breadth_first.push_child l qr.
Proof.
  revert qr. induction l as [|x l IH]; intros qr; simpl; [reflexivity|].
  rewrite seed_push_child. apply IH.
Qed.

(** Pushing the children [ds] appends the ones not yet reached, each
    once, in order. *)
Lemma push_children (D : gset node_t) (ds q : list node_t) (r : gset node_t) :
  exists new,
    fold_left breadth_first.push_child ds (q, r) = (q ++ new, r ∪ list_to_set new)
    /\ NoDup new
    /\ (forall x, x ∈ new <-> x ∈ ds /\ x ∉ r)
    /\ ((forall x, x ∈ ds -> x ∈ D) ->
        length (q ++ new) + size (D ∖ (r ∪ list_to_set new)) = length q + size (D ∖ r)).
Proof.
  revert q r. induction ds as [|d ds IH]; intros q r.
  - exists []. simpl. rewrite app_nil_r, union_empty_r_L.
    split; [reflexivity|]. split; [constructor|]. split; [|reflexivity].
    intros x. rewrite !elem_of_nil. tauto.
  - simpl. unfold breadth_first.push_child at 2. simpl.
    destruct (decide (d ∈ r)) as [Hin|Hin].
    + destruct (IH q r) as (new & Hfold & Hnd & Hmem & Hsize).
      exists new. split; [exact Hfold|]. split; [exact Hnd|]. split.
      * intros x. rewrite Hmem, elem_of_cons. split; [tauto|].
        intros [[->|H1] H2]; tauto.
      * intros HD. apply Hsize. intros x Hx. apply HD. right. exact Hx.
    + destruct (IH (q ++ [d]) (r ∪ {[d]})) as (new & Hfold & Hnd & Hmem & Hsize).
      exists (d :: new). rewrite Hfold. split.
      { f_equal; [rewrite <- app_assoc; reflexivity|]. simpl. set_solver. }
      split.
      { constructor; [|exact Hnd]. rewrite Hmem. set_solver. }
      split.
      { intros x. rewrite !elem_of_cons, Hmem, elem_of_union, elem_of_singleton.
        destruct (decide (x = d)) as [->|Hne]; tauto. }
      intros HD.
      assert (Hd : d ∈ D) by (apply HD; left).
      specialize (Hsize (fun x Hx => HD x (list_elem_of_further _ _ _ Hx))).
      pose proof (size_difference_step D r d Hd Hin) as Hstep.
      replace (r ∪ list_to_set (d :: new)) with (r ∪ {[d]} ∪ list_to_set new)
        by (simpl; set_solver).
      replace (q ++ d :: new) with ((q ++ [d]) ++ new)
        by (rewrite <- app_assoc; reflexivity).
      rewrite Hsize, length_app. simpl. lia.
Qed.

Section traversal.
(** The adjacency map, the set of edge destinations, and what counts as
    a source. *)
Context (adj : gmap node_t (list node_t)) (D : gset node_t) (S : node_t -> Prop).

Let R := adj_rel adj.

Hypothesis adj_dst : forall u v, R u v -> v ∈ D.

(** One turn of the while loop. *)
Let step (current_node : node_t) (rest : list node_t) (st : breadth_first.traversal)
    : breadth_first.traversal :=
  let qr := fold_left breadth_first.push_child (default [] (adj !! current_node))
              (rest, breadth_first.reached st) in
  breadth_first.mk_traversal qr.1 qr.2 (breadth_first.nodelist st ++ [current_node]).

Lemma traverse_unfold (fuel : nat) (st : breadth_first.traversal) :
  breadth_first.traverse (Datatypes.S fuel) adj st =
  match breadth_first.queue st with
  | [] => st
  | c :: rest => breadth_first.traverse fuel adj (step c rest st)
  end.
Proof.
  simpl. destruct (breadth_first.queue st) as [|c rest]; [reflexivity|].
  unfold step. destruct (adj !! c); reflexivity.
Qed.

Lemma step_inv (c : node_t) (rest : list node_t) (st : breadth_first.traversal) :
  breadth_first.queue st = c :: rest ->
  traversal_inv adj S st -> traversal_inv adj S (step c rest st).
Proof.
  intros Hq (Hnd & Hreach & Hclosed & Hsound & Hsrc & Hpred).
  unfold traversal_inv in *. cbv zeta in *. rewrite Hq in *.
  unfold step.
  destruct (push_children D (default [] (adj !! c)) rest (breadth_first.reached st))
    as (new & Hfold & Hnew & Hmem & _).
  rewrite Hfold. simpl.
  set (nl := breadth_first.nodelist st) in *.
  set (r := breadth_first.reached st) in *.
  assert (HL : (nl ++ [c]) ++ rest ++ new = (nl ++ c :: rest) ++ new).
  { rewrite <- !app_assoc. reflexivity. }
  rewrite HL.
  assert (Hc : c ∈ r).
  { apply Hreach. rewrite elem_of_app, elem_of_cons. tauto. }
  split; [|split; [|split; [|split; [|split]]]].
  - apply NoDup_app. split; [exact Hnd|]. split; [|exact Hnew].
    intros x Hx Hx'. apply Hmem in Hx' as [_ Hx']. apply Hx', Hreach, Hx.
  - intros x. rewrite elem_of_union, elem_of_list_to_set, elem_of_app, Hreach.
    reflexivity.
  - intros u v Hu Huv. rewrite elem_of_union, elem_of_list_to_set.
    rewrite elem_of_app, list_elem_of_singleton in Hu.
    destruct Hu as [Hu| ->].
    + left. eapply Hclosed; eauto.
    + destruct (decide (v ∈ r)); [tauto|]. right. apply Hmem. tauto.
  - intros x. rewrite elem_of_union, elem_of_list_to_set.
    intros [Hx|Hx]; [auto|].
    apply Hmem in Hx as [Hx _].
    destruct (Hsound c Hc) as (s & Hs & Hsc).
    exists s. split; [exact Hs|]. eapply rtc_r; eauto.
  - intros s Hs. rewrite elem_of_union. left. auto.
  - intros j v Hj.
    apply lookup_app_Some in Hj as [Hj|[Hlen Hj]].
    + destruct (Hpred j v Hj) as [Hv|(i & u & Hi & Hu & Huv)]; [tauto|].
      right. exists i, u. split; [exact Hi|]. split; [|exact Huv].
      apply lookup_app_l_Some. exact Hu.
    + right. exists (length nl), c.
      assert (Hv : v ∈ new) by (eapply list_elem_of_lookup_2; eauto).
      apply Hmem in Hv as [Hv _].
      split; [rewrite length_app in Hlen; simpl in Hlen; lia|].
      split; [|exact Hv].
      apply lookup_app_l_Some. rewrite lookup_app_r by lia.
      rewrite Nat.sub_diag. reflexivity.
Qed.

Lemma traverse_inv (fuel : nat) (st : breadth_first.traversal) :
  traversal_inv adj S st -> traversal_inv adj S (breadth_first.traverse fuel adj st).
Proof.
  revert st. induction fuel as [|fuel IH]; intros st Hinv.
  - simpl. destruct (breadth_first.queue st); exact Hinv.
  - rewrite traverse_unfold. destruct (breadth_first.queue st) as [|c rest] eqn:Hq.
    + exact Hinv.
    + apply IH, step_inv; assumption.
Qed.

(** The fuel that [traverse_fuel] grants is enough: the loop ends
    because the queue is empty. *)
Lemma traverse_drains (fuel : nat) (st : breadth_first.traversal) :
  length (breadth_first.queue st) + size (D ∖ breadth_first.reached st) <= fuel ->
  breadth_first.queue (breadth_first.traverse fuel adj st) = [].
Proof.
  revert st. induction fuel as [|fuel IH]; intros st Hfuel.
  - simpl. destruct (breadth_first.queue st) eqn:Hq; [exact Hq|simpl in Hfuel; lia].
  - rewrite traverse_unfold. destruct (breadth_first.queue st) as [|c rest] eqn:Hq.
    + exact Hq.
    + apply IH. unfold step.
      destruct (push_children D (default [] (adj !! c)) rest (breadth_first.reached st))
        as (new & Hfold & _ & _ & Hsize).
      rewrite Hfold. simpl. rewrite Hsize by (intros x Hx; apply (adj_dst c); exact Hx).
      simpl in Hfuel. lia.
Qed.

End traversal.

(** *** From the edge list to the adjacency map *)

Lemma scan_edges_snoc (es : list edge) (e : edge) :
  breadth_first.scan_edges (es ++ [e])
  = breadth_first.scan_edge (breadth_first.scan_edges es) e.
Proof. unfold breadth_first.scan_edges. rewrite fold_left_app. reflexivity. Qed.

Lemma scan_edges_spec (es : list edge) :
  (forall u v, adj_rel (breadth_first._adjacency_list (breadth_first.scan_edges es)) u v
               <-> edge_rel es u v)
  /\ breadth_first._source_nodes (breadth_first.scan_edges es) = map _src_node es
  /\ (forall v, v ∈ breadth_first.node_reached (breadth_first.scan_edges es)
                <-> exists e, e ∈ es /\ _dst_node e = v).
Proof.
  induction es as [|e es (IHadj & IHsrc & IHdst)] using rev_ind.
  - split; [|split].
    + intros u v. unfold adj_rel, edge_rel. simpl. rewrite lookup_empty. simpl.
      rewrite !elem_of_nil. tauto.
    + reflexivity.
    + intros v. simpl. split; [set_solver|]. intros (e & He & _).
      apply elem_of_nil in He. destruct He.
  - rewrite scan_edges_snoc. unfold breadth_first.scan_edge. simpl.
    split; [|split].
    + intros u v. unfold edge_rel. rewrite elem_of_app, list_elem_of_singleton.
      fold (edge_rel es u v). rewrite <- IHadj. unfold adj_rel.
      destruct (decide (_src_node e = u)) as [<-|Hne].
      * rewrite lookup_insert_eq. simpl. rewrite elem_of_app, list_elem_of_singleton.
        destruct e as [a b]; simpl. split; intros [H|H]; try tauto.
        -- right. congruence.
        -- right. congruence.
      * rewrite lookup_insert_ne by exact Hne.
        destruct e as [a b]; simpl in *. split; [tauto|].
        intros [H|H]; [tauto|]. congruence.
    + rewrite IHsrc, map_app. reflexivity.
    + intros v. rewrite elem_of_union, elem_of_singleton, IHdst. split.
      * intros [(e' & He' & Hv)|Hv].
        -- exists e'. rewrite elem_of_app. tauto.
        -- exists e. rewrite elem_of_app, list_elem_of_singleton. auto.
      * intros (e' & He' & Hv). rewrite elem_of_app, list_elem_of_singleton in He'.
        destruct He' as [He'| ->]; [left; eauto|right; auto].
Qed.

Lemma erase_reached_sources (es : list edge) (x : node_t) :
  x ∈ breadth_first.erase_reached (breadth_first.scan_edges es) <-> is_source es x.
Proof.
  destruct (scan_edges_spec es) as (_ & Hsrc & Hdst).
  unfold breadth_first.erase_reached, is_source.
  rewrite list_elem_of_filter, Hsrc, Hdst, list_elem_of_fmap.
  split.
  - intros [Hno (e & -> & He)]. split; [eauto|exact Hno].
  - intros [(e & He & <-) Hno]. split; [exact Hno|eauto].
Qed.

(** *** The node list of a fresh scheduler *)

Lemma build_nodelist_spec (es : list edge) :
  let t := breadth_first.build_nodelist es [] in
  breadth_first.queue t = []
  /\ NoDup (breadth_first.nodelist t)
  /\ (forall n, n ∈ breadth_first.nodelist t <-> reachable es n)
  /\ (forall v, v ∈ breadth_first.nodelist t ->
        is_source es v
        \/ exists u, edge_rel es u v /\ precedes (breadth_first.nodelist t) u v).
Proof.
  intros t. subst t. unfold breadth_first.build_nodelist.
  set (a := breadth_first.scan_edges es).
  destruct (scan_edges_spec es) as (Hadj & _ & Hdst). fold a in Hadj, Hdst.
  destruct (push_children (breadth_first.node_reached a)
              (breadth_first.erase_reached a) [] ∅)
    as (new & Hfold & Hnew & Hmem & _).
  assert (Hseed : fold_left breadth_first.seed (breadth_first.erase_reached a) ([], ∅)
                  = (new, list_to_set new)).
  { rewrite fold_seed_push_child, Hfold. f_equal. apply union_empty_l_L. }
  rewrite Hseed. simpl. clear Hseed Hfold.
  set (st0 := breadth_first.mk_traversal new (list_to_set new) []).
  assert (Hsrc : forall x, x ∈ new <-> is_source es x).
  { intros x. rewrite Hmem. unfold a. rewrite erase_reached_sources. set_solver. }
  assert (Hinv0 : traversal_inv (breadth_first._adjacency_list a) (is_source es) st0).
  { unfold traversal_inv. simpl. split; [exact Hnew|]. split.
    { intros x. apply elem_of_list_to_set. }
    split. { intros u v Hu. apply elem_of_nil in Hu. destruct Hu. }
    split. { intros x Hx. exists x. split; [|apply rtc_refl].
             apply Hsrc. apply elem_of_list_to_set in Hx. exact Hx. }
    split. { intros s Hs. apply elem_of_list_to_set, Hsrc, Hs. }
    intros j v Hj. left. apply Hsrc. eapply list_elem_of_lookup_2; eauto. }
  assert (Hdrain : breadth_first.queue
            (breadth_first.traverse
               (breadth_first.traverse_fuel a new (list_to_set new))
               (breadth_first._adjacency_list a) st0) = []).
  { apply (traverse_drains _ (breadth_first.node_reached a)).
    - intros u v Huv. apply Hadj in Huv. apply Hdst. exists (mk_edge u v). auto.
    - reflexivity. }
  pose proof (traverse_inv (breadth_first._adjacency_list a)
                (breadth_first.node_reached a) (is_source es)
                (breadth_first.traverse_fuel a new (list_to_set new)) st0 Hinv0) as Hinv.
  set (t := breadth_first.traverse _ _ st0) in *.
  destruct Hinv as (Hnd & Hreach & Hclosed & Hsound & Hsources & Hpred).
  cbv zeta in *. rewrite Hdrain, app_nil_r in *.
  split; [reflexivity|]. split; [exact Hnd|]. split.
  - intros n. split.
    + intros Hn. apply Hreach, Hsound in Hn as (s & Hs & Hsn).
      exists s. split; [exact Hs|]. eapply rtc_subrel; [|exact Hsn].
      intros x y. apply Hadj.
    + intros (s & Hs & Hsn). apply Hreach.
      revert n Hsn. apply rtc_ind_r.
      * apply Hsources, Hs.
      * intros y z _ Hyz IH.
        eapply Hclosed; [apply Hreach; exact IH|]. apply Hadj. exact Hyz.
  - intros v Hv. apply list_elem_of_lookup in Hv as [j Hj].
    destruct (Hpred j v Hj) as [Hs|(i & u & Hi & Hu & Huv)]; [left; exact Hs|].
    right. exists u. split; [apply Hadj; exact Huv|]. exists i, j. auto.
Qed.

(** *** Job lists *)

Lemma job_loop_elem (fuel j n_batches : nat) (nodes job : list node_t) (x : node_t) :
  x ∈ job_loop fuel j n_batches nodes job -> x ∈ job \/ x ∈ nodes.
Proof.
  revert j job. induction fuel as [|fuel IH]; intros j job; simpl; [tauto|].
  destruct (nodes !! j) as [y|] eqn:Hy; [|tauto].
  intros Hx. apply IH in Hx as [Hx|Hx]; [|tauto].
  rewrite elem_of_app, list_elem_of_singleton in Hx. destruct Hx as [Hx| ->]; [tauto|].
  right. eapply list_elem_of_lookup_2; eauto.
Qed.

(** The fuel [make_job_lists] grants is enough: more of it changes
    nothing, so every [job_loop] there ends on [j >= nodes.size()]. *)
Lemma job_loop_enough_fuel (fuel extra j n_batches : nat) (nodes job : list node_t) :
  1 <= n_batches -> length nodes <= fuel + j ->
  job_loop (fuel + extra) j n_batches nodes job = job_loop fuel j n_batches nodes job.
Proof.
  intros Hn. revert j job. induction fuel as [|fuel IH]; intros j job Hfuel.
  - simpl. destruct extra as [|extra]; [reflexivity|]. simpl.
    rewrite lookup_ge_None_2 by lia. reflexivity.
  - simpl. destruct (nodes !! j) as [x|]; [|reflexivity]. apply IH. lia.
Qed.

Lemma make_job_lists_elem (n_batches : nat) (nodes job : list node_t) (x : node_t) :
  job ∈ make_job_lists n_batches nodes -> x ∈ job -> x ∈ nodes.
Proof.
  unfold make_job_lists. rewrite list_elem_of_fmap. intros (i & -> & _) Hx.
  apply job_loop_elem in Hx as [Hx|Hx]; [|exact Hx].
  apply elem_of_nil in Hx. destruct Hx.
Qed.

(** Round robin: with two job sets, five nodes are dealt 3 + 2. *)
Example make_job_lists_round_robin :
  make_job_lists 2 [1%N; 2%N; 3%N; 4%N; 5%N] = [[1%N; 3%N; 5%N]; [2%N; 4%N]].
Proof. reflexivity. Qed.

(** *** [breadth_first::init] *)

Lemma breadth_first_init_fields (policy : execution_policy) (s : breadth_first.t) :
  breadth_first.base (breadth_first.init policy s)
  = scheduler_base_ops.init (breadth_first.base s)
  /\ breadth_first._nodelist (breadth_first.init policy s)
     = breadth_first.nodelist
         (breadth_first.build_nodelist
            (resolved_edges (scheduler_base_ops.init (breadth_first.base s)))
            (breadth_first._nodelist s))
  /\ (forall job, job ∈ breadth_first._job_lists (breadth_first.init policy s) ->
        job ∈ breadth_first._job_lists s
        \/ forall x, x ∈ job -> x ∈ breadth_first._nodelist (breadth_first.init policy s)).
Proof.
  unfold breadth_first.init. destruct policy; simpl.
  - split; [reflexivity|]. split; [reflexivity|]. tauto.
  - split; [reflexivity|]. split; [reflexivity|].
    intros job. rewrite elem_of_app. intros [Hj|Hj]; [tauto|].
    right. intros x Hx. eapply make_job_lists_elem; eauto.
Qed.

Lemma init_base (policy : execution_policy) (s : breadth_first.t) :
  breadth_first.base (breadth_first.init policy s)
  = scheduler_base_ops.init (breadth_first.base s).
Proof. apply breadth_first_init_fields. Qed.

(** The node list of a scheduler whose list was empty is the traversal of
    the resolved edges. *)
Lemma init_nodelist_of_fresh (policy : execution_policy) (s : breadth_first.t) :
  breadth_first._nodelist s = [] ->
  breadth_first._nodelist (breadth_first.init policy s)
  = breadth_first.nodelist
      (breadth_first.build_nodelist
         (resolved_edges (scheduler_base_ops.init (breadth_first.base s))) []).
Proof.
  intros Hfresh. destruct (breadth_first_init_fields policy s) as (_ & -> & _).
  rewrite Hfresh. reflexivity.
Qed.

(** C5, as the code has it.  On a fresh scheduler [breadth_first::init]
    builds the node list by a breadth-first traversal of the resolved
    edges from the source blocks (the blocks that are the source of some
    edge and the destination of none): the list has no duplicates, it
    holds exactly the blocks reachable from a source block (cycles or
    not), and every block in it that is not a source block stands behind
    one of its producers, the one it was first reached from.  The while
    loop of the traversal ends on an empty queue. *)
Theorem breadth_first_init_nodelist (policy : execution_policy) (s : breadth_first.t) :
  breadth_first._nodelist s = [] ->
  let s' := breadth_first.init policy s in
  let es := resolved_edges (breadth_first.base s') in
  breadth_first.queue (breadth_first.build_nodelist es []) = []
  /\ NoDup (breadth_first._nodelist s')
  /\ (forall n, n ∈ breadth_first._nodelist s' <-> reachable es n)
  /\ (forall v, v ∈ breadth_first._nodelist s' ->
        is_source es v
        \/ exists u, edge_rel es u v /\ precedes (breadth_first._nodelist s') u v).
Proof.
  intros Hfresh s' es. subst s' es.
  rewrite (init_nodelist_of_fresh policy s Hfresh), init_base.
  apply build_nodelist_spec.
Qed.

(** The theorem at the diamond 1 -> 3, 1 -> 2, 2 -> 3. *)
Lemma breadth_first_init_nodelist_witness :
  NoDup (breadth_first._nodelist
           (breadth_first.init single_threaded
              (breadth_first.new scenario.short_cut_graph scenario.pool4)))
  /\ breadth_first._nodelist
       (breadth_first.init single_threaded
          (breadth_first.new scenario.short_cut_graph scenario.pool4))
     = [1%N; 3%N; 2%N].
Proof.
  split; [|reflexivity].
  destruct (breadth_first_init_nodelist single_threaded
              (breadth_first.new scenario.short_cut_graph scenario.pool4) eq_refl)
    as (_ & H & _).
  exact H.
Defined.

(** The diamond has no cycle at all: every edge leads to a larger block
    number. *)
Lemma short_cut_acyclic (n : node_t) : ~ tc (edge_rel scenario.short_cut) n n.
Proof.
  assert (Hup : forall u v, tc (edge_rel scenario.short_cut) u v -> (u < v)%N).
  { intros u v Huv. induction Huv as [u v Huv|u v w Huv _ IH].
    - unfold edge_rel, scenario.short_cut in Huv.
      rewrite !elem_of_cons, elem_of_nil in Huv.
      destruct Huv as [Huv|[Huv|[Huv|[]]]]; injection Huv as -> ->; lia.
    - unfold edge_rel, scenario.short_cut in Huv.
      rewrite !elem_of_cons, elem_of_nil in Huv.
      destruct Huv as [Huv|[Huv|[Huv|[]]]]; injection Huv as -> ->; lia. }
  intros Hnn. apply Hup in Hnn. lia.
Qed.

(** C5, as the sentence reads, fails on the diamond 1 -> 3, 1 -> 2,
    2 -> 3: the traversal yields 1, 3, 2, so the edge 2 -> 3, which lies on
    no cycle, has its consumer in front of its producer. *)
Lemma breadth_first_order_not_topological :
  ~ producers_precede_consumers
      (resolved_edges
         (breadth_first.base
            (breadth_first.init single_threaded
               (breadth_first.new scenario.short_cut_graph scenario.pool4))))
      (breadth_first._nodelist
         (breadth_first.init single_threaded
            (breadth_first.new scenario.short_cut_graph scenario.pool4))).
Proof.
  change (~ producers_precede_consumers scenario.short_cut [1%N; 3%N; 2%N]).
  intros H. destruct (H (mk_edge 2%N 3%N)) as (i & j & Hi & Hj & Hlt).
  - unfold scenario.short_cut. rewrite !elem_of_cons. tauto.
  - unfold on_cycle. simpl. intros Hcyc.
    apply rtc_inv in Hcyc as [Heq|(y & Hy & _)]; [discriminate Heq|].
    unfold edge_rel, scenario.short_cut in Hy.
    rewrite !elem_of_cons, elem_of_nil in Hy.
    destruct Hy as [Hy|[Hy|[Hy|[]]]]; discriminate Hy.
  - simpl in Hi, Hj.
    destruct i as [|[|[|i]]]; try discriminate Hi.
    destruct j as [|[|[|j]]]; try discriminate Hj. lia.
Qed.

(** *** Blocks the breadth-first scheduler never calls *)

Lemma isolated_not_reachable (es : list edge) (b : node_t) :
  isolated es b -> ~ reachable es b.
Proof.
  intros Hiso (s & [(e & He & Hsrc) _] & Hsb).
  apply rtc_inv_r in Hsb as [->|(y & _ & Hyb)].
  - destruct (Hiso e He) as [H _]. contradiction.
  - destruct (Hiso (mk_edge y b) Hyb) as [_ H]. simpl in H. contradiction.
Qed.

Section never_called.
Context {W : Type} (ops ops' : node_model W) (b : node_t).
Hypothesis Hagree : agree_except ops b ops'.

(** A pass over blocks other than [b] does not depend on what [b] would
    do. *)
Lemma work_once_loop_agree (nodes : list node_t) (sh : bool) (p : Z) (w : W) :
  b ∉ nodes ->
  breadth_first.work_once_loop ops nodes sh p w
  = breadth_first.work_once_loop ops' nodes sh p w.
Proof.
  revert sh p w. induction nodes as [|n nodes IH]; intros sh p w Hb; [reflexivity|].
  apply not_elem_of_cons in Hb as [Hne Hb]. simpl.
  destruct (Hagree n) as (Hwork & Hblocking & Havail); [congruence|].
  rewrite <- Hwork, <- Hblocking.
  destruct (work ops n SIZE_MAX w) as [r w1].
  case_decide; [reflexivity|].
  rewrite <- Havail. apply IH, Hb.
Qed.

Lemma work_once_agree (nodes : list node_t) (w : W) :
  b ∉ nodes ->
  breadth_first.work_once ops nodes w = breadth_first.work_once ops' nodes w.
Proof. apply work_once_loop_agree. Qed.

Lemma run_passes_agree (fuel : nat) (nodes : list node_t) (w : W) :
  b ∉ nodes ->
  breadth_first.run_passes ops fuel nodes w = breadth_first.run_passes ops' fuel nodes w.
Proof.
  intros Hb. revert w. induction fuel as [|fuel IH]; intros w; simpl; [reflexivity|].
  rewrite (work_once_agree nodes w Hb).
  destruct (breadth_first.work_once ops' nodes w) as [r w'].
  repeat case_decide; try reflexivity. apply IH.
Qed.

Lemma start_agree (policy : execution_policy) (fuel : nat) (s : breadth_first.t) (w : W) :
  (forall s1, breadth_first.prepare policy s = Some s1 ->
              b ∉ breadth_first._nodelist s1) ->
  breadth_first.start ops policy fuel s w = breadth_first.start ops' policy fuel s w.
Proof.
  intros Hb. unfold breadth_first.start.
  destruct (breadth_first.prepare policy s) as [s1|]; [|reflexivity].
  case_decide; [reflexivity|]. destruct policy; [|reflexivity].
  simpl. rewrite (run_passes_agree fuel _ w (Hb s1 eq_refl)). reflexivity.
Qed.

End never_called.

Lemma prepare_nodelist (policy : execution_policy) (s s1 : breadth_first.t) :
  breadth_first.prepare policy s = Some s1 ->
  breadth_first._nodelist s1 = breadth_first._nodelist s
  \/ s1 = breadth_first.init policy s.
Proof.
  unfold breadth_first.prepare.
  destruct (_state (breadth_first.base s)); simpl; intros Hs1;
    try (injection Hs1 as <-; auto; fail).
  destruct (scheduler_base_ops.reset (breadth_first.base s)); simplify_eq/=. auto.
Qed.

(** C10.  On a fresh breadth-first scheduler, a block that no resolved
    edge touches is in neither the node list nor any job list built by
    [init]; every block that is there is reachable from a source block of
    the edge list; and what [start] does, and what a pool worker's pass
    over a job list does, is the same whatever the behaviour of that
    block: its [work] is never called. *)
Theorem breadth_first_isolated_block_never_scheduled (policy : execution_policy)
    (s : breadth_first.t) (b : node_t) :
  breadth_first._nodelist s = [] ->
  breadth_first._job_lists s = [] ->
  let s' := breadth_first.init policy s in
  let es := resolved_edges (breadth_first.base s') in
  isolated es b ->
  (b ∉ breadth_first._nodelist s')
  /\ (forall job, job ∈ breadth_first._job_lists s' -> b ∉ job)
  /\ (forall n, n ∈ breadth_first._nodelist s' -> reachable es n)
  /\ (forall job n, job ∈ breadth_first._job_lists s' -> n ∈ job -> reachable es n)
  /\ (forall (W : Type) (ops ops' : node_model W),
        agree_except ops b ops' ->
        (forall fuel w,
           breadth_first.start ops policy fuel s w
           = breadth_first.start ops' policy fuel s w)
        /\ (forall job w, job ∈ breadth_first._job_lists s' ->
              breadth_first.work_once ops job w = breadth_first.work_once ops' job w)).
Proof.
  intros Hnl Hjl s' es Hiso.
  assert (Hreach : forall n, n ∈ breadth_first._nodelist s' <-> reachable es n).
  { subst s' es. rewrite (init_nodelist_of_fresh policy s Hnl), init_base.
    apply build_nodelist_spec. }
  pose proof (isolated_not_reachable es b Hiso) as Hnot.
  assert (Hb : b ∉ breadth_first._nodelist s') by (rewrite Hreach; exact Hnot).
  assert (Hjobs : forall job n, job ∈ breadth_first._job_lists s' -> n ∈ job ->
                    n ∈ breadth_first._nodelist s').
  { intros job n Hjob Hn.
    destruct (breadth_first_init_fields policy s) as (_ & _ & Hsub).
    destruct (Hsub job Hjob) as [Hold|Hin].
    - rewrite Hjl in Hold. apply elem_of_nil in Hold. destruct Hold.
    - apply Hin, Hn. }
  split; [exact Hb|]. split.
  { intros job Hjob Hin. apply Hb. eapply Hjobs; eauto. }
  split. { intros n Hn. apply Hreach, Hn. }
  split. { intros job n Hjob Hn. apply Hreach. eapply Hjobs; eauto. }
  intros W ops ops' Hagree. split.
  - intros fuel w. apply (start_agree ops ops' b Hagree).
    intros s1 Hs1. destruct (prepare_nodelist policy s s1 Hs1) as [-> | ->].
    + rewrite Hnl. apply not_elem_of_nil.
    + exact Hb.
  - intros job w Hjob. apply (work_once_agree ops ops' b Hagree).
    intros Hin. apply Hb. eapply Hjobs; eauto.
Qed.

(** The theorem at the pipe 1 -> 2 with the loner 7: node list and job
    lists hold 1 and 2 only. *)
Lemma breadth_first_isolated_block_never_scheduled_witness :
  (7%N ∉ breadth_first._nodelist
           (breadth_first.init multi_threaded
              (breadth_first.new scenario.pipe_and_loner scenario.pool4)))
  /\ breadth_first._job_lists
       (breadth_first.init multi_threaded
          (breadth_first.new scenario.pipe_and_loner scenario.pool4))
     = [[1%N]; [2%N]].
Proof.
  split; [|reflexivity].
  assert (Hiso : isolated [mk_edge 1%N 2%N] 7%N).
  { intros e He. apply list_elem_of_singleton in He as ->. split; discriminate. }
  destruct (breadth_first_isolated_block_never_scheduled multi_threaded
              (breadth_first.new scenario.pipe_and_loner scenario.pool4) 7%N
              eq_refl eq_refl Hiso) as [H _].
  exact H.
Defined.

(** The simple scheduler, by contrast, runs every block of the graph. *)
Example simple_runs_the_loner :
  simple._job_lists
    (simple.init multi_threaded
       (simple.mk (new_scheduler_base scenario.pipe_and_loner scenario.pool4) []))
  = [[1%N]; [2%N]; [7%N]].
Proof. reflexivity. Qed.

(** ** The progress word *)

Section progress_word.
Local Open Scope Z_scope.
Import pool.

Lemma done_of_mod (w : Z) : done_of w = w mod 2 ^ 32.
Proof.
  unfold done_of, wrap32, low32. change (Z.shiftl 1 32 - 1) with (Z.ones 32).
  rewrite Z.land_ones by lia. apply Z.mod_mod. lia.
Qed.

Lemma progress_count_of_div (w : Z) : progress_count_of w = (w / 2 ^ 32) mod 2 ^ 32.
Proof.
  unfold progress_count_of, wrap32, low32. change (Z.shiftl 1 32 - 1) with (Z.ones 32).
  rewrite Z.land_ones, Z.shiftr_div_pow2 by lia. apply Z.mod_mod. lia.
Qed.



(** The two fields of a packed word. *)
Lemma packed_fields (pc d : Z) :
  0 <= pc < 2 ^ 32 -> 0 <= d < 2 ^ 32 ->
  progress_count_of (pc * 2 ^ 32 + d) = pc /\ done_of (pc * 2 ^ 32 + d) = d.
Proof.
  intros Hpc Hd. rewrite progress_count_of_div, done_of_mod. split.
  - rewrite Z.add_comm, Z.div_add by lia. rewrite (Z.div_small d) by lia.
    simpl. apply Z.mod_small. lia.
  - rewrite Z.add_comm, Z.mod_add by lia. apply Z.mod_small. lia.
Qed.

Lemma done_of_wrap64 (z : Z) : done_of (wrap64 z) = z mod 2 ^ 32.
Proof.
  rewrite done_of_mod. unfold wrap64.
  apply Z.mod_mod_divide. exists (2 ^ 32). reflexivity.
Qed.


(** [((progress_count + 0ULL) << 32) + done + k] for [k] zero or one. *)
Lemma idle_word (pc d k : Z) :
  0 <= pc < 2 ^ 32 -> 0 <= d < 2 ^ 32 -> 0 <= k <= 1 ->
  done_of (wrap64 (wrap64 (Z.shiftl (pc + 0) 32) + d + k)) = wrap32 (d + k)
  /\ (d + k < 2 ^ 32 ->
      wrap64 (wrap64 (Z.shiftl (pc + 0) 32) + d + k) = pc * 2 ^ 32 + (d + k)
      /\ done_of (wrap64 (wrap64 (Z.shiftl (pc + 0) 32) + d + k)) = d + k
      /\ progress_count_of (wrap64 (wrap64 (Z.shiftl (pc + 0) 32) + d + k)) = pc).
Proof.
  intros Hpc Hd Hk. rewrite Z.add_0_r, Z.shiftl_mul_pow2 by lia.
  rewrite (wrap64_small (pc * 2 ^ 32)) by lia. split.
  - rewrite done_of_wrap64. unfold wrap32.
    replace (pc * 2 ^ 32 + d + k) with (d + k + pc * 2 ^ 32) by lia.
    apply Z.mod_add. lia.
  - intros Hsmall. rewrite wrap64_small by lia.
    replace (pc * 2 ^ 32 + d + k) with (pc * 2 ^ 32 + (d + k)) by lia.
    split; [reflexivity|].
    destruct (packed_fields pc (d + k)) as [H1 H2]; [lia|lia|]. auto.
Qed.












End progress_word.


(** Two idle workers, seen from the first: it counts itself done, sleeps,
    is woken by the peer's count, finds both done and leaves. *)
Example pool_worker_two_idle :
  pool.pool_worker 2
    [pool.mk_iteration_env false work_return_status_t.DONE [] (Some 2%Z);
     pool.mk_iteration_env false work_return_status_t.DONE [] None]
    0 2
  = (pool.Exited (pool.mk_locals 2 0) 3, 1%Z).
Proof. vm_compute. reflexivity. Qed.

(** A single job set: after its first idle pass the only worker has
    written a done count of 1 but holds the 0 it loaded, so it goes to
    sleep on the word, and no peer is there to change it. *)
Example pool_worker_single_batch :
  pool.pool_worker 1
    [pool.mk_iteration_env false work_return_status_t.DONE [] None] 0 1
  = (pool.Blocked (pool.mk_locals 0 0) 1, 1%Z).
Proof. vm_compute. reflexivity. Qed.

(** Productive work on the word (5, 2) gives (6, 0), also when a peer
    slips a store in front of the first exchange. *)
Example iteration_productive :
  pool.word_after
    (pool.last_attempt
       (pool.iteration 4 (pool.mk_locals 0 0)
          (pool.mk_iteration_env false work_return_status_t.OK
             [pool.mk_attempt_env None (Some (5 * 2 ^ 32 + 2)%Z)] None)
          (5 * 2 ^ 32 + 1)%Z))
  = (6 * 2 ^ 32)%Z.
Proof. vm_compute. reflexivity. Qed.

(** The carry: an idle turn on a done count of 2^32 - 1 spills into the
    progress count. *)
Example iteration_idle_carry :
  pool.word_after
    (pool.last_attempt
       (pool.iteration 4 (pool.mk_locals 0 5)
          (pool.mk_iteration_env false work_return_status_t.DONE [] None)
          (5 * 2 ^ 32 + (2 ^ 32 - 1))%Z))
  = (6 * 2 ^ 32)%Z.
Proof. vm_compute. reflexivity. Qed.

(** ** [BasicSettings::set] *)

(** In a map every key has one value. *)
Lemma unique_key_value {A B : Type} (l : list (A * B)) (x : A) (y1 y2 : B) :
  NoDup l.*1 -> (x, y1) ∈ l -> (x, y2) ∈ l -> y1 = y2.
Proof.
  induction l as [|[a b] l IH]; intros Hnd H1 H2.
  - apply elem_of_nil in H1. destruct H1.
  - simpl in Hnd. apply NoDup_cons in Hnd as [Hnotin Hnd].
    apply elem_of_cons in H1 as [H1|H1]; apply elem_of_cons in H2 as [H2|H2].
    + congruence.
    + injection H1 as -> ->. exfalso. apply Hnotin.
      apply list_elem_of_fmap. exists (a, y2). auto.
    + injection H2 as -> ->. exfalso. apply Hnotin.
      apply list_elem_of_fmap. exists (a, y1). auto.
    + apply IH; assumption.
Qed.

Section settings_facts.
Import settings.
Context {pmt : Type} (index : pmt -> nat).
Context (updateMaps : gmap string pmt -> gmap string pmt -> gmap string pmt).

Lemma iterate_over_member_other (key : string) (value : pmt) (m : member)
    (is_set : bool) (st : BasicSettings (pmt := pmt)) (k : string) :
  k <> key ->
  _staged (state_of (iterate_over_member index key value m is_set st)) !! k
  = _staged st !! k.
Proof.
  intros Hk. unfold iterate_over_member.
  destruct (settable m); [|reflexivity].
  destruct (bool_decide (display_name m = key)); simpl; [|reflexivity].
  destruct (holds_alternative index m value); simpl; [|reflexivity].
  apply lookup_insert_ne. congruence.
Qed.

Lemma processMembers_other (members : list member) (key : string) (value : pmt)
    (is_set : bool) (st : BasicSettings (pmt := pmt)) (k : string) :
  k <> key ->
  _staged (state_of (processMembers index members key value is_set st)) !! k
  = _staged st !! k.
Proof.
  intros Hk. revert is_set st.
  induction members as [|m members IH]; intros is_set st; simpl; [reflexivity|].
  pose proof (iterate_over_member_other key value m is_set st k Hk) as Hm.
  destruct (iterate_over_member index key value m is_set st) as [b st'|e st'];
    simpl in *.
  - rewrite IH. exact Hm.
  - exact Hm.
Qed.

(** What one member does with a key it matches by name only. *)
Lemma iterate_over_member_cases (key : string) (value : pmt) (m : member)
    (is_set : bool) (st : BasicSettings (pmt := pmt)) :
  (settable m = true /\ display_name m = key /\ type_index m <> index value
   /\ iterate_over_member index key value m is_set st
      = Thrown (mk_invalid_argument key (index value) (type_index m)) st)
  \/ (settable m = true /\ display_name m = key /\ type_index m = index value
      /\ exists st', iterate_over_member index key value m is_set st = Normal true st')
  \/ ((settable m = false \/ display_name m <> key)
      /\ iterate_over_member index key value m is_set st = Normal is_set st).
Proof.
  unfold iterate_over_member, holds_alternative.
  destruct (settable m); [|right; right; auto].
  destruct (decide (display_name m = key)) as [Hname|Hname].
  - rewrite (bool_decide_eq_true_2 _ Hname). simpl.
    destruct (decide (index value = type_index m)) as [Hty|Hty].
    + rewrite (bool_decide_eq_true_2 _ Hty). simpl. right. left. eauto 6.
    + rewrite (bool_decide_eq_false_2 _ Hty). simpl. left. auto.
  - rewrite (bool_decide_eq_false_2 _ Hname). simpl. right. right. auto.
Qed.

(** [set] throws for a type mismatch only. *)
Lemma processMembers_thrown (members : list member) (key : string) (value : pmt)
    (is_set : bool) (st st' : BasicSettings (pmt := pmt)) (e : invalid_argument) :
  processMembers index members key value is_set st = Thrown e st' ->
  ia_key e = key /\ actual_index e <> required_index e.
Proof.
  revert is_set st. induction members as [|m members IH]; intros is_set st; simpl;
    [discriminate|].
  destruct (iterate_over_member_cases key value m is_set st)
    as [(_ & _ & Hty & ->)|[(_ & _ & _ & st1 & ->)|(_ & ->)]].
  - intros [= <- <-]. simpl. auto.
  - apply IH.
  - apply IH.
Qed.

Lemma processMembers_throws (members : list member) (key : string) (value : pmt)
    (is_set : bool) (st : BasicSettings (pmt := pmt)) :
  some_mismatch index members key value ->
  exists e st', processMembers index members key value is_set st = Thrown e st'
                /\ ia_key e = key /\ actual_index e <> required_index e.
Proof.
  revert is_set st. induction members as [|m members IH]; intros is_set st (m0 & Hin & Hm0).
  - apply elem_of_nil in Hin. destruct Hin.
  - simpl.
    destruct (iterate_over_member_cases key value m is_set st)
      as [(_ & _ & Hty & ->)|[(Hs & Hn & Hty & st' & ->)|(Hno & ->)]].
    + eexists _, _. split; [reflexivity|]. simpl. auto.
    + apply IH. exists m0. split; [|exact Hm0].
      apply elem_of_cons in Hin as [->|Hin]; [|exact Hin].
      destruct Hm0 as (_ & _ & Hne). contradiction.
    + apply IH. exists m0. split; [|exact Hm0].
      apply elem_of_cons in Hin as [->|Hin]; [|exact Hin].
      destruct Hm0 as (Hs & Hn & _). destruct Hno; congruence.
Qed.

Lemma processMembers_mismatch_state (members : list member) (key : string)
    (value : pmt) (is_set : bool) (st : BasicSettings (pmt := pmt)) :
  all_mismatch index members key value ->
  state_of (processMembers index members key value is_set st) = st.
Proof.
  revert is_set st. induction members as [|m members IH]; intros is_set st Hall;
    simpl; [reflexivity|].
  destruct (iterate_over_member_cases key value m is_set st)
    as [(_ & _ & _ & ->)|[(Hs & Hn & Hty & _)|(_ & ->)]].
  - reflexivity.
  - exfalso. apply (Hall m); [left|exact Hs|exact Hn|exact Hty].
  - apply IH. intros m' Hm'. apply Hall. right. exact Hm'.
Qed.

Lemma set_loop_throws (members : list member) (parameters : list (string * pmt))
    (ret : gmap string pmt) (st : BasicSettings (pmt := pmt)) (key : string)
    (value : pmt) :
  (key, value) ∈ parameters ->
  some_mismatch index members key value ->
  exists e st', set_loop index members parameters ret st = Thrown e st'
                /\ actual_index e <> required_index e.
Proof.
  intros Hin Hsome. revert ret st.
  induction parameters as [|[k v] parameters IH]; intros ret st.
  - apply elem_of_nil in Hin. destruct Hin.
  - simpl. apply elem_of_cons in Hin as [Heq|Hin].
    + injection Heq as <- <-.
      destruct (processMembers_throws members key value false st Hsome)
        as (e & st' & -> & _ & Hne).
      eauto.
    + destruct (processMembers index members k v false st) as [b st'|e st'] eqn:Hpm.
      * apply IH, Hin.
      * exists e, st'. split; [reflexivity|].
        eapply processMembers_thrown; eauto.
Qed.

Lemma set_loop_staged (members : list member) (parameters : list (string * pmt))
    (ret : gmap string pmt) (st : BasicSettings (pmt := pmt)) (key : string) :
  (forall v, (key, v) ∈ parameters -> all_mismatch index members key v) ->
  _staged (state_of (set_loop index members parameters ret st)) !! key
  = _staged st !! key.
Proof.
  revert ret st. induction parameters as [|[k v] parameters IH]; intros ret st Hall;
    simpl; [reflexivity|].
  assert (Hrest : forall v', (key, v') ∈ parameters ->
                             all_mismatch index members key v').
  { intros v' Hv'. apply Hall. right. exact Hv'. }
  destruct (decide (k = key)) as [->|Hne].
  - pose proof (processMembers_mismatch_state members key v false st
                  (Hall v ltac:(left))) as Hst.
    destruct (processMembers index members key v false st) as [b st'|e st'];
      simpl in Hst; subst st'.
    + apply IH, Hrest.
    + reflexivity.
  - pose proof (processMembers_other members k v false st key
                  ltac:(congruence)) as Hst.
    destruct (processMembers index members k v false st) as [b st'|e st'];
      simpl in Hst.
    + rewrite IH by exact Hrest. exact Hst.
    + exact Hst.
Qed.

(** C9.  When [parameters] holds a key that names a settable field of
    the block (a writable, non-const member of a supported type that is
    no port) with a value of another alternative than the field's type,
    [set] does not return: it leaves by [std::invalid_argument], thrown
    for a type mismatch, so no map of parameters that could not be set
    comes back; and the staged map holds for that key what it held
    before the call. *)
Theorem set_wrong_alternative_throws (members : list member)
    (parameters : list (string * pmt)) (st : BasicSettings (pmt := pmt))
    (key : string) (value : pmt) :
  NoDup parameters.*1 ->
  (key, value) ∈ parameters ->
  some_mismatch index members key value ->
  all_mismatch index members key value ->
  exists e st',
    set index updateMaps members parameters st = Thrown e st'
    /\ actual_index e <> required_index e
    /\ _staged st' !! key = _staged st !! key.
Proof.
  intros Hnodup Hin Hsome Hall.
  destruct (set_loop_throws members parameters ∅ st key value Hin Hsome)
    as (e & st' & Hloop & Hne).
  exists e, st'. unfold set. rewrite Hloop. split; [reflexivity|]. split; [exact Hne|].
  change st' with (state_of (Thrown (A := gmap string pmt) e st')).
  rewrite <- Hloop. apply set_loop_staged.
  intros v Hv. rewrite (unique_key_value parameters key v value Hnodup Hv Hin).
  exact Hall.
Qed.
End settings_facts.

(** The theorem at a block with an integer field [gain]: staging a string
    under that key throws and stages nothing for it. *)
Lemma set_wrong_alternative_throws_witness :
  exists e st',
    settings.set scenario.toy_index scenario.overwrite [scenario.gain; scenario.label]
      [("gain", scenario.pmt_string "loud"); ("label", scenario.pmt_string "rx")]
      scenario.untouched
    = settings.Thrown e st'
    /\ settings.actual_index e <> settings.required_index e
    /\ settings._staged st' !! "gain" = settings._staged scenario.untouched !! "gain".
Proof.
  apply (set_wrong_alternative_throws scenario.toy_index scenario.overwrite
           [scenario.gain; scenario.label]
           [("gain", scenario.pmt_string "loud"); ("label", scenario.pmt_string "rx")]
           scenario.untouched "gain" (scenario.pmt_string "loud")).
  - simpl. apply NoDup_cons. split; [|apply NoDup_singleton].
    rewrite list_elem_of_singleton. discriminate.
  - left.
  - exists scenario.gain. split; [left|]. split; [reflexivity|]. split; [reflexivity|].
    discriminate.
  - intros m Hm Hs Hn. apply elem_of_cons in Hm as [->|Hm]; [discriminate|].
    apply list_elem_of_singleton in Hm as ->. discriminate Hn.
Defined.

(** A key that names no field comes back in the returned map, and a value
    of the right alternative is staged. *)
Example set_returns_unknown_keys :
  settings.set scenario.toy_index scenario.overwrite [scenario.gain; scenario.label]
    [("gain", scenario.pmt_int 3); ("squelch", scenario.pmt_int 1)] scenario.untouched
  = settings.Normal {["squelch" := scenario.pmt_int 1]}
      (settings.mk_settings {["gain" := scenario.pmt_int 3]} {["label"]} true None).
Proof.
  unfold settings.set. simpl.
  rewrite decide_True by set_solver.
  reflexivity.
Qed.

(** ** Sequences and readers *)

Section buffer_facts.
Import circular_buffer.
Local Open Scope Z_scope.
Context {T : Type}.

Lemma value_insert_eq (store : gmap nat Z) (s : nat) (v : Z) :
  value (<[s := v]> store) s = v.
Proof. unfold value. rewrite lookup_insert_eq. reflexivity. Qed.

Lemma value_insert_ne (store : gmap nat Z) (s s' : nat) (v : Z) :
  s <> s' -> value (<[s := v]> store) s' = value store s'.
Proof. intros H. unfold value. rewrite lookup_insert_ne by exact H. reflexivity. Qed.

(** [addSequences] sets every added sequence to the cursor's value. *)
Lemma addSequences_sets_cursor (sequences to_add : list nat) (cursor : nat)
    (store : gmap nat Z) (s : nat) :
  s ∈ to_add ->
  value (addSequences sequences cursor to_add store).2 s = value store cursor
  /\ (addSequences sequences cursor to_add store).1 = sequences ++ to_add.
Proof.
  intros Hs. split; [|reflexivity]. unfold addSequences. simpl.
  revert store Hs. induction to_add as [|x to_add IH]; intros store Hs.
  - apply elem_of_nil in Hs. destruct Hs.
  - simpl.
    assert (Hcur : value (<[x := value store cursor]> store) cursor = value store cursor).
    { destruct (decide (x = cursor)) as [->|Hne];
        [apply value_insert_eq|apply value_insert_ne; exact Hne]. }
    destruct (decide (s ∈ to_add)) as [Hin|Hnotin].
    + rewrite IH by exact Hin. exact Hcur.
    + apply elem_of_cons in Hs as [->|Hs]; [|contradiction].
      assert (Hkeep : forall st, value st x = value store cursor ->
                value st cursor = value store cursor ->
                value (fold_left (fun st s => <[s := value st cursor]> st) to_add st) x
                = value store cursor).
      { clear. induction to_add as [|y to_add IH]; intros st Hx Hc; simpl; [exact Hx|].
        apply IH.
        - destruct (decide (y = x)) as [->|Hne];
            [rewrite value_insert_eq|rewrite value_insert_ne by exact Hne]; congruence.
        - destruct (decide (y = cursor)) as [->|Hne];
            [rewrite value_insert_eq|rewrite value_insert_ne by exact Hne]; congruence. }
      apply Hkeep; [apply value_insert_eq|exact Hcur].
Qed.

(** C7.  A reader created by [new_reader] starts at the writer cursor,
    however much was published before: its sequence holds the cursor's
    value when it enters the registry, and its [available()] is 0.  The
    readers already registered keep their positions. *)
Theorem new_reader_starts_at_cursor (b : t T) :
  reader_available (new_reader b).2 (new_reader b).1 = 0
  /\ value (sequences (new_reader b).2) (new_reader b).1 = cursor_value b
  /\ cursor_value (new_reader b).2 = cursor_value b
  /\ read_indices (new_reader b).2 = read_indices b ++ [(new_reader b).1]
  /\ (forall r, r ∈ read_indices b -> is_Some (sequences b !! r) ->
        reader_available (new_reader b).2 r = reader_available b r).
Proof.
  unfold new_reader, addSequences. simpl.
  set (r := fresh (dom (sequences b))).
  assert (Hfresh : sequences b !! r = None).
  { apply not_elem_of_dom. apply is_fresh. }
  assert (Hcur : value (<[r := kInitialCursorValue]> (sequences b)) (cursor b)
                 = cursor_value b).
  { unfold cursor_value. destruct (decide (r = cursor b)) as [Heq|Hne].
    - rewrite Heq, value_insert_eq. unfold value. rewrite <- Heq, Hfresh. reflexivity.
    - apply value_insert_ne. exact Hne. }
  assert (Hw : cursor_value
                 (mk (capacity b) (slots b) (cursor b) (read_indices b ++ [r])
                    (<[r := value (<[r := kInitialCursorValue]> (sequences b)) (cursor b)]>
                       (<[r := kInitialCursorValue]> (sequences b))))
               = cursor_value b).
  { unfold cursor_value at 1. simpl. rewrite Hcur.
    destruct (decide (r = cursor b)) as [Heq|Hne].
    - rewrite <- Heq. apply value_insert_eq.
    - rewrite value_insert_ne by exact Hne. exact Hcur. }
  split; [|split; [|split; [|split]]].
  - unfold reader_available. rewrite Hw. simpl. rewrite value_insert_eq, Hcur. lia.
  - rewrite value_insert_eq. exact Hcur.
  - exact Hw.
  - reflexivity.
  - intros r' Hr' [v Hv]. unfold reader_available. rewrite Hw. simpl. f_equal.
    assert (Hne : r <> r') by congruence.
    rewrite !value_insert_ne by exact Hne. reflexivity.
Qed.

End buffer_facts.

(** qa_buffer.cpp, SequenceTests: a cursor at 10, a registry holding a
    sequence at 4, and a new sequence created at 1.  After [addSequences]
    the new sequence reads 10 and the minimum is still 4. *)
Example sequence_test_add :
  let store : gmap nat Z := {[0%nat := 4%Z; 1%nat := 10%Z; 2%nat := 1%Z]} in
  let res := circular_buffer.addSequences [0%nat] 1%nat [2%nat] store in
  length res.1 = 2%nat
  /\ circular_buffer.value res.2 2%nat = 10%Z
  /\ circular_buffer.getMinimumSequence res.2 res.1 (2 ^ 63 - 1) = 4%Z
  /\ length (circular_buffer.removeSequence res.1 1%nat) = 2%nat
  /\ length (circular_buffer.removeSequence res.1 2%nat) = 1%nat.
Proof. vm_compute. repeat split; reflexivity. Qed.

(** ** Publishing *)

Section publish_facts.
Import circular_buffer.
Local Open Scope Z_scope.
Context {T : Type}.

(** C6.  For a well-formed buffer and a callback that throws on the
    window reserved for it: [publish] and [try_publish] leave by the
    exception with the buffer as it was (writer cursor, every reader's
    [available()], slots); and when the writer has room for one sample,
    a following [publish] of one sample with a callback that returns
    advances the writer cursor by one, so that every registered reader
    sees exactly one more sample. *)
Theorem publish_exception_leaves_buffer (b : t T) (fn good_fn : writer_callback)
    (n : nat) (x : thrown) (data : list T) :
  well_formed b ->
  Z.of_nat n <= writer_available b ->
  fn (window b n) = Throws x ->
  good_fn (window b 1) = Filled data ->
  publish fn n b = Raised (rethrown x) b
  /\ try_publish fn n b = TryRaised (rethrown x) b
  /\ (1 <= writer_available b ->
      exists b',
        publish good_fn 1 b = Published b'
        /\ cursor_value b' = cursor_value b + 1
        /\ read_indices b' = read_indices b
        /\ (forall r, r ∈ read_indices b ->
              reader_available b' r = reader_available b r + 1)).
Proof.
  intros (Hcur & Hnotin & Hreaders) Hroom Hfn Hgood.
  assert (Hpub : publish fn n b = Raised (rethrown x) b).
  { unfold publish. unfold writer_available in Hroom.
    rewrite decide_False by lia. rewrite Hfn. reflexivity. }
  split; [exact Hpub|]. split.
  { unfold try_publish. rewrite Hpub. reflexivity. }
  intros Hone. unfold publish. unfold writer_available in Hone.
  rewrite decide_False by lia. rewrite Hgood.
  eexists. split; [reflexivity|].
  split; [|split].
  - unfold cursor_value at 1. simpl. rewrite value_insert_eq. reflexivity.
  - reflexivity.
  - intros r Hr. unfold reader_available, cursor_value at 1. simpl.
    rewrite value_insert_eq.
    rewrite value_insert_ne by (intros Heq; apply Hnotin; rewrite Heq; exact Hr). lia.
Qed.

End publish_facts.

(** The theorem at a buffer of 1024 slots with one reader. *)
Lemma publish_exception_leaves_buffer_witness :
  circular_buffer.publish scenario.throw_exception 1 scenario.one_reader
  = circular_buffer.Raised exn.exception scenario.one_reader
  /\ circular_buffer.try_publish scenario.throw_exception 1 scenario.one_reader
     = circular_buffer.TryRaised exn.exception scenario.one_reader
  /\ ((1 <= circular_buffer.writer_available scenario.one_reader)%Z ->
      exists b',
        circular_buffer.publish (fun _ => circular_buffer.Filled [7%Z]) 1 scenario.one_reader
        = circular_buffer.Published b'
        /\ circular_buffer.cursor_value b'
           = (circular_buffer.cursor_value scenario.one_reader + 1)%Z
        /\ circular_buffer.read_indices b'
           = circular_buffer.read_indices scenario.one_reader
        /\ (forall r, r ∈ circular_buffer.read_indices scenario.one_reader ->
              circular_buffer.reader_available b' r
              = (circular_buffer.reader_available scenario.one_reader r + 1)%Z)).
Proof.
  apply (publish_exception_leaves_buffer scenario.one_reader
           scenario.throw_exception (fun _ => circular_buffer.Filled [7%Z]) 1
           (circular_buffer.std exn.exception) [7%Z]).
  - split; [|split].
    + vm_compute. eauto.
    + vm_compute. intros H. apply list_elem_of_singleton in H. discriminate H.
    + intros r Hr. change (r ∈ [1%nat]) in Hr.
      apply list_elem_of_singleton in Hr as ->. split.
      * vm_compute. eauto.
      * vm_compute. discriminate.
  - vm_compute. discriminate.
  - reflexivity.
  - reflexivity.
Defined.

(** qa_buffer.cpp, CircularBufferExceptions: the four [expect(throws<...>)]
    lines and the closing [reader.available() == 0]. *)
Example circular_buffer_exceptions_test :
  let outcome (r : circular_buffer.publish_result (T := Z)) : exn.class + unit :=
    match r with circular_buffer.Raised c _ => inl c | _ => inr tt end in
  let try_outcome (r : circular_buffer.try_publish_result (T := Z)) : exn.class + unit :=
    match r with circular_buffer.TryRaised c _ => inl c | _ => inr tt end in
  exn.throws exn.exception
    (outcome (circular_buffer.publish scenario.throw_exception 1 scenario.one_reader)) = true
  /\ exn.throws exn.exception
       (outcome (circular_buffer.publish scenario.throw_literal 1 scenario.one_reader)) = true
  /\ exn.throws exn.exception
       (try_outcome (circular_buffer.try_publish scenario.throw_exception 1
                       scenario.one_reader)) = true
  /\ exn.throws exn.runtime_error
       (try_outcome (circular_buffer.try_publish scenario.throw_literal 1
                       scenario.one_reader)) = true
  /\ circular_buffer.reader_available scenario.one_reader 1%nat = 0%Z.
Proof. vm_compute. repeat split; reflexivity. Qed.

(** qa_buffer.cpp, CircularBufferExceptions and UserApi, on a buffer of
    1024 slots: a throwing callback leaves the reader at 0 available; ten
    samples published to a first reader, who then leaves; the reader that
    joins afterwards sees none of them, and five after the next publish of
    five. *)
Example user_api_reader_joins_late :
  let b0 := circular_buffer.new 1024 0%Z in
  let '(local, b1) := circular_buffer.new_reader b0 in
  match circular_buffer.publish scenario.throw_exception 1 b1 with
  | circular_buffer.Raised _ b2 =>
      circular_buffer.reader_available b2 local = 0%Z
      /\ match circular_buffer.publish (fun _ => circular_buffer.Filled (replicate 10 7%Z)) 10 b2 with
         | circular_buffer.Published b3 =>
             circular_buffer.reader_available b3 local = 10%Z
             /\ circular_buffer.n_readers b3 = 1%nat
             /\ let b4 := circular_buffer.drop_reader local b3 in
                circular_buffer.n_readers b4 = 0%nat
                /\ let '(reader, b5) := circular_buffer.new_reader b4 in
                   circular_buffer.reader_available b5 reader = 0%Z
                   /\ match circular_buffer.publish (fun _ => circular_buffer.Filled (replicate 5 8%Z)) 5 b5 with
                      | circular_buffer.Published b6 =>
                          circular_buffer.reader_available b6 reader = 5%Z
                      | _ => False
                      end
         | _ => False
         end
  | _ => False
  end.
Proof. vm_compute. repeat split; reflexivity. Qed.

(** ** History buffer *)

(** The test [expect(throws<std::out_of_range>([] { HistoryBuffer<int>(0); }))]
    holds of a constructor raising class [c] only for [c = out_of_range]:
    a [std::invalid_argument] would not be caught as [std::out_of_range]. *)
Lemma history_buffer_test_pins_class (c : exn.class) :
  exn.throws exn.out_of_range (HistoryBuffer.create_raising (T := Z) c 0) = true
  <-> c = exn.out_of_range.
Proof. destruct c; simpl; split; intros H; try discriminate H; reflexivity. Qed.




(** qa_buffer.cpp, HistoryBuffer edge cases: capacity 1, two pushes. *)
Example history_buffer_capacity_one :
  match HistoryBuffer.create (T := Z) 1 with
  | inr hb =>
      let hb2 := HistoryBuffer.push_back 42%Z (HistoryBuffer.push_back 41%Z hb) in
      HistoryBuffer.capacity hb2 = 1%nat
      /\ HistoryBuffer.size hb2 = 1%nat
      /\ HistoryBuffer.at_ hb2 0 = inr 42%Z
      /\ HistoryBuffer.at_ hb2 2 = inl exn.out_of_range
  | inl _ => False
  end.
Proof. vm_compute. repeat split; reflexivity. Qed.

(* ===================================================================== *)
(** * Part III: further properties of the code *)
(* ===================================================================== *)

(** ** The state machine of [scheduler_base] *)

Lemma init_state (s : scheduler_base) :
  _state s = IDLE ->
  _state (scheduler_base_ops.init s) = INITIALISED
  \/ _state (scheduler_base_ops.init s) = ERROR.
Proof.
  intros Hs. rewrite (init_from_idle s Hs). cbv zeta.
  destruct (scheduler_base_ops.all_of _ _).1; simpl; auto.
Qed.

Lemma init_not_idle (s : scheduler_base) :
  _state s <> IDLE -> scheduler_base_ops.init s = s.
Proof. intros Hs. unfold scheduler_base_ops.init. rewrite decide_True by exact Hs. reflexivity. Qed.

Lemma scheduler_base_init_idempotent_aux (s : scheduler_base) :
  scheduler_base_ops.init (scheduler_base_ops.init s) = scheduler_base_ops.init s.
Proof.
  destruct (decide (_state s = IDLE)) as [Hs|Hs].
  - apply init_not_idle. destruct (init_state s Hs) as [-> | ->]; discriminate.
  - rewrite (init_not_idle s Hs). apply init_not_idle, Hs.
Qed.

(** X1.  [scheduler_base::init] is idempotent: the first call leaves the
    state INITIALISED or ERROR, so a second call returns at its guard, and
    no connection definition is executed a second time: the graph, the
    pending definitions and the state are those the first call left. *)
Theorem scheduler_base_init_idempotent (s : scheduler_base) :
  scheduler_base_ops.init (scheduler_base_ops.init s) = scheduler_base_ops.init s
  /\ (_state (scheduler_base_ops.init s) = INITIALISED
      \/ _state (scheduler_base_ops.init s) = ERROR
      \/ scheduler_base_ops.init s = s).
Proof.
  split; [apply scheduler_base_init_idempotent_aux|].
  destruct (decide (_state s = IDLE)) as [Hs|Hs].
  - destruct (init_state s Hs); auto.
  - right. right. apply init_not_idle, Hs.
Qed.

Lemma wait_done_result (s s' : scheduler_base) :
  scheduler_base_ops.wait_done s = Some s' ->
  (_running_threads s <= 0)%Z
  /\ s' = set_state (if decide (_state s = REQUESTED_PAUSE) then PAUSED else STOPPED) s.
Proof.
  unfold scheduler_base_ops.wait_done. case_decide; [discriminate|].
  case_decide; intros [= <-]; split; try lia; reflexivity.
Qed.

Lemma wait_done_waits (s : scheduler_base) :
  scheduler_base_ops.wait_done s = None <-> (_running_threads s > 0)%Z.
Proof.
  unfold scheduler_base_ops.wait_done. repeat case_decide; split; intros Hw;
    try discriminate; try lia; reflexivity.
Qed.

(** X2.  ERROR is a sink for [init], [stop], [pause] and [reset], which
    return with the scheduler untouched, and both schedulers' [start]
    throw from it without calling a block.  It is no sink for
    [request_stop], [request_pause] and [wait_done], which assign the state
    without looking at it. *)
Theorem error_state_absorbing (b : scheduler_base) :
  _state b = ERROR ->
  scheduler_base_ops.init b = b
  /\ scheduler_base_ops.stop b = Some b
  /\ scheduler_base_ops.pause b = Some b
  /\ scheduler_base_ops.reset b = Some b
  /\ (forall (W : Type) (ops : node_model W) policy fuel jobs (w : W),
        simple.start ops policy fuel (simple.mk b jobs) w = Threw (simple.mk b jobs) w)
  /\ (forall (W : Type) (ops : node_model W) policy fuel nl jobs (w : W),
        breadth_first.start ops policy fuel (breadth_first.mk b nl jobs) w
        = Threw (breadth_first.mk b nl jobs) w)
  /\ _state (scheduler_base_ops.request_stop b) = REQUESTED_STOP
  /\ _state (scheduler_base_ops.request_pause b) = REQUESTED_PAUSE
  /\ (forall b', scheduler_base_ops.wait_done b = Some b' -> _state b' = STOPPED).
Proof.
  intros Hb. split; [apply init_not_idle; rewrite Hb; discriminate|].
  split. { unfold scheduler_base_ops.stop. rewrite decide_True by auto. reflexivity. }
  split. { unfold scheduler_base_ops.pause. rewrite decide_True by auto. reflexivity. }
  split. { unfold scheduler_base_ops.reset. rewrite Hb. reflexivity. }
  split.
  { intros W ops policy fuel jobs w. unfold simple.start, simple.prepare. simpl.
    rewrite Hb. simpl. rewrite Hb. rewrite decide_True by discriminate. reflexivity. }
  split.
  { intros W ops policy fuel nl jobs w. unfold breadth_first.start, breadth_first.prepare.
    simpl. rewrite Hb. simpl. rewrite Hb. rewrite decide_True by discriminate.
    reflexivity. }
  split; [reflexivity|]. split; [reflexivity|].
  intros b' Hw. apply wait_done_result in Hw as [_ ->]. rewrite Hb.
  rewrite decide_False by discriminate. reflexivity.
Qed.

Lemma error_state_absorbing_witness :
  scheduler_base_ops.reset
    (scheduler_base_ops.init (new_scheduler_base scenario.half_connected scenario.pool4))
  = Some (scheduler_base_ops.init
            (new_scheduler_base scenario.half_connected scenario.pool4)).
Proof.
  destruct (error_state_absorbing
              (scheduler_base_ops.init
                 (new_scheduler_base scenario.half_connected scenario.pool4))
              eq_refl) as (_ & _ & _ & H & _).
  exact H.
Defined.

Lemma init_keeps_flags (s : scheduler_base) :
  _stop_requested (scheduler_base_ops.init s) = _stop_requested s
  /\ _running_threads (scheduler_base_ops.init s) = _running_threads s
  /\ _pool (scheduler_base_ops.init s) = _pool s.
Proof.
  unfold scheduler_base_ops.init. case_decide; [auto|].
  destruct (scheduler_base_ops.all_of _ _) as [[] g']; simpl; auto.
Qed.

Lemma stop_flag (s s' : scheduler_base) :
  scheduler_base_ops.stop s = Some s' ->
  _stop_requested s' = _stop_requested s || bool_decide (_state s = RUNNING).
Proof.
  unfold scheduler_base_ops.stop. case_decide as Hs.
  - intros [= <-]. destruct Hs as [Hs|Hs]; rewrite Hs; simpl; rewrite orb_false_r;
      reflexivity.
  - destruct (decide (_state s = RUNNING)) as [Hr|Hr].
    + rewrite (bool_decide_eq_true_2 _ Hr), orb_true_r.
      destruct (scheduler_base_ops.wait_done _) as [s2|] eqn:Hw; [|discriminate].
      simpl. intros [= <-]. apply wait_done_result in Hw as [_ ->]. reflexivity.
    + rewrite (bool_decide_eq_false_2 _ Hr), orb_false_r.
      destruct (scheduler_base_ops.wait_done _) as [s2|] eqn:Hw; [|discriminate].
      simpl. intros [= <-]. apply wait_done_result in Hw as [_ ->]. reflexivity.
Qed.

Lemma pause_flag (s s' : scheduler_base) :
  scheduler_base_ops.pause s = Some s' ->
  _stop_requested s' = _stop_requested s || bool_decide (_state s = RUNNING).
Proof.
  unfold scheduler_base_ops.pause. case_decide as Hs.
  - intros [= <-]. destruct Hs as [Hs|Hs]; rewrite Hs; simpl; rewrite orb_false_r;
      reflexivity.
  - destruct (decide (_state s = RUNNING)) as [Hr|Hr].
    + rewrite (bool_decide_eq_true_2 _ Hr), orb_true_r.
      destruct (scheduler_base_ops.wait_done _) as [s2|] eqn:Hw; [|discriminate].
      simpl. intros [= <-]. apply wait_done_result in Hw as [_ ->]. reflexivity.
    + rewrite (bool_decide_eq_false_2 _ Hr), orb_false_r.
      destruct (scheduler_base_ops.wait_done _) as [s2|] eqn:Hw; [|discriminate].
      simpl. intros [= <-]. apply wait_done_result in Hw as [_ ->]. reflexivity.
Qed.

Lemma reset_flag (s s' : scheduler_base) :
  scheduler_base_ops.reset s = Some s' ->
  _stop_requested s' = _stop_requested s || bool_decide (_state s = RUNNING).
Proof.
  unfold scheduler_base_ops.reset.
  destruct (_state s) eqn:Hs; simpl;
    try (intros [= <-]; simpl; rewrite ?orb_false_r; try reflexivity;
         apply init_keeps_flags).
  - destruct (scheduler_base_ops.pause s) as [s1|] eqn:Hp; [|discriminate].
    simpl. intros [= <-]. simpl. apply pause_flag in Hp. rewrite Hp, Hs. reflexivity.
  - destruct (scheduler_base_ops.pause s) as [s1|] eqn:Hp; [|discriminate].
    simpl. intros [= <-]. simpl. apply pause_flag in Hp. rewrite Hp, Hs. reflexivity.
  - destruct (scheduler_base_ops.pause s) as [s1|] eqn:Hp; [|discriminate].
    simpl. intros [= <-]. simpl. apply pause_flag in Hp. rewrite Hp, Hs. reflexivity.
Qed.

Lemma simple_init_base (policy : execution_policy) (s : simple.t) :
  simple.base (simple.init policy s) = scheduler_base_ops.init (simple.base s).
Proof. unfold simple.init. destruct policy; reflexivity. Qed.

Lemma simple_prepare_flag (policy : execution_policy) (s s1 : simple.t) :
  simple.prepare policy s = Some s1 ->
  _stop_requested (simple.base s1) = _stop_requested (simple.base s)
  /\ _running_threads (simple.base s1) = _running_threads (simple.base s).
Proof.
  unfold simple.prepare. destruct (_state (simple.base s)) eqn:Hs; simpl;
    try (intros [= <-]; auto; fail).
  - intros [= <-]. rewrite simple_init_base. split; apply init_keeps_flags.
  - unfold scheduler_base_ops.reset. rewrite Hs. simpl. intros [= <-]. auto.
Qed.

Lemma simple_start_flag {W : Type} (ops : node_model W) policy fuel (s s' : simple.t)
    (w w' : W) :
  simple.start ops policy fuel s w = Returned s' w' ->
  _stop_requested (simple.base s') = _stop_requested (simple.base s).
Proof.
  unfold simple.start.
  destruct (simple.prepare policy s) as [s1|] eqn:Hprep; [|discriminate].
  apply simple_prepare_flag in Hprep as [Hflag _].
  case_decide; [discriminate|]. destruct policy.
  - destruct (simple.run_passes _ _ _ _) as [[r w1]|]; [|discriminate].
    case_decide; intros [= <- <-]; exact Hflag.
  - intros [= <- <-]. exact Hflag.
Qed.

(** X3.  No operation of the scheduler clears [_stop_requested]: once
    [request_stop] or [request_pause] has set it, it is still set after
    [init], [wait_done], [stop], [pause], [reset], [run_on_pool] and
    [start].  A pool worker that reads the flag as set leaves its loop in
    front of its first [work()] call. *)
Theorem stop_requested_never_cleared (b : scheduler_base) :
  _stop_requested b = true ->
  _stop_requested (scheduler_base_ops.init b) = true
  /\ (forall b', scheduler_base_ops.wait_done b = Some b' -> _stop_requested b' = true)
  /\ (forall b', scheduler_base_ops.stop b = Some b' -> _stop_requested b' = true)
  /\ (forall b', scheduler_base_ops.pause b = Some b' -> _stop_requested b' = true)
  /\ (forall b', scheduler_base_ops.reset b = Some b' -> _stop_requested b' = true)
  /\ (forall jobs, _stop_requested (pool.run_on_pool jobs b).1 = true)
  /\ (forall (W : Type) (ops : node_model W) policy fuel jobs (w w' : W) s',
        simple.start ops policy fuel (simple.mk b jobs) w = Returned s' w' ->
        _stop_requested (simple.base s') = true)
  /\ (forall n_batches it rest word running,
        pool.stop_seen it = true ->
        pool.pool_worker n_batches (it :: rest) word running
        = (pool.Exited (pool.mk_locals 0 0) word, wrap64 (running - 1))).
Proof.
  intros Hb. split; [rewrite (proj1 (init_keeps_flags b)); exact Hb|].
  split. { intros b' Hw. apply wait_done_result in Hw as [_ ->]. exact Hb. }
  split. { intros b' Hs. rewrite (stop_flag b b' Hs), Hb. reflexivity. }
  split. { intros b' Hs. rewrite (pause_flag b b' Hs), Hb. reflexivity. }
  split. { intros b' Hs. rewrite (reset_flag b b' Hs), Hb. reflexivity. }
  split; [intros jobs; exact Hb|].
  split.
  { intros W ops policy fuel jobs w w' s' Hs.
    rewrite (simple_start_flag ops policy fuel _ s' w w' Hs). exact Hb. }
  intros n_batches it rest word running Hstop.
  unfold pool.pool_worker. cbn [pool.worker_loop]. rewrite Hstop.
  case_decide; reflexivity.
Qed.

(** The theorem after [request_stop] on a fresh scheduler: a later [init]
    leaves the flag set. *)
Lemma stop_requested_never_cleared_witness :
  _stop_requested
    (scheduler_base_ops.init
       (scheduler_base_ops.request_stop (new_scheduler_base scenario.pipe scenario.pool4)))
  = true.
Proof.
  destruct (stop_requested_never_cleared
              (scheduler_base_ops.request_stop
                 (new_scheduler_base scenario.pipe scenario.pool4)) eq_refl)
    as (H & _).
  exact H.
Defined.

(** ** [start] and [run_and_wait] *)

Lemma simple_prepare_cases (policy : execution_policy) (s : simple.t) :
  simple.prepare policy s
  = Some (match _state (simple.base s) with
          | IDLE => simple.init policy s
          | STOPPED | PAUSED =>
              simple.mk (set_state INITIALISED (simple.base s)) (simple._job_lists s)
          | _ => s
          end).
Proof.
  unfold simple.prepare. destruct (_state (simple.base s)) eqn:Hs; try reflexivity.
  unfold scheduler_base_ops.reset. rewrite Hs. reflexivity.
Qed.

(** X4.  When [simple::start] throws.  It throws, without calling a block,
    exactly from the states RUNNING, REQUESTED_STOP, REQUESTED_PAUSE,
    SHUTTING_DOWN and ERROR, which it leaves as they are, and from IDLE
    when a connection definition fails, which leaves the scheduler as the
    failed [init] left it. *)
Theorem simple_start_throws_iff {W : Type} (ops : node_model W) (policy : execution_policy)
    (fuel : nat) (s s1 : simple.t) (w w1 : W) :
  simple.start ops policy fuel s w = Threw s1 w1
  <-> w1 = w
      /\ ((s1 = s
           /\ (_state (simple.base s) = RUNNING \/ _state (simple.base s) = REQUESTED_STOP
               \/ _state (simple.base s) = REQUESTED_PAUSE
               \/ _state (simple.base s) = SHUTTING_DOWN
               \/ _state (simple.base s) = ERROR))
          \/ (s1 = simple.init policy s
              /\ _state (simple.base s) = IDLE
              /\ (scheduler_base_ops.all_of
                    (connection_definitions (_graph (simple.base s)))
                    (graph_contents (_graph (simple.base s)))).1 = false)).
Proof.
  unfold simple.start. rewrite simple_prepare_cases.
  destruct (_state (simple.base s)) eqn:Hs.
  - (* IDLE *)
    rewrite simple_init_base, (init_from_idle _ Hs). cbv zeta.
    destruct (scheduler_base_ops.all_of _ _).1 eqn:Hall; simpl.
    + split.
      * destruct policy; [destruct (simple.run_passes _ _ _ _) as [[? ?]|];
                          [case_decide|]|]; discriminate.
      * intros (_ & [(_ & H)|(_ & _ & H)]); [|discriminate H].
        destruct H as [H|[H|[H|[H|H]]]]; discriminate H.
    + split.
      * intros [= <- <-]. split; [reflexivity|]. right. auto.
      * intros (-> & [(_ & H)|(-> & _)]); [|reflexivity].
        destruct H as [H|[H|[H|[H|H]]]]; discriminate H.
  - (* INITIALISED *)
    rewrite Hs. simpl. split.
    + destruct policy; [destruct (simple.run_passes _ _ _ _) as [[? ?]|];
                        [case_decide|]|]; discriminate.
    + intros (_ & [(_ & H)|(_ & H & _)]); [|discriminate H].
      destruct H as [H|[H|[H|[H|H]]]]; discriminate H.
  - rewrite Hs. simpl. split.
    + intros [= <- <-]. auto 10.
    + intros (-> & [(-> & _)|(_ & H & _)]); [reflexivity|discriminate H].
  - rewrite Hs. simpl. split.
    + intros [= <- <-]. auto 10.
    + intros (-> & [(-> & _)|(_ & H & _)]); [reflexivity|discriminate H].
  - rewrite Hs. simpl. split.
    + intros [= <- <-]. auto 10.
    + intros (-> & [(-> & _)|(_ & H & _)]); [reflexivity|discriminate H].
  - (* STOPPED *)
    simpl. split.
    + destruct policy; [destruct (simple.run_passes _ _ _ _) as [[? ?]|];
                        [case_decide|]|]; discriminate.
    + intros (_ & [(_ & H)|(_ & H & _)]); [|discriminate H].
      destruct H as [H|[H|[H|[H|H]]]]; discriminate H.
  - (* PAUSED *)
    simpl. split.
    + destruct policy; [destruct (simple.run_passes _ _ _ _) as [[? ?]|];
                        [case_decide|]|]; discriminate.
    + intros (_ & [(_ & H)|(_ & H & _)]); [|discriminate H].
      destruct H as [H|[H|[H|[H|H]]]]; discriminate H.
  - rewrite Hs. simpl. split.
    + intros [= <- <-]. auto 10.
    + intros (-> & [(-> & _)|(_ & H & _)]); [reflexivity|discriminate H].
  - rewrite Hs. simpl. split.
    + intros [= <- <-]. auto 10.
    + intros (-> & [(-> & _)|(_ & H & _)]); [reflexivity|discriminate H].
Qed.

(** What a returning single-threaded [simple::start] has done. *)
Lemma simple_start_single_inv {W : Type} (ops : node_model W) (fuel : nat)
    (s s' : simple.t) (w w' : W) :
  simple.start ops single_threaded fuel s w = Returned s' w' ->
  exists s1 r,
    simple.prepare single_threaded s = Some s1
    /\ _state (simple.base s1) = INITIALISED
    /\ simple.run_passes ops fuel (blocks (graph_contents (_graph (simple.base s1)))) w
       = Some (r, w')
    /\ status r <> work_return_status_t.OK
    /\ s' = simple.mk
              (set_state (if decide (status r = work_return_status_t.ERROR)
                          then ERROR else STOPPED) (simple.base s1))
              (simple._job_lists s1).
Proof.
  unfold simple.start.
  destruct (simple.prepare single_threaded s) as [s1|]; [|discriminate].
  case_decide as Hst; [discriminate|].
  destruct (simple.run_passes _ _ _ _) as [[r w1]|] eqn:Hrun; [|discriminate].
  intros Hret. exists s1, r.
  assert (Hr : status r <> work_return_status_t.OK).
  { clear Hret. revert w Hrun. induction fuel as [|fuel IH]; intros w; simpl;
      [discriminate|].
    destruct (simple.work_once ops _ w) as [r0 w0]. case_decide as Hok.
    - apply IH.
    - intros [= -> ->]. exact Hok. }
  split; [reflexivity|].
  split; [destruct (decide (_state (simple.base s1) = INITIALISED)); tauto|].
  case_decide; injection Hret as <- <-; auto.
Qed.

(** X5.  A single-threaded [simple::start] that returns has run passes
    over the graph's blocks until one did not report OK, and leaves the
    state ERROR when that last pass reported ERROR and STOPPED otherwise;
    it never returns in state RUNNING. *)
Theorem simple_start_single_threaded_result {W : Type} (ops : node_model W) (fuel : nat)
    (s s' : simple.t) (w w' : W) :
  simple.start ops single_threaded fuel s w = Returned s' w' ->
  exists s1 r,
    simple.prepare single_threaded s = Some s1
    /\ simple.run_passes ops fuel (blocks (graph_contents (_graph (simple.base s1)))) w
       = Some (r, w')
    /\ status r <> work_return_status_t.OK
    /\ (status r = work_return_status_t.ERROR -> _state (simple.base s') = ERROR)
    /\ (status r <> work_return_status_t.ERROR -> _state (simple.base s') = STOPPED)
    /\ _graph (simple.base s') = _graph (simple.base s1)
    /\ simple._job_lists s' = simple._job_lists s1.
Proof.
  intros Hret.
  destruct (simple_start_single_inv ops fuel s s' w w' Hret)
    as (s1 & r & Hprep & _ & Hrun & Hr & ->).
  exists s1, r. split; [exact Hprep|]. split; [exact Hrun|]. split; [exact Hr|].
  simpl. case_decide; repeat split; auto; intros; contradiction.
Qed.

Lemma simple_start_single_threaded_result_witness :
  exists s1 r,
    simple.prepare single_threaded
      (simple.mk (new_scheduler_base scenario.pipe scenario.pool4) []) = Some s1
    /\ simple.run_passes scenario.first_fails 1
         (blocks (graph_contents (_graph (simple.base s1)))) O = Some (r, 1)
    /\ status r <> work_return_status_t.OK
    /\ (status r = work_return_status_t.ERROR ->
        _state (simple.base
                  (simple.mk
                     (set_state ERROR
                        (set_state RUNNING
                           (scheduler_base_ops.init
                              (new_scheduler_base scenario.pipe scenario.pool4)))) []))
        = ERROR)
    /\ (status r <> work_return_status_t.ERROR ->
        _state (simple.base
                  (simple.mk
                     (set_state ERROR
                        (set_state RUNNING
                           (scheduler_base_ops.init
                              (new_scheduler_base scenario.pipe scenario.pool4)))) []))
        = STOPPED)
    /\ _graph (simple.base
                 (simple.mk
                    (set_state ERROR
                       (set_state RUNNING
                          (scheduler_base_ops.init
                             (new_scheduler_base scenario.pipe scenario.pool4)))) []))
       = _graph (simple.base s1)
    /\ simple._job_lists
         (simple.mk
            (set_state ERROR
               (set_state RUNNING
                  (scheduler_base_ops.init
                     (new_scheduler_base scenario.pipe scenario.pool4)))) [])
       = simple._job_lists s1.
Proof.
  apply (simple_start_single_threaded_result scenario.first_fails 1
           (simple.mk (new_scheduler_base scenario.pipe scenario.pool4) [])).
  reflexivity.
Defined.

(** X6.  [run_and_wait] loses the ERROR state.  After a single-threaded
    [simple::start] has returned, be it in state ERROR, the [wait_done]
    that follows finds no worker to wait for and assigns STOPPED: a
    [run_and_wait] that returns never leaves the scheduler in ERROR. *)
Theorem simple_run_and_wait_ends_stopped {W : Type} (ops : node_model W) (fuel : nat)
    (s s' : simple.t) (w w' : W) :
  simple_run_and_wait ops single_threaded fuel s w = Returned s' w' ->
  _state (simple.base s') = STOPPED
  /\ exists s0, simple.start ops single_threaded fuel s w = Returned s0 w'
                /\ (_running_threads (simple.base s0) <= 0)%Z
                /\ s' = simple.mk (set_state STOPPED (simple.base s0)) (simple._job_lists s0).
Proof.
  unfold simple_run_and_wait, then_wait_done.
  destruct (simple.start ops single_threaded fuel s w) as [s0 w0| |] eqn:Hstart;
    [|discriminate|discriminate].
  destruct (scheduler_base_ops.wait_done (simple.base s0)) as [b|] eqn:Hw; [|discriminate].
  intros [= <- <-].
  apply wait_done_result in Hw as [Hrun ->].
  destruct (simple_start_single_inv ops fuel s s0 w w0 Hstart)
    as (s1 & r & _ & _ & _ & _ & Hs0).
  assert (Hne : _state (simple.base s0) <> REQUESTED_PAUSE).
  { rewrite Hs0. simpl. case_decide; discriminate. }
  rewrite decide_False by exact Hne.
  split; [reflexivity|]. exists s0. auto.
Qed.

(** The failing block of the pipe: [start] alone ends in ERROR,
    [run_and_wait] in STOPPED. *)
Lemma simple_run_and_wait_ends_stopped_witness :
  _state (simple.base
            (simple.mk
               (set_state STOPPED
                  (set_state ERROR
                     (set_state RUNNING
                        (scheduler_base_ops.init
                           (new_scheduler_base scenario.pipe scenario.pool4))))) []))
  = STOPPED
  /\ exists s0,
       simple.start scenario.first_fails single_threaded 1
         (simple.mk (new_scheduler_base scenario.pipe scenario.pool4) []) O
       = Returned s0 1
       /\ (_running_threads (simple.base s0) <= 0)%Z
       /\ simple.mk
            (set_state STOPPED
               (set_state ERROR
                  (set_state RUNNING
                     (scheduler_base_ops.init
                        (new_scheduler_base scenario.pipe scenario.pool4))))) []
          = simple.mk (set_state STOPPED (simple.base s0)) (simple._job_lists s0).
Proof.
  apply (simple_run_and_wait_ends_stopped scenario.first_fails 1
           (simple.mk (new_scheduler_base scenario.pipe scenario.pool4) [])
           _ O 1).
  reflexivity.
Defined.

(** X7.  A multi-threaded [simple::start] that returns never enters
    RUNNING.  The calling thread hands the job lists to the pool and
    leaves the state INITIALISED and the stop flag as it was; the workers
    write [_progress] and [_running_threads] only.  So whatever the
    workers have made of these two by then, a [stop()] after it does not
    call [request_stop]: it returns at once when no worker is counted as
    running, and whenever it returns the state is STOPPED and
    [_stop_requested] is what it was before [start]. *)
Theorem simple_start_multi_threaded_then_stop {W : Type} (ops : node_model W) (fuel : nat)
    (s s' : simple.t) (w w' : W) :
  simple.start ops multi_threaded fuel s w = Returned s' w' ->
  _state (simple.base s') = INITIALISED
  /\ _stop_requested (simple.base s') = _stop_requested (simple.base s)
  /\ (forall progress running b',
        scheduler_base_ops.stop (after_workers progress running (simple.base s'))
        = Some b' ->
        _state b' = STOPPED
        /\ _stop_requested b' = _stop_requested (simple.base s))
  /\ (forall progress running,
        (running <= 0)%Z ->
        exists b',
          scheduler_base_ops.stop (after_workers progress running (simple.base s'))
          = Some b').
Proof.
  intros Hret. pose proof (simple_start_flag ops _ _ _ _ _ _ Hret) as Hflag.
  unfold simple.start in Hret.
  destruct (simple.prepare multi_threaded s) as [s1|]; [|discriminate].
  case_decide as Hst; [discriminate|].
  assert (Hinit : _state (simple.base s1) = INITIALISED).
  { destruct (decide (_state (simple.base s1) = INITIALISED)); tauto. }
  injection Hret as <- <-. unfold after_workers.
  cbn [simple.base fst pool.run_on_pool _state _graph _pool _stop_requested] in *.
  split; [exact Hinit|]. split; [exact Hflag|]. split.
  - intros progress running b' Hstop. split.
    + revert Hstop. unfold scheduler_base_ops.stop. cbn [_state]. rewrite Hinit.
      rewrite decide_False by (intros [H|H]; discriminate H).
      rewrite decide_False by discriminate.
      destruct (scheduler_base_ops.wait_done _); [|discriminate].
      cbn. intros [= <-]. reflexivity.
    + rewrite (stop_flag _ _ Hstop). cbn [_state _stop_requested]. rewrite Hinit.
      rewrite bool_decide_eq_false_2 by discriminate. rewrite orb_false_r. exact Hflag.
  - intros progress running Hrun. unfold scheduler_base_ops.stop. cbn [_state].
    rewrite Hinit.
    rewrite decide_False by (intros [H|H]; discriminate H).
    rewrite decide_False by discriminate.
    unfold scheduler_base_ops.wait_done. cbn [_running_threads _state].
    rewrite decide_False by lia.
    rewrite decide_False by discriminate. cbn. eauto.
Qed.

Lemma simple_start_multi_threaded_then_stop_witness :
  _state
    (simple.base
       (simple.mk
          (pool.run_on_pool [[1%N]; [2%N]]
             (scheduler_base_ops.init (new_scheduler_base scenario.pipe scenario.pool4))).1
          [[1%N]; [2%N]]))
  = INITIALISED.
Proof.
  destruct (simple_start_multi_threaded_then_stop scenario.first_fails 0
              (simple.mk (new_scheduler_base scenario.pipe scenario.pool4) [])
              (simple.mk
                 (pool.run_on_pool [[1%N]; [2%N]]
                    (scheduler_base_ops.init
                       (new_scheduler_base scenario.pipe scenario.pool4))).1
                 [[1%N]; [2%N]])
              O O eq_refl) as (H & _).
  exact H.
Defined.

(** X8.  Where [reset] ends.  A [reset] that returns leaves the state
    INITIALISED, except that SHUTTING_DOWN and ERROR stay and that a
    failing [init] from IDLE gives ERROR; outside IDLE it does not touch
    the graph (no buffer is cleared), and it has raised the stop flag
    only when it found the state RUNNING.  It has nothing to wait for,
    and returns, from every state other than RUNNING, REQUESTED_STOP and
    REQUESTED_PAUSE whatever the workers' counter holds, and from these
    three when no worker is counted as running. *)
Theorem reset_result (b : scheduler_base) :
  (forall b',
     scheduler_base_ops.reset b = Some b' ->
     (_state b' = INITIALISED
      \/ (b' = b /\ (_state b = SHUTTING_DOWN \/ _state b = ERROR))
      \/ (_state b = IDLE /\ _state b' = ERROR))
     /\ (_state b <> IDLE -> _graph b' = _graph b)
     /\ _stop_requested b' = _stop_requested b || bool_decide (_state b = RUNNING))
  /\ (_state b <> RUNNING -> _state b <> REQUESTED_STOP -> _state b <> REQUESTED_PAUSE ->
      exists b', scheduler_base_ops.reset b = Some b')
  /\ ((_running_threads b <= 0)%Z -> exists b', scheduler_base_ops.reset b = Some b').
Proof.
  split; [|split].
  - intros b' Hreset. split; [|split].
    + revert Hreset. unfold scheduler_base_ops.reset, scheduler_base_ops.pause.
      destruct (_state b) eqn:Hb; cbn.
      * intros [= <-]. destruct (init_state b Hb) as [H|H]; auto.
      * intros [= <-]. auto.
      * destruct (scheduler_base_ops.wait_done _); [|discriminate].
        cbn. intros [= <-]. auto.
      * destruct (scheduler_base_ops.wait_done _); [|discriminate].
        cbn. intros [= <-]. auto.
      * destruct (scheduler_base_ops.wait_done _); [|discriminate].
        cbn. intros [= <-]. auto.
      * intros [= <-]. auto.
      * intros [= <-]. auto.
      * intros [= <-]. auto 6.
      * intros [= <-]. auto 6.
    + intros Hidle. revert Hreset.
      unfold scheduler_base_ops.reset, scheduler_base_ops.pause.
      destruct (_state b) eqn:Hb; cbn; try (intros [= <-]; reflexivity).
      * contradiction.
      * destruct (scheduler_base_ops.wait_done _) as [b1|] eqn:Hw; [|discriminate].
        apply wait_done_result in Hw as [_ ->]. cbn. intros [= <-]. reflexivity.
      * try rewrite Hb.
        destruct (scheduler_base_ops.wait_done _) as [b1|] eqn:Hw; [|discriminate].
        apply wait_done_result in Hw as [_ ->]. cbn. intros [= <-]. reflexivity.
      * try rewrite Hb.
        destruct (scheduler_base_ops.wait_done _) as [b1|] eqn:Hw; [|discriminate].
        apply wait_done_result in Hw as [_ ->]. cbn. intros [= <-]. reflexivity.
    + apply reset_flag, Hreset.
  - intros H1 H2 H3. unfold scheduler_base_ops.reset.
    destruct (_state b); try contradiction; eauto.
  - intros Hrun.
    assert (Hw : forall s1, _running_threads s1 = _running_threads b ->
                 exists s2, scheduler_base_ops.wait_done s1 = Some s2).
    { intros s1 Hs1. unfold scheduler_base_ops.wait_done.
      rewrite Hs1, decide_False by lia. case_decide; eauto. }
    unfold scheduler_base_ops.reset.
    destruct (_state b) eqn:Hb; eauto;
      unfold scheduler_base_ops.pause; rewrite Hb;
      rewrite decide_False by (intros [H|H]; discriminate H);
      match goal with
      | |- context [scheduler_base_ops.wait_done ?x] =>
          destruct (Hw x) as [s2 Hs2]; [case_decide; reflexivity|];
          rewrite Hs2; cbn; eauto
      end.
Qed.

(** ** Job lists *)

Lemma job_loop_prefix (fuel j n_batches : nat) (nodes job : list node_t) :
  exists tail, job_loop fuel j n_batches nodes job = job ++ tail.
Proof.
  revert j job. induction fuel as [|fuel IH]; intros j job; simpl.
  - exists []. rewrite app_nil_r. reflexivity.
  - destruct (nodes !! j) as [x|].
    + destruct (IH (j + n_batches) (job ++ [x])) as [tail ->].
      exists (x :: tail). rewrite <- app_assoc. reflexivity.
    + exists []. rewrite app_nil_r. reflexivity.
Qed.

(** With enough fuel, the [k]-th element appended by the loop started at
    [j] is the node at [j + k * n_batches]. *)
Lemma job_loop_lookup (fuel j n_batches : nat) (nodes job : list node_t) (k : nat) :
  1 <= n_batches -> length nodes <= fuel + j ->
  job_loop fuel j n_batches nodes job !! (length job + k) = nodes !! (j + k * n_batches).
Proof.
  intros Hn. revert j job k. induction fuel as [|fuel IH]; intros j job k Hfuel; simpl.
  - rewrite lookup_ge_None_2 by lia. symmetry. apply lookup_ge_None_2. nia.
  - destruct (nodes !! j) as [x|] eqn:Hx.
    + destruct k as [|k].
      * destruct (job_loop_prefix fuel (j + n_batches) n_batches nodes (job ++ [x]))
          as [tail ->].
        rewrite <- app_assoc, Nat.add_0_r. rewrite lookup_app_r by lia.
        rewrite Nat.sub_diag. simpl. rewrite Nat.add_0_r. symmetry. exact Hx.
      * replace (length job + S k) with (length (job ++ [x]) + k)
          by (rewrite length_app; simpl; lia).
        rewrite IH by lia. f_equal. lia.
    + apply lookup_ge_None in Hx.
      rewrite lookup_ge_None_2 by lia. symmetry. apply lookup_ge_None_2. nia.
Qed.

(** X9.  The round-robin law of the job lists both [init]s build.
    [make_job_lists n_batches nodes] has [n_batches] job sets, and the
    [k]-th entry of job set [i] is the node at index [i + k * n_batches]:
    the node at index [j] runs in job set [j mod n_batches], as its entry
    number [j / n_batches]. *)
Theorem make_job_lists_round_robin_law (n_batches : nat) (nodes : list node_t) :
  length (make_job_lists n_batches nodes) = n_batches
  /\ (forall i job k,
        make_job_lists n_batches nodes !! i = Some job ->
        job !! k = nodes !! (i + k * n_batches))
  /\ (forall j x,
        1 <= n_batches -> nodes !! j = Some x ->
        exists job,
          make_job_lists n_batches nodes !! (j mod n_batches) = Some job
          /\ job !! (j / n_batches) = Some x).
Proof.
  assert (Hlookup : forall i job k,
            make_job_lists n_batches nodes !! i = Some job ->
            job !! k = nodes !! (i + k * n_batches)).
  { intros i job k Hjob. unfold make_job_lists in Hjob.
    rewrite list_lookup_fmap in Hjob.
    destruct (seq 0 n_batches !! i) as [i'|] eqn:Hi; [|discriminate].
    apply lookup_seq in Hi as [-> Hi]. simpl in Hjob. injection Hjob as <-.
    apply (job_loop_lookup (length nodes) i n_batches nodes [] k); lia. }
  split; [unfold make_job_lists; rewrite length_map, length_seq; reflexivity|].
  split; [exact Hlookup|].
  intros j x Hn Hx.
  assert (Hlt : j mod n_batches < n_batches) by (apply Nat.mod_upper_bound; lia).
  destruct (make_job_lists n_batches nodes !! (j mod n_batches)) as [job|] eqn:Hjob.
  - exists job. split; [reflexivity|]. rewrite (Hlookup _ _ _ Hjob).
    rewrite <- Hx. f_equal. rewrite (Nat.div_mod_eq j n_batches) at 3. lia.
  - apply lookup_ge_None in Hjob. unfold make_job_lists in Hjob.
    rewrite length_map, length_seq in Hjob. lia.
Qed.

Lemma concat_map_app {A B : Type} (f g : A -> list B) (l : list A) :
  concat (map (fun i => f i ++ g i) l) ≡ₚ concat (map f l) ++ concat (map g l).
Proof.
  induction l as [|a l IH]; simpl; [reflexivity|].
  rewrite IH. rewrite <- !app_assoc. apply Permutation_app_head.
  rewrite !app_assoc. apply Permutation_app_tail. apply Permutation_app_comm.
Qed.

Lemma concat_lookups_take {A : Type} (l : list A) (n : nat) :
  concat (map (fun i => option_list (l !! i)) (seq 0 n)) = take n l.
Proof.
  induction n as [|n IH]; [reflexivity|].
  rewrite seq_S, map_app, concat_app, IH. simpl. rewrite app_nil_r.
  destruct (l !! n) as [x|] eqn:Hx.
  - symmetry. apply take_S_r. exact Hx.
  - apply lookup_ge_None in Hx. simpl. rewrite app_nil_r.
    rewrite !take_ge by lia. reflexivity.
Qed.

(** A job list is the first node of its column followed by the job list
    of the nodes behind the first row. *)
Lemma job_loop_row (n_batches i : nat) (nodes : list node_t) :
  1 <= n_batches ->
  job_loop (length nodes) i n_batches nodes []
  = option_list (nodes !! i)
    ++ job_loop (length (drop n_batches nodes)) i n_batches (drop n_batches nodes) [].
Proof.
  intros Hn. apply list_eq. intros k.
  pose proof (job_loop_lookup (length nodes) i n_batches nodes [] k Hn) as Hall.
  simpl in Hall. rewrite Hall by lia. clear Hall.
  pose proof (job_loop_lookup (length (drop n_batches nodes)) i n_batches
                (drop n_batches nodes) []) as Hdrop.
  simpl in Hdrop.
  destruct (nodes !! i) as [x|] eqn:Hx; simpl.
  - destruct k as [|k]; simpl.
    + rewrite Nat.add_0_r. exact Hx.
    + rewrite (Hdrop k Hn) by lia. rewrite lookup_drop. f_equal. lia.
  - apply lookup_ge_None in Hx. rewrite (Hdrop k Hn) by lia.
    rewrite lookup_drop. rewrite !lookup_ge_None_2; [reflexivity|nia|nia].
Qed.

Lemma make_job_lists_permutation (n_batches : nat) (nodes : list node_t) :
  1 <= n_batches -> concat (make_job_lists n_batches nodes) ≡ₚ nodes.
Proof.
  intros Hn. remember (length nodes) as m eqn:Hm. revert nodes Hm.
  induction m as [m IH] using lt_wf_ind. intros nodes Hm.
  destruct nodes as [|x nodes].
  - unfold make_job_lists. simpl.
    assert (Hnil : forall l : list nat, concat (map (fun _ => @nil node_t) l) = []).
    { induction l; simpl; auto. }
    rewrite Hnil. reflexivity.
  - unfold make_job_lists.
    rewrite (map_ext _ (fun i => option_list ((x :: nodes) !! i)
                          ++ job_loop (length (drop n_batches (x :: nodes))) i n_batches
                               (drop n_batches (x :: nodes)) []))
      by (intros i; apply job_loop_row; exact Hn).
    rewrite concat_map_app, concat_lookups_take.
    fold (make_job_lists n_batches (drop n_batches (x :: nodes))).
    rewrite (IH (length (drop n_batches (x :: nodes)))).
    + rewrite take_drop. reflexivity.
    + rewrite Hm, length_drop. simpl. lia.
    + reflexivity.
Qed.

(** X10.  [simple::init] in multi-threaded mode, on a scheduler without
    job lists and a pool of at least one thread, deals every block of the
    graph into exactly one job set: there are min(maxThreads, blocks) job
    sets and their concatenation is a permutation of the graph's blocks.
    With a pool of no thread there is no job set, so nothing would run. *)
Theorem simple_init_deals_every_block (s : simple.t) :
  simple._job_lists s = [] ->
  let s' := simple.init multi_threaded s in
  let nodes := blocks (graph_contents (_graph (simple.base s'))) in
  length (simple._job_lists s') = Nat.min (maxThreads (_pool (simple.base s))) (length nodes)
  /\ (1 <= maxThreads (_pool (simple.base s)) -> concat (simple._job_lists s') ≡ₚ nodes)
  /\ (maxThreads (_pool (simple.base s)) = 0 -> simple._job_lists s' = []).
Proof.
  intros Hjobs s' nodes. subst s' nodes. unfold simple.init. simpl. rewrite Hjobs. simpl.
  rewrite (proj2 (proj2 (init_keeps_flags (simple.base s)))).
  set (nodes := blocks (graph_contents (_graph (scheduler_base_ops.init (simple.base s))))).
  split; [apply make_job_lists_round_robin_law|]. split.
  - intros Hpool. destruct nodes as [|x rest] eqn:Hnodes.
    + rewrite Nat.min_0_r. reflexivity.
    + apply make_job_lists_permutation. simpl. lia.
  - intros ->. reflexivity.
Qed.

Lemma simple_init_deals_every_block_witness :
  length (simple._job_lists
            (simple.init multi_threaded
               (simple.mk (new_scheduler_base scenario.pipe_and_loner scenario.pool4) [])))
  = 3.
Proof.
  destruct (simple_init_deals_every_block
              (simple.mk (new_scheduler_base scenario.pipe_and_loner scenario.pool4) [])
              eq_refl) as [H _].
  exact H.
Defined.

(** ** [breadth_first::init], again *)

Lemma traverse_prefix (fuel : nat) (adj : gmap node_t (list node_t)) (q : list node_t)
    (r : gset node_t) (old nl : list node_t) :
  breadth_first.traverse fuel adj (breadth_first.mk_traversal q r (old ++ nl))
  = breadth_first.mk_traversal
      (breadth_first.queue
         (breadth_first.traverse fuel adj (breadth_first.mk_traversal q r nl)))
      (breadth_first.reached
         (breadth_first.traverse fuel adj (breadth_first.mk_traversal q r nl)))
      (old ++ breadth_first.nodelist
                (breadth_first.traverse fuel adj (breadth_first.mk_traversal q r nl))).
Proof.
  revert q r nl. induction fuel as [|fuel IH]; intros q r nl.
  - simpl. destruct q; reflexivity.
  - simpl. destruct q as [|c q]; [reflexivity|]. simpl.
    rewrite <- app_assoc. apply IH.
Qed.

Lemma build_nodelist_appends (es : list edge) (old : list node_t) :
  breadth_first.nodelist (breadth_first.build_nodelist es old)
  = old ++ breadth_first.nodelist (breadth_first.build_nodelist es []).
Proof.
  unfold breadth_first.build_nodelist.
  rewrite <- (app_nil_r old) at 1. rewrite traverse_prefix. reflexivity.
Qed.

(** X11.  [breadth_first::init] is not idempotent.  [_nodelist] is never
    cleared, and the traversal runs also when the call finds the scheduler
    initialised already: a second [init] leaves the scheduler's base as
    the first did and appends the same traversal once more, so that on a
    fresh scheduler every scheduled block then stands in the node list
    twice. *)
Theorem breadth_first_init_twice (policy : execution_policy) (s : breadth_first.t) :
  let s1 := breadth_first.init policy s in
  let s2 := breadth_first.init policy s1 in
  breadth_first.base s2 = breadth_first.base s1
  /\ breadth_first._nodelist s2
     = breadth_first._nodelist s1
       ++ breadth_first.nodelist
            (breadth_first.build_nodelist (resolved_edges (breadth_first.base s1)) [])
  /\ (breadth_first._nodelist s = [] ->
      breadth_first._nodelist s2
      = breadth_first._nodelist s1 ++ breadth_first._nodelist s1
      /\ (breadth_first._nodelist s1 <> [] -> ~ NoDup (breadth_first._nodelist s2))).
Proof.
  intros s1 s2. subst s1 s2.
  assert (Hbase : breadth_first.base (breadth_first.init policy (breadth_first.init policy s))
                  = breadth_first.base (breadth_first.init policy s)).
  { rewrite !init_base. apply scheduler_base_init_idempotent_aux. }
  assert (Hnl : breadth_first._nodelist
                  (breadth_first.init policy (breadth_first.init policy s))
                = breadth_first._nodelist (breadth_first.init policy s)
                  ++ breadth_first.nodelist
                       (breadth_first.build_nodelist
                          (resolved_edges
                             (breadth_first.base (breadth_first.init policy s))) [])).
  { destruct (breadth_first_init_fields policy (breadth_first.init policy s))
      as (_ & -> & _).
    rewrite build_nodelist_appends, !init_base, scheduler_base_init_idempotent_aux.
    reflexivity. }
  split; [exact Hbase|]. split; [exact Hnl|].
  intros Hfresh.
  assert (Hsame : breadth_first.nodelist
                    (breadth_first.build_nodelist
                       (resolved_edges (breadth_first.base (breadth_first.init policy s)))
                       [])
                  = breadth_first._nodelist (breadth_first.init policy s)).
  { rewrite (init_nodelist_of_fresh policy s Hfresh), init_base. reflexivity. }
  rewrite Hnl, Hsame. split; [reflexivity|].
  intros Hne Hnd. destruct (breadth_first._nodelist (breadth_first.init policy s))
    as [|x l]; [contradiction|].
  apply NoDup_app in Hnd as (_ & Hdisj & _).
  apply (Hdisj x); left.
Qed.

(** ** Graphs without a source block *)

Lemma no_source_empty_nodelist (es : list edge) :
  (forall e, e ∈ es -> exists e', e' ∈ es /\ _dst_node e' = _src_node e) ->
  breadth_first.nodelist (breadth_first.build_nodelist es []) = [].
Proof.
  intros Hcyc. destruct (build_nodelist_spec es) as (_ & _ & Hmem & _).
  destruct (breadth_first.nodelist (breadth_first.build_nodelist es [])) as [|x l];
    [reflexivity|].
  exfalso. destruct (proj1 (Hmem x)) as (src & ((e & He & Hsrc) & Hnot) & _).
  { left. }
  apply Hnot. destruct (Hcyc e He) as (e' & He' & Hd).
  exists e'. split; [exact He'|]. congruence.
Qed.

(** X12.  The breadth-first scheduler seeds its traversal with the blocks
    that are an edge source and no edge destination.  When the resolved
    graph has no such block (every edge starts at a block that another
    edge enters, as in a ring, or there is no edge at all) [init] builds
    an empty node list and adds no job set, and a single-threaded [start]
    returns at once in state STOPPED without calling any block's work
    function: the blocks' state is the one passed in. *)
Theorem breadth_first_no_source_runs_nothing {W : Type} (ops : node_model W)
    (fuel : nat) (s : breadth_first.t) (w : W) :
  _state (breadth_first.base s) = IDLE ->
  (scheduler_base_ops.all_of (connection_definitions (_graph (breadth_first.base s)))
     (graph_contents (_graph (breadth_first.base s)))).1 = true ->
  breadth_first._nodelist s = [] ->
  (forall e, e ∈ resolved_edges (scheduler_base_ops.init (breadth_first.base s)) ->
     exists e', e' ∈ resolved_edges (scheduler_base_ops.init (breadth_first.base s))
                /\ _dst_node e' = _src_node e) ->
  (forall policy,
     breadth_first._nodelist (breadth_first.init policy s) = []
     /\ breadth_first._job_lists (breadth_first.init policy s)
        = breadth_first._job_lists s)
  /\ exists s',
       breadth_first.start ops single_threaded (S fuel) s w = Returned s' w
       /\ _state (breadth_first.base s') = STOPPED
       /\ breadth_first._nodelist s' = [].
Proof.
  intros Hidle Hok Hfresh Hcyc.
  assert (Hnl : forall policy, breadth_first._nodelist (breadth_first.init policy s) = []).
  { intros policy. rewrite (init_nodelist_of_fresh policy s Hfresh).
    apply no_source_empty_nodelist, Hcyc. }
  split.
  - intros policy. split; [apply Hnl|].
    pose proof (Hnl policy) as Hp. unfold breadth_first.init in *.
    destruct policy; cbn [breadth_first._nodelist breadth_first._job_lists] in *.
    + reflexivity.
    + rewrite Hp. cbn [length]. rewrite Nat.min_0_r. cbn. apply app_nil_r.
  - unfold breadth_first.start, breadth_first.prepare. rewrite Hidle.
    destruct (init_success (breadth_first.base s) Hidle Hok) as (Hst & _).
    rewrite decide_False
      by (intros Hne; apply Hne; rewrite init_base; exact Hst).
    cbn [breadth_first._nodelist breadth_first._job_lists breadth_first.base].
    rewrite (Hnl single_threaded).
    cbn [breadth_first.run_passes breadth_first.work_once
         breadth_first.work_once_loop status].
    rewrite decide_False by discriminate.
    eexists. split; [reflexivity|]. split; reflexivity.
Qed.

Lemma breadth_first_no_source_runs_nothing_witness :
  exists s',
    breadth_first.start (scenario.fixed_status (fun _ => work_return_status_t.OK)) single_threaded 1
      (breadth_first.new scenario.ring scenario.pool4) 0
    = Returned s' 0
    /\ _state (breadth_first.base s') = STOPPED
    /\ breadth_first._nodelist s' = [].
Proof.
  refine (proj2 (breadth_first_no_source_runs_nothing
                   (scenario.fixed_status (fun _ => work_return_status_t.OK)) 0
                   (breadth_first.new scenario.ring scenario.pool4) 0 _ _ _ _)).
  - reflexivity.
  - reflexivity.
  - reflexivity.
  - intros e He. vm_compute in He.
    apply elem_of_cons in He as [->|He].
    + exists (mk_edge 2%N 1%N). split; [|reflexivity]. vm_compute. right. left.
    + apply elem_of_cons in He as [->|He]; [|apply elem_of_nil in He; destruct He].
      exists (mk_edge 1%N 2%N). split; [|reflexivity]. vm_compute. left.
Defined.

(** ** A worker that finds nothing to do *)

Section idle_worker.
Local Open Scope Z_scope.
Import pool.

(** X13.  A worker's first turn on a progress word that still has progress
    count 0 and a done count below [n_batches]: when its [work] call is not
    productive and no peer stores to the word, the worker writes the done
    count plus one, keeps the done count it loaded in its local, and, as
    that one is below [n_batches], goes to sleep in [_progress.wait] on the
    very value it wrote.  Unless another thread stores to the word it
    stays there, and [_running_threads] is not counted down.  With a
    single job set ([n_batches = 1], word 0 from [run_on_pool]) there is no
    other thread: the lone worker never leaves after an idle pass. *)
Theorem pool_worker_idle_pass_blocks (n_batches : Z) (it : iteration_env)
    (rest : list iteration_env) (word running_threads : Z) :
  0 <= word < n_batches -> word < 2 ^ 32 - 1 ->
  stop_seen it = false ->
  work_status it <> work_return_status_t.OK ->
  peers it = [] ->
  woken_by it = None ->
  pool_worker n_batches (it :: rest) word running_threads
  = (Blocked (mk_locals word 0) (word + 1), running_threads).
Proof.
  intros Hw Hsmall Hstop Hwork Hpeers Hwake.
  destruct (packed_fields 0 word) as (Hpc & Hd); [lia | lia |].
  rewrite Z.mul_0_l, Z.add_0_l in Hpc, Hd.
  destruct (idle_word 0 word 1) as (_ & Hnew); [lia | lia | lia |].
  destruct Hnew as (Hnew & _); [lia|].
  replace (0 * 2 ^ 32 + (word + 1)) with (word + 1) in Hnew by lia.
  assert (Hit : iteration n_batches (mk_locals 0 0) it word
                = mk_iteration_result
                    (mk_attempt word (mk_locals word 0) (word + 1) true (word + 1)) true).
  { unfold iteration. rewrite bool_decide_eq_false_2 by exact Hwork.
    rewrite Hpeers. cbn [cas_loop progress_count].
    unfold attempt_idle, quiet, peer_store. cbn [before_load before_cas default].
    rewrite Hpc, Hd. rewrite !decide_True by reflexivity. rewrite Hnew.
    cbn [att_locals progress_count done].
    rewrite bool_decide_eq_true_2 by (split; [reflexivity | lia]). reflexivity. }
  unfold pool_worker. cbn [worker_loop done].
  rewrite decide_True by lia. rewrite Hstop, Hit.
  cbn [waits last_attempt att_locals word_after]. rewrite Hwake. reflexivity.
Qed.

Lemma pool_worker_idle_pass_blocks_witness :
  pool_worker 1 [mk_iteration_env false work_return_status_t.DONE [] None] 0 1
  = (Blocked (mk_locals 0 0) (0 + 1), 1).
Proof.
  apply (pool_worker_idle_pass_blocks 1
           (mk_iteration_env false work_return_status_t.DONE [] None) [] 0 1);
    try reflexivity; try lia; try discriminate.
Defined.

(** X14.  The progress word is the pair of its two 32-bit halves: the two
    extractions used by [pool_worker] undo the packing
    [(progress_count << 32) + done], and every 64-bit word is the packing
    of what they extract. *)
Theorem progress_word_round_trip :
  (forall pc d, 0 <= pc < 2 ^ 32 -> 0 <= d < 2 ^ 32 ->
     progress_count_of (wrap64 (Z.shiftl pc 32) + d) = pc
     /\ done_of (wrap64 (Z.shiftl pc 32) + d) = d)
  /\ (forall w, wrap64 w = wrap64 (Z.shiftl (progress_count_of w) 32) + done_of w)
  /\ (forall w, 0 <= progress_count_of w < 2 ^ 32 /\ 0 <= done_of w < 2 ^ 32).
Proof.
  split; [|split].
  - intros pc d Hpc Hd. rewrite Z.shiftl_mul_pow2 by lia.
    rewrite wrap64_small by lia. apply packed_fields; assumption.
  - intros w. rewrite Z.shiftl_mul_pow2 by lia.
    rewrite progress_count_of_div, done_of_mod.
    assert (Hr : 0 <= (w / 2 ^ 32) mod 2 ^ 32 < 2 ^ 32) by (apply Z.mod_pos_bound; lia).
    rewrite (wrap64_small ((w / 2 ^ 32) mod 2 ^ 32 * 2 ^ 32)) by lia.
    unfold wrap64. change (2 ^ 64) with (2 ^ 32 * 2 ^ 32).
    rewrite (Z.rem_mul_r w (2 ^ 32) (2 ^ 32)) by lia. ring.
  - intros w. rewrite progress_count_of_div, done_of_mod.
    split; apply Z.mod_pos_bound; lia.
Qed.

End idle_worker.

(** ** The job sets of the breadth-first scheduler *)

(** X15.  [breadth_first::init] in multi-threaded mode, on a fresh
    scheduler with a pool of at least one thread: there are
    [min(maxThreads, number of scheduled blocks)] job sets, none of them
    is empty, and together they hold every block of the node list exactly
    once, so that no block is run by two workers. *)
Theorem breadth_first_init_job_sets (s : breadth_first.t) :
  breadth_first._nodelist s = [] ->
  breadth_first._job_lists s = [] ->
  1 <= maxThreads (_pool (breadth_first.base s)) ->
  let s' := breadth_first.init multi_threaded s in
  length (breadth_first._job_lists s')
  = Nat.min (maxThreads (_pool (breadth_first.base s)))
      (length (breadth_first._nodelist s'))
  /\ concat (breadth_first._job_lists s') ≡ₚ breadth_first._nodelist s'
  /\ NoDup (concat (breadth_first._job_lists s'))
  /\ (forall job, job ∈ breadth_first._job_lists s' -> job <> []).
Proof.
  intros Hfresh Hjobs Hpool s'.
  assert (Hnd : NoDup (breadth_first._nodelist s')).
  { subst s'. rewrite (init_nodelist_of_fresh multi_threaded s Hfresh).
    apply build_nodelist_spec. }
  assert (Hjl : breadth_first._job_lists s'
                = make_job_lists
                    (Nat.min (maxThreads (_pool (breadth_first.base s)))
                       (length (breadth_first._nodelist s')))
                    (breadth_first._nodelist s')).
  { subst s'. unfold breadth_first.init.
    cbn [breadth_first._job_lists breadth_first._nodelist]. rewrite Hjobs.
    rewrite (proj2 (proj2 (init_keeps_flags (breadth_first.base s)))). reflexivity. }
  clearbody s'. rewrite Hjl.
  set (nodes := breadth_first._nodelist s') in *.
  set (n := Nat.min (maxThreads (_pool (breadth_first.base s))) (length nodes)).
  destruct (make_job_lists_round_robin_law n nodes) as (Hlen & Hrow & _).
  assert (Hperm : concat (make_job_lists n nodes) ≡ₚ nodes).
  { destruct nodes as [|x rest] eqn:Hnodes.
    - subst n. rewrite Nat.min_0_r. reflexivity.
    - apply make_job_lists_permutation. subst n. simpl. lia. }
  split; [exact Hlen|]. split; [exact Hperm|]. split.
  - rewrite Hperm. exact Hnd.
  - intros job Hjob Hnil. apply list_elem_of_lookup in Hjob as (i & Hi).
    pose proof (Hrow i job 0 Hi) as H0. rewrite Hnil in H0. simpl in H0.
    symmetry in H0. apply lookup_ge_None in H0.
    apply lookup_lt_Some in Hi. rewrite Hlen in Hi. subst n. lia.
Qed.

Lemma breadth_first_init_job_sets_witness :
  length
    (breadth_first._job_lists
       (breadth_first.init multi_threaded
          (breadth_first.new scenario.short_cut_graph scenario.pool4)))
  = 3.
Proof.
  destruct (breadth_first_init_job_sets
              (breadth_first.new scenario.short_cut_graph scenario.pool4)
              eq_refl eq_refl) as (Hlen & _).
  { vm_compute. lia. }
  etransitivity; [exact Hlen|]. vm_compute. reflexivity.
Defined.

(** ** [BasicSettings::set], the returning path *)

Section set_returns.
Import settings.
Context {pmt : Type} (index : pmt -> nat).

Lemma stage_stage (key : string) (value : pmt) (st : BasicSettings (pmt := pmt)) :
  stage key value (stage key value st) = stage key value st.
Proof.
  unfold stage. cbn [_staged _auto_update meta_information]. f_equal.
  - apply insert_insert_eq.
  - set_solver.
Qed.

Lemma iterate_over_member_normal (key : string) (value : pmt) (m : member)
    (is_set : bool) (st : BasicSettings (pmt := pmt)) :
  (settable m && bool_decide (display_name m = key)
   && negb (holds_alternative index m value)) = false ->
  iterate_over_member index key value m is_set st
  = if settable m && bool_decide (display_name m = key) && holds_alternative index m value
    then Normal true (stage key value st)
    else Normal is_set st.
Proof.
  unfold iterate_over_member. destruct (settable m); [|reflexivity].
  destruct (bool_decide (display_name m = key)); [|reflexivity].
  destruct (holds_alternative index m value); [|discriminate].
  intros _. cbn. unfold stage. do 2 f_equal.
  case_decide; [reflexivity|]. set_solver.
Qed.

Lemma processMembers_normal (members : list member) (key : string) (value : pmt)
    (is_set : bool) (st : BasicSettings (pmt := pmt)) :
  rejects index members key value = false ->
  processMembers index members key value is_set st
  = Normal (is_set || accepts index members key value)
      (if accepts index members key value then stage key value st else st).
Proof.
  revert is_set st. induction members as [|m members IH]; intros is_set st Hrej.
  - cbn. rewrite orb_false_r. reflexivity.
  - cbn [rejects existsb] in Hrej. apply orb_false_elim in Hrej as [Hm Hrej].
    cbn [processMembers accepts existsb].
    rewrite (iterate_over_member_normal key value m is_set st Hm).
    destruct (settable m && bool_decide (display_name m = key)
              && holds_alternative index m value).
    + rewrite (IH true (stage key value st) Hrej).
      destruct is_set, (accepts index members key value); cbn;
        rewrite ?stage_stage; reflexivity.
    + rewrite (IH is_set st Hrej). reflexivity.
Qed.

Lemma set_loop_normal (members : list member) (parameters : list (string * pmt))
    (ret : gmap string pmt) (st : BasicSettings (pmt := pmt)) :
  NoDup parameters.*1 ->
  (forall k v, (k, v) ∈ parameters -> rejects index members k v = false) ->
  exists ret' st',
    set_loop index members parameters ret st = Normal ret' st'
    /\ meta_information st' = meta_information st
    /\ _changed st'
       = _changed st || existsb (fun kv => accepts index members kv.1 kv.2) parameters
    /\ (forall k v, (k, v) ∈ parameters ->
          if accepts index members k v
          then _staged st' !! k = Some v /\ ret' !! k = ret !! k
               /\ k ∉ _auto_update st'
          else ret' !! k = Some v /\ _staged st' !! k = _staged st !! k
               /\ (k ∈ _auto_update st' <-> k ∈ _auto_update st))
    /\ (forall k, k ∉ parameters.*1 ->
          ret' !! k = ret !! k /\ _staged st' !! k = _staged st !! k
          /\ (k ∈ _auto_update st' <-> k ∈ _auto_update st)).
Proof.
  revert ret st. induction parameters as [|[k0 v0] parameters IH]; intros ret st Hnd Hrej.
  - exists ret, st. cbn. rewrite orb_false_r.
    split; [reflexivity|]. split; [reflexivity|]. split; [reflexivity|]. split.
    + intros k v Hin. apply elem_of_nil in Hin. destruct Hin.
    + intros k _. tauto.
  - cbn [fmap list_fmap] in Hnd. change (NoDup (k0 :: parameters.*1)) in Hnd.
    apply NoDup_cons in Hnd as [Hk0 Hnd].
    cbn [set_loop].
    rewrite (processMembers_normal members k0 v0 false st (Hrej k0 v0 ltac:(left))).
    cbn [orb].
    set (ret1 := if accepts index members k0 v0 then ret else <[k0:=v0]> ret).
    set (st1 := if accepts index members k0 v0 then stage k0 v0 st else st).
    destruct (IH ret1 st1 Hnd) as (ret' & st' & Heq & Hmeta & Hch & Hin & Hout).
    { intros k v Hkv. apply Hrej. right. exact Hkv. }
    exists ret', st'. split; [exact Heq|].
    destruct (Hout k0 Hk0) as (Hr0 & Hs0 & Ha0).
    split; [|split; [|split]].
    + rewrite Hmeta. subst st1. destruct (accepts index members k0 v0); reflexivity.
    + rewrite Hch. cbn [existsb fst snd]. subst st1.
      destruct (accepts index members k0 v0); cbn; [|reflexivity].
      rewrite orb_true_r. reflexivity.
    + intros k v Hkv. apply elem_of_cons in Hkv as [Heqkv|Hkv].
      * injection Heqkv as -> ->. subst ret1 st1.
        destruct (accepts index members k0 v0) eqn:Hacc.
        -- rewrite Hs0, Hr0. cbn. rewrite lookup_insert_eq.
           split; [reflexivity|]. split; [reflexivity|].
           rewrite Ha0. set_solver.
        -- rewrite Hs0, Hr0. rewrite lookup_insert_eq. tauto.
      * assert (Hne : k <> k0).
        { intros ->. apply Hk0. apply list_elem_of_fmap. exists (k0, v). auto. }
        pose proof (Hin k v Hkv) as Hk.
        assert (Hret1 : ret1 !! k = ret !! k).
        { subst ret1. destruct (accepts index members k0 v0); [reflexivity|].
          apply lookup_insert_ne. congruence. }
        assert (Hst1 : _staged st1 !! k = _staged st !! k).
        { subst st1. destruct (accepts index members k0 v0); [|reflexivity].
          cbn. apply lookup_insert_ne. congruence. }
        assert (Hau1 : k ∈ _auto_update st1 <-> k ∈ _auto_update st).
        { subst st1. destruct (accepts index members k0 v0); [|reflexivity].
          cbn. set_solver. }
        destruct (accepts index members k v).
        -- destruct Hk as (? & ? & ?). rewrite <- Hret1. auto.
        -- destruct Hk as (? & ? & ?). rewrite <- Hst1, <- Hau1. auto.
    + intros k Hk. cbn [fmap list_fmap] in Hk. change (k ∉ k0 :: parameters.*1) in Hk.
      apply not_elem_of_cons in Hk as [Hne Hk].
      destruct (Hout k Hk) as (Hr & Hs & Ha). rewrite Hr, Hs, Ha. subst ret1 st1.
      destruct (accepts index members k0 v0); cbn.
      * rewrite lookup_insert_ne by congruence. split; [reflexivity|].
        split; [reflexivity|]. set_solver.
      * rewrite lookup_insert_ne by congruence. tauto.
Qed.

Context (updateMaps : gmap string pmt -> gmap string pmt -> gmap string pmt).

(** X16.  [set] when no key names a settable field with a value of
    another type: the call returns, and it splits the parameters in two.
    A key with a settable field of its value's type is staged with that
    value, is not returned, and is taken off the auto-update list; every
    other key is returned with its value and leaves the staged map and
    the auto-update list alone.  Nothing else changes in either map; the
    changed flag is raised when some key was staged, and the block's
    [meta_information] receives the returned map. *)
Theorem set_stages_or_returns (members : list member)
    (parameters : list (string * pmt)) (st : BasicSettings (pmt := pmt)) :
  NoDup parameters.*1 ->
  (forall k v, (k, v) ∈ parameters -> rejects index members k v = false) ->
  exists ret st',
    set index updateMaps members parameters st = Normal ret st'
    /\ meta_information st' = updateMaps ret <$> meta_information st
    /\ _changed st'
       = _changed st || existsb (fun kv => accepts index members kv.1 kv.2) parameters
    /\ (forall k v, (k, v) ∈ parameters ->
          if accepts index members k v
          then _staged st' !! k = Some v /\ ret !! k = None /\ k ∉ _auto_update st'
          else ret !! k = Some v /\ _staged st' !! k = _staged st !! k
               /\ (k ∈ _auto_update st' <-> k ∈ _auto_update st))
    /\ (forall k, k ∉ parameters.*1 ->
          ret !! k = None /\ _staged st' !! k = _staged st !! k
          /\ (k ∈ _auto_update st' <-> k ∈ _auto_update st)).
Proof.
  intros Hnd Hrej.
  destruct (set_loop_normal members parameters ∅ st Hnd Hrej)
    as (ret & st' & Heq & Hmeta & Hch & Hin & Hout).
  unfold set. rewrite Heq. eexists _, _. split; [reflexivity|].
  cbn [meta_information _changed _staged _auto_update].
  split; [rewrite Hmeta; reflexivity|]. split; [exact Hch|]. split.
  - intros k v Hkv. pose proof (Hin k v Hkv) as Hk.
    destruct (accepts index members k v); [|exact Hk].
    destruct Hk as (? & Hr & ?). rewrite lookup_empty in Hr. auto.
  - intros k Hk. destruct (Hout k Hk) as (Hr & ? & ?).
    rewrite lookup_empty in Hr. auto.
Qed.

End set_returns.

(** The theorem at the block with [gain] and [label]: an integer for
    [gain] is staged, a key the block does not have is returned. *)
Lemma set_stages_or_returns_witness :
  exists ret st',
    settings.set scenario.toy_index scenario.overwrite [scenario.gain; scenario.label]
      [("gain", scenario.pmt_int 3); ("speed", scenario.pmt_bool true)] scenario.untouched
    = settings.Normal ret st'
    /\ settings._staged st' !! "gain" = Some (scenario.pmt_int 3)
    /\ ret !! "gain" = None
    /\ ret !! "speed" = Some (scenario.pmt_bool true)
    /\ settings._staged st' !! "speed" = None.
Proof.
  destruct (set_stages_or_returns scenario.toy_index scenario.overwrite
              [scenario.gain; scenario.label]
              [("gain", scenario.pmt_int 3); ("speed", scenario.pmt_bool true)]
              scenario.untouched)
    as (ret & st' & Heq & _ & _ & Hin & _).
  - apply (bool_decide_unpack _). vm_compute. exact I.
  - intros k v Hkv.
    apply elem_of_cons in Hkv as [Hkv|Hkv]; [injection Hkv as -> ->; reflexivity|].
    apply elem_of_cons in Hkv as [Hkv|Hkv]; [injection Hkv as -> ->; reflexivity|].
    apply elem_of_nil in Hkv. destruct Hkv.
  - exists ret, st'. split; [exact Heq|].
    pose proof (Hin "gain" (scenario.pmt_int 3) ltac:(left)) as Hg.
    pose proof (Hin "speed" (scenario.pmt_bool true) ltac:(right; left)) as Hs.
    assert (Hag : accepts scenario.toy_index [scenario.gain; scenario.label] "gain"
                    (scenario.pmt_int 3) = true) by reflexivity.
    assert (Has : accepts scenario.toy_index [scenario.gain; scenario.label] "speed"
                    (scenario.pmt_bool true) = false) by reflexivity.
    rewrite Hag in Hg. rewrite Has in Hs.
    destruct Hg as (Hg1 & Hg2 & _). destruct Hs as (Hs1 & Hs2 & _).
    rewrite Hs2. auto.
Defined.

(** ** [BasicSettings::autoUpdate] *)

Section auto_update.
Import settings.
Context {pmt : Type} (index : pmt -> nat).
Context (updateMaps : gmap string pmt -> gmap string pmt -> gmap string pmt).

Lemma auto_update_members (members : list member) (key : string) (value : pmt)
    (st : BasicSettings (pmt := pmt)) :
  fold_left (block_settings.auto_update_member index key value) members st
  = if bool_decide (key ∈ _auto_update st) && accepts index members key value
    then mk_settings (<[key := value]> (_staged st)) (_auto_update st) true
           (meta_information st)
    else st.
Proof.
  revert st. induction members as [|m members IH]; intros st.
  - cbn. rewrite andb_false_r. reflexivity.
  - cbn [fold_left accepts existsb]. rewrite IH. fold (accepts index members key value).
    unfold block_settings.auto_update_member.
    destruct (settable m); cbn [andb orb]; [|reflexivity].
    destruct (bool_decide (key ∈ _auto_update st)) eqn:Hau; cbn [andb]; [|rewrite Hau; reflexivity].
    destruct (bool_decide (display_name m = key)); cbn [andb orb]; [|rewrite Hau; reflexivity].
    destruct (holds_alternative index m value); cbn [andb orb]; [|rewrite Hau; reflexivity].
    cbn [_auto_update _staged meta_information]. rewrite Hau. cbn [andb].
    destruct (accepts index members key value); [|reflexivity].
    rewrite insert_insert_eq. reflexivity.
Qed.

Lemma autoUpdate_cons (members : list member) (key : string) (value : pmt)
    (parameters : list (string * pmt)) (st : BasicSettings (pmt := pmt)) :
  block_settings.autoUpdate index members ((key, value) :: parameters) st
  = block_settings.autoUpdate index members parameters
      (if bool_decide (key ∈ _auto_update st) && accepts index members key value
       then mk_settings (<[key := value]> (_staged st)) (_auto_update st) true
              (meta_information st)
       else st).
Proof.
  unfold block_settings.autoUpdate. cbn [fold_left fst snd].
  rewrite auto_update_members. reflexivity.
Qed.

Lemma autoUpdate_spec (members : list member) (parameters : list (string * pmt))
    (st : BasicSettings (pmt := pmt)) :
  NoDup parameters.*1 ->
  let st' := block_settings.autoUpdate index members parameters st in
  _auto_update st' = _auto_update st
  /\ meta_information st' = meta_information st
  /\ (forall k v, (k, v) ∈ parameters ->
        _staged st' !! k
        = if bool_decide (k ∈ _auto_update st) && accepts index members k v
          then Some v else _staged st !! k)
  /\ (forall k, k ∉ parameters.*1 -> _staged st' !! k = _staged st !! k).
Proof.
  revert st. induction parameters as [|[k0 v0] parameters IH]; intros st Hnd st'.
  - subst st'. cbn. split; [reflexivity|]. split; [reflexivity|]. split; [|auto].
    intros k v Hin. apply elem_of_nil in Hin. destruct Hin.
  - change (NoDup (k0 :: parameters.*1)) in Hnd. apply NoDup_cons in Hnd as [Hk0 Hnd].
    subst st'. rewrite autoUpdate_cons.
    set (st1 := if bool_decide (k0 ∈ _auto_update st) && accepts index members k0 v0
                then mk_settings (<[k0 := v0]> (_staged st)) (_auto_update st) true
                       (meta_information st)
                else st).
    assert (Hau1 : _auto_update st1 = _auto_update st).
    { subst st1. destruct (_ && _); reflexivity. }
    assert (Hmeta1 : meta_information st1 = meta_information st).
    { subst st1. destruct (_ && _); reflexivity. }
    assert (Hst1 : forall k, k <> k0 -> _staged st1 !! k = _staged st !! k).
    { intros k Hne. subst st1. destruct (_ && _); [|reflexivity].
      cbn. apply lookup_insert_ne. congruence. }
    destruct (IH st1 Hnd) as (Hau & Hmeta & Hin & Hout).
    split; [congruence|]. split; [congruence|]. split.
    + intros k v Hkv. apply elem_of_cons in Hkv as [Heq|Hkv].
      * injection Heq as -> ->. rewrite (Hout k0 Hk0). subst st1.
        destruct (_ && _); [|reflexivity]. cbn. apply lookup_insert_eq.
      * assert (Hne : k <> k0).
        { intros ->. apply Hk0. apply list_elem_of_fmap. exists (k0, v). auto. }
        rewrite (Hin k v Hkv), Hau1, (Hst1 k Hne). reflexivity.
    + intros k Hk. change (k ∉ k0 :: parameters.*1) in Hk.
      apply not_elem_of_cons in Hk as [Hne Hk].
      rewrite (Hout k Hk). apply Hst1, Hne.
Qed.

(** X17.  [autoUpdate] with the parameters of a tag: a key is staged with
    its value exactly when it is on the auto-update list and names a
    settable field of the value's type.  A key that is off the list, that
    names no settable field, or whose value has another type is skipped
    without an exception; no other staged entry changes, and the
    auto-update list itself is left as it was. *)
Theorem autoUpdate_stages_listed_keys (members : list member)
    (parameters : list (string * pmt)) (st : BasicSettings (pmt := pmt)) :
  NoDup parameters.*1 ->
  let st' := block_settings.autoUpdate index members parameters st in
  _auto_update st' = _auto_update st
  /\ (forall k v, (k, v) ∈ parameters ->
        k ∈ _auto_update st -> accepts index members k v = true ->
        _staged st' !! k = Some v)
  /\ (forall k v, (k, v) ∈ parameters ->
        k ∉ _auto_update st \/ accepts index members k v = false ->
        _staged st' !! k = _staged st !! k)
  /\ (forall k, k ∉ parameters.*1 -> _staged st' !! k = _staged st !! k).
Proof.
  intros Hnd st'. destruct (autoUpdate_spec members parameters st Hnd)
    as (Hau & _ & Hin & Hout).
  fold st' in Hau, Hin, Hout.
  split; [exact Hau|]. split; [|split; [|exact Hout]].
  - intros k v Hkv Hk Hacc. rewrite (Hin k v Hkv), Hacc.
    rewrite bool_decide_eq_true_2 by exact Hk. reflexivity.
  - intros k v Hkv [Hk|Hacc]; rewrite (Hin k v Hkv).
    + rewrite bool_decide_eq_false_2 by exact Hk. reflexivity.
    + rewrite Hacc, andb_false_r. reflexivity.
Qed.

(** X18.  A value set by hand is not overwritten by tags.  When [set]
    stages a key it takes the key off the auto-update list, and
    [autoUpdate] stages listed keys only: whatever parameters later tags
    carry, the staged value of the key stays the one that was set. *)
Theorem explicit_set_survives_autoUpdate (members : list member)
    (parameters : list (string * pmt)) (st : BasicSettings (pmt := pmt))
    (key : string) (value : pmt) :
  NoDup parameters.*1 ->
  (forall k v, (k, v) ∈ parameters -> rejects index members k v = false) ->
  (key, value) ∈ parameters ->
  accepts index members key value = true ->
  exists ret st',
    set index updateMaps members parameters st = Normal ret st'
    /\ forall tags, NoDup tags.*1 ->
         _staged (block_settings.autoUpdate index members tags st') !! key = Some value.
Proof.
  intros Hnd Hrej Hin Hacc.
  destruct (set_loop_normal index members parameters ∅ st Hnd Hrej)
    as (ret & st' & Heq & _ & _ & Hkeys & _).
  unfold set. rewrite Heq. eexists _, _. split; [reflexivity|].
  pose proof (Hkeys key value Hin) as Hk. rewrite Hacc in Hk.
  destruct Hk as (Hst & _ & Hau).
  intros tags Htags.
  destruct (autoUpdate_spec members tags
              (mk_settings (_staged st') (_auto_update st') (_changed st')
                 (updateMaps ret <$> meta_information st')) Htags)
    as (_ & _ & Hin' & Hout').
  cbn [_staged _auto_update] in Hin', Hout'.
  destruct (decide (key ∈ tags.*1)) as [Hk|Hk].
  - apply list_elem_of_fmap in Hk as ([k v] & -> & Hkv). cbn [fst] in *.
    rewrite (Hin' k v Hkv). rewrite bool_decide_eq_false_2 by exact Hau.
    exact Hst.
  - rewrite (Hout' key Hk). exact Hst.
Qed.

End auto_update.

(** The theorem at the block with [gain] and [label]: a tag with an
    integer for [gain] stages it. *)
Lemma autoUpdate_stages_listed_keys_witness :
  settings._staged
    (block_settings.autoUpdate scenario.toy_index [scenario.gain; scenario.label]
       [("gain", scenario.pmt_int 5); ("label", scenario.pmt_int 1)] scenario.untouched)
  !! "gain" = Some (scenario.pmt_int 5).
Proof.
  assert (Hnd : NoDup [("gain", scenario.pmt_int 5); ("label", scenario.pmt_int 1)].*1).
  { apply (bool_decide_unpack _). vm_compute. exact I. }
  destruct (autoUpdate_stages_listed_keys scenario.toy_index
              [scenario.gain; scenario.label]
              [("gain", scenario.pmt_int 5); ("label", scenario.pmt_int 1)]
              scenario.untouched Hnd) as (_ & Hin & _).
  apply Hin.
  - left.
  - apply (bool_decide_unpack _). vm_compute. exact I.
  - reflexivity.
Defined.

(** The theorem at the same block: [gain] set to 3, then a tag with
    [gain] 5. *)
Lemma explicit_set_survives_autoUpdate_witness :
  exists ret st',
    settings.set scenario.toy_index scenario.overwrite [scenario.gain; scenario.label]
      [("gain", scenario.pmt_int 3)] scenario.untouched
    = settings.Normal ret st'
    /\ settings._staged
         (block_settings.autoUpdate scenario.toy_index [scenario.gain; scenario.label]
            [("gain", scenario.pmt_int 5)] st')
       !! "gain" = Some (scenario.pmt_int 3).
Proof.
  destruct (explicit_set_survives_autoUpdate scenario.toy_index scenario.overwrite
              [scenario.gain; scenario.label] [("gain", scenario.pmt_int 3)]
              scenario.untouched "gain" (scenario.pmt_int 3))
    as (ret & st' & Heq & Htags).
  - apply (bool_decide_unpack _). vm_compute. exact I.
  - intros k v Hkv.
    apply elem_of_cons in Hkv as [Hkv|Hkv]; [injection Hkv as -> ->; reflexivity|].
    apply elem_of_nil in Hkv. destruct Hkv.
  - left.
  - reflexivity.
  - exists ret, st'. split; [exact Heq|]. apply Htags.
    apply (bool_decide_unpack _). vm_compute. exact I.
Defined.

(** ** [BasicSettings::get] and [SettingsCtx::operator<] *)

Section get_facts.
Import settings.
Context {pmt : Type}.

Lemma get_fold (active : gmap string pmt) (keys : list string) (ret : gmap string pmt)
    (k : string) :
  fold_left
    (fun ret key => match active !! key with Some v => <[key := v]> ret | None => ret end)
    keys ret !! k
  = if bool_decide (k ∈ keys)
    then match active !! k with Some v => Some v | None => ret !! k end
    else ret !! k.
Proof.
  revert ret. induction keys as [|key keys IH]; intros ret; [reflexivity|].
  cbn [fold_left]. rewrite IH.
  destruct (decide (k = key)) as [->|Hne].
  - rewrite (bool_decide_eq_true_2 (key ∈ key :: keys)) by left.
    destruct (active !! key) as [v|] eqn:Hv.
    + rewrite lookup_insert_eq. destruct (bool_decide (key ∈ keys)); reflexivity.
    + destruct (bool_decide (key ∈ keys)); reflexivity.
  - assert (Hret : match active !! key with Some v => <[key := v]> ret | None => ret end
                   !! k = ret !! k).
    { destruct (active !! key); [|reflexivity]. apply lookup_insert_ne. congruence. }
    rewrite Hret.
    destruct (decide (k ∈ keys)) as [Hin|Hin].
    + rewrite !bool_decide_eq_true_2; [reflexivity|right; exact Hin|exact Hin].
    + rewrite !bool_decide_eq_false_2; [reflexivity| |exact Hin].
      intros Hc. apply elem_of_cons in Hc as [?|?]; contradiction.
Qed.

(** X19.  [get(parameter_keys)] returns the active settings restricted to
    the keys asked for: a key that is asked for and active comes with its
    active value, any other key is absent.  The empty span is the
    exception: it returns every active setting.  For one key the map
    agrees with [get(parameter_key)]. *)
Theorem get_restricts_active (parameter_keys : list string) (st : block_settings.t (pmt := pmt)) :
  (parameter_keys = [] ->
   block_settings.get parameter_keys st = block_settings._active st)
  /\ (parameter_keys <> [] ->
      forall k, block_settings.get parameter_keys st !! k
                = if bool_decide (k ∈ parameter_keys)
                  then block_settings._active st !! k else None)
  /\ block_settings.get parameter_keys st ⊆ block_settings._active st
  /\ (forall k, block_settings.get [k] st !! k = block_settings.get_key k st).
Proof.
  assert (Hne : parameter_keys <> [] ->
                forall k, block_settings.get parameter_keys st !! k
                          = if bool_decide (k ∈ parameter_keys)
                            then block_settings._active st !! k else None).
  { intros Hne k. destruct parameter_keys as [|key keys]; [contradiction|].
    unfold block_settings.get. rewrite get_fold, lookup_empty.
    destruct (bool_decide _); [|reflexivity].
    destruct (block_settings._active st !! k); reflexivity. }
  split; [intros ->; reflexivity|]. split; [exact Hne|]. split.
  - destruct parameter_keys as [|key keys]; [reflexivity|].
    apply map_subseteq_spec. intros k v. rewrite Hne by discriminate.
    destruct (bool_decide _); [auto|discriminate].
  - intros k. unfold block_settings.get, block_settings.get_key.
    rewrite get_fold, lookup_empty.
    rewrite bool_decide_eq_true_2 by left.
    destruct (block_settings._active st !! k); reflexivity.
Qed.

(** X20.  [SettingsCtx::operator<] orders by time stamp only and is not a
    strict order.  A context without a time stamp is less than every
    context, itself included, so the relation is not irreflexive, and two
    such contexts are each less than the other.  A context with a time
    stamp is less than exactly the contexts with a later one.  The
    relation is transitive. *)
Theorem SettingsCtx_less_not_strict :
  (forall a b : block_settings.SettingsCtx (pmt := pmt),
     block_settings.time a = None -> block_settings.ctx_lt a b = true)
  /\ (forall a b : block_settings.SettingsCtx (pmt := pmt), forall ta,
        block_settings.time a = Some ta ->
        (block_settings.ctx_lt a b = true
         <-> exists tb, block_settings.time b = Some tb /\ (ta < tb)%Z))
  /\ (forall a : block_settings.SettingsCtx (pmt := pmt),
        block_settings.ctx_lt a a = true <-> block_settings.time a = None)
  /\ (forall a b c : block_settings.SettingsCtx (pmt := pmt),
        block_settings.ctx_lt a b = true -> block_settings.ctx_lt b c = true ->
        block_settings.ctx_lt a c = true).
Proof.
  assert (Hnone : forall a b : block_settings.SettingsCtx (pmt := pmt),
            block_settings.time a = None -> block_settings.ctx_lt a b = true).
  { intros a b Ha. unfold block_settings.ctx_lt. rewrite Ha. reflexivity. }
  assert (Hsome : forall a b : block_settings.SettingsCtx (pmt := pmt), forall ta,
            block_settings.time a = Some ta ->
            (block_settings.ctx_lt a b = true
             <-> exists tb, block_settings.time b = Some tb /\ (ta < tb)%Z)).
  { intros a b ta Ha. unfold block_settings.ctx_lt. rewrite Ha.
    rewrite bool_decide_eq_true_2 by eauto. cbn [negb orb].
    destruct (block_settings.time b) as [tb|].
    - rewrite bool_decide_eq_true. split; [eauto|]. intros (tb' & [= <-] & Hlt). exact Hlt.
    - split; [discriminate|]. intros (tb & Hc & _). discriminate. }
  split; [exact Hnone|]. split; [exact Hsome|]. split.
  - intros a. destruct (block_settings.time a) as [ta|] eqn:Ha.
    + rewrite (Hsome a a ta Ha). split; [|discriminate].
      intros (tb & Hb & Hlt). rewrite Ha in Hb. injection Hb as <-. lia.
    + split; [reflexivity|]. intros _. apply Hnone, Ha.
  - intros a b c Hab Hbc. destruct (block_settings.time a) as [ta|] eqn:Ha.
    + apply (Hsome a b ta Ha) in Hab as (tb & Hb & Hlt).
      apply (Hsome b c tb Hb) in Hbc as (tc & Hc & Hlt').
      apply (Hsome a c ta Ha). exists tc. split; [exact Hc|lia].
    + apply Hnone, Ha.
Qed.

End get_facts.

(** ** [BasicSettings::applyStagedParameters] *)

Section apply_facts.
Import settings block_settings.
Context {pmt : Type} (index : pmt -> nat).
Context (validate_and_set : field (pmt := pmt) -> pmt -> bool * pmt)
        (settingsChanged : settingsChanged_t (pmt := pmt)).

Lemma cond_insert_eq (c : bool) (k : string) (v : pmt) (m : gmap string pmt) :
  (if c then <[k := v]> m else m) !! k = if c then Some v else m !! k.
Proof. destruct c; [apply lookup_insert_eq|reflexivity]. Qed.

Lemma cond_insert_ne (c : bool) (k k' : string) (v : pmt) (m : gmap string pmt) :
  k' <> k -> (if c then <[k := v]> m else m) !! k' = m !! k'.
Proof. intros Hne. destruct c; [apply lookup_insert_ne; congruence|reflexivity]. Qed.

Lemma touch_static (key : string) (v : pmt) (f : field) :
  desc (touch index validate_and_set key v f) = desc f
  /\ is_readable (touch index validate_and_set key v f) = is_readable f
  /\ is_annotated (touch index validate_and_set key v f) = is_annotated f.
Proof.
  unfold touch. destruct (takes index f key v); [|auto].
  destruct (is_annotated f) eqn:Han; cbn; auto.
Qed.

Lemma touch_other (key : string) (v : pmt) (f : field) :
  field_name f <> key -> touch index validate_and_set key v f = f.
Proof.
  intros Hne. unfold touch, takes. fold (field_name f).
  rewrite (bool_decide_eq_false_2 _ Hne), andb_false_r. reflexivity.
Qed.

Lemma touch_name (key : string) (v : pmt) (f : field) :
  field_name (touch index validate_and_set key v f) = field_name f.
Proof. unfold field_name. rewrite (proj1 (touch_static key v f)). reflexivity. Qed.

Lemma applies_touch (k k0 : string) (v v0 : pmt) (f : field) :
  k <> k0 ->
  applies index validate_and_set k v (touch index validate_and_set k0 v0 f)
  = applies index validate_and_set k v f.
Proof.
  intros Hne. destruct (decide (field_name f = k0)) as [Hn|Hn].
  - unfold applies, takes. rewrite (proj1 (touch_static k0 v0 f)).
    fold (field_name f). rewrite Hn.
    rewrite (bool_decide_eq_false_2 (k0 = k)) by congruence.
    rewrite !andb_false_r. reflexivity.
  - rewrite touch_other by exact Hn. reflexivity.
Qed.

Lemma existsb_applies_touch (k k0 : string) (v v0 : pmt) (fields : list field) :
  k <> k0 ->
  existsb (applies index validate_and_set k v)
    (map (touch index validate_and_set k0 v0) fields)
  = existsb (applies index validate_and_set k v) fields.
Proof.
  intros Hne. induction fields as [|f fields IH]; [reflexivity|].
  cbn [map existsb]. rewrite IH, applies_touch by exact Hne. reflexivity.
Qed.

Lemma existsb_settable_touch (k0 : string) (v0 : pmt) (fields : list field) :
  existsb (fun f => settable (desc f)) (map (touch index validate_and_set k0 v0) fields)
  = existsb (fun f => settable (desc f)) fields.
Proof.
  induction fields as [|f fields IH]; [reflexivity|].
  cbn [map existsb]. rewrite IH, (proj1 (touch_static k0 v0 f)). reflexivity.
Qed.

Lemma touch_all_static (l : list (string * pmt)) (f : field) :
  desc (touch_all index validate_and_set l f) = desc f
  /\ is_readable (touch_all index validate_and_set l f) = is_readable f
  /\ is_annotated (touch_all index validate_and_set l f) = is_annotated f.
Proof.
  revert f. induction l as [|[k v] l IH]; intros f; [auto|].
  cbn [touch_all fold_left fst snd].
  destruct (IH (touch index validate_and_set k v f)) as (H1 & H2 & H3).
  destruct (touch_static k v f) as (G1 & G2 & G3).
  unfold touch_all in H1, H2, H3. rewrite H1, H2, H3. auto.
Qed.

Lemma touch_all_notin (l : list (string * pmt)) (f : field) :
  field_name f ∉ l.*1 -> touch_all index validate_and_set l f = f.
Proof.
  revert f. induction l as [|[k v] l IH]; intros f Hn; [reflexivity|].
  change (field_name f ∉ k :: l.*1) in Hn. apply not_elem_of_cons in Hn as [Hne Hn].
  cbn [touch_all fold_left fst snd]. rewrite touch_other by exact Hne.
  apply IH, Hn.
Qed.

Lemma touch_all_in (l : list (string * pmt)) (f : field) (k : string) (v : pmt) :
  NoDup l.*1 -> (k, v) ∈ l -> field_name f = k ->
  touch_all index validate_and_set l f = touch index validate_and_set k v f.
Proof.
  revert f. induction l as [|[k0 v0] l IH]; intros f Hnd Hin Hname.
  - apply elem_of_nil in Hin. destruct Hin.
  - change (NoDup (k0 :: l.*1)) in Hnd. apply NoDup_cons in Hnd as [Hk0 Hnd].
    cbn [touch_all fold_left fst snd].
    apply elem_of_cons in Hin as [Heq|Hin].
    + injection Heq as <- <-. apply touch_all_notin.
      rewrite touch_name, Hname. exact Hk0.
    + assert (Hne : field_name f <> k0).
      { rewrite Hname. intros ->. apply Hk0. apply list_elem_of_fmap.
        exists (k0, v). auto. }
      rewrite touch_other by exact Hne. apply IH; assumption.
Qed.

Lemma apply_member_changes_eq (af : gset string) (key : string) (v : pmt) (f : field)
    (a : apply_locals) :
  apply_member_changes index validate_and_set settingsChanged af key v f a
  = (touch index validate_and_set key v f,
     let a1 := if applies index validate_and_set key v f
               then mark_applied settingsChanged key v a else a in
     if settable (desc f) && bool_decide (key ∈ af) then mark_forward key v a1 else a1).
Proof.
  unfold apply_member_changes, touch, applies, takes.
  destruct (settable (desc f)); [|reflexivity].
  destruct (bool_decide (display_name (desc f) = key)); [|reflexivity].
  destruct (holds_alternative index (desc f) v); [|reflexivity].
  cbn [andb]. destruct (is_annotated f); cbn [negb orb]; [|reflexivity].
  destruct (validate_and_set f v) as [[] v']; reflexivity.
Qed.

Lemma process_members_eq (af : gset string) (key : string) (v : pmt)
    (fields : list field) (a : apply_locals) :
  let r := process_members index validate_and_set settingsChanged af key v fields a in
  r.1 = map (touch index validate_and_set key v) fields
  /\ appliedParameters (result r.2)
     = (if existsb (applies index validate_and_set key v) fields
        then <[key := v]> (appliedParameters (result a))
        else appliedParameters (result a))
  /\ forwardParameters (result r.2)
     = (if bool_decide (key ∈ af) && existsb (fun f => settable (desc f)) fields
        then <[key := v]> (forwardParameters (result a))
        else forwardParameters (result a))
  /\ staged r.2
     = (if HasSettingsChangedCallback settingsChanged
           && existsb (applies index validate_and_set key v) fields
        then <[key := v]> (staged a)
        else staged a).
Proof.
  revert a. induction fields as [|f fields IH]; intros a.
  - cbn. rewrite !andb_false_r. auto.
  - cbn [process_members]. rewrite apply_member_changes_eq. cbv zeta.
    set (a1 := if settable (desc f) && bool_decide (key ∈ af)
               then mark_forward key v
                      (if applies index validate_and_set key v f
                       then mark_applied settingsChanged key v a else a)
               else if applies index validate_and_set key v f
                    then mark_applied settingsChanged key v a else a).
    specialize (IH a1). cbv zeta in IH.
    destruct (process_members index validate_and_set settingsChanged af key v fields a1)
      as [rest1 a2].
    cbn [fst snd] in *. destruct IH as (Hf & Happ & Hfwd & Hst).
    cbn [map existsb]. split; [rewrite Hf; reflexivity|].
    rewrite Happ, Hfwd, Hst. subst a1.
    destruct (applies index validate_and_set key v f),
      (settable (desc f)), (bool_decide (key ∈ af)),
      (existsb (applies index validate_and_set key v) fields),
      (existsb (fun f => settable (desc f)) fields),
      (HasSettingsChangedCallback settingsChanged) eqn:Hcb;
      cbn; rewrite ?Hcb, ?insert_insert_eq; auto.
Qed.

Lemma apply_loop_cons (af : gset string) (k : string) (v : pmt)
    (l : list (string * pmt)) (fields : list field) (a : apply_locals) :
  apply_loop index validate_and_set settingsChanged af ((k, v) :: l) fields a
  = apply_loop index validate_and_set settingsChanged af l
      (process_members index validate_and_set settingsChanged af k v fields a).1
      (process_members index validate_and_set settingsChanged af k v fields a).2.
Proof.
  unfold apply_loop. cbn [fold_left fst snd].
  destruct (process_members index validate_and_set settingsChanged af k v fields a).
  reflexivity.
Qed.

Lemma apply_loop_spec (af : gset string) (l : list (string * pmt))
    (fields : list field) (a : apply_locals) :
  NoDup l.*1 ->
  let r := apply_loop index validate_and_set settingsChanged af l fields a in
  r.1 = map (touch_all index validate_and_set l) fields
  /\ (forall k v, (k, v) ∈ l ->
        appliedParameters (result r.2) !! k
        = (if existsb (applies index validate_and_set k v) fields
           then Some v else appliedParameters (result a) !! k)
        /\ forwardParameters (result r.2) !! k
           = (if bool_decide (k ∈ af) && existsb (fun f => settable (desc f)) fields
              then Some v else forwardParameters (result a) !! k)
        /\ staged r.2 !! k
           = (if HasSettingsChangedCallback settingsChanged
                 && existsb (applies index validate_and_set k v) fields
              then Some v else staged a !! k))
  /\ (forall k, k ∉ l.*1 ->
        appliedParameters (result r.2) !! k = appliedParameters (result a) !! k
        /\ forwardParameters (result r.2) !! k = forwardParameters (result a) !! k
        /\ staged r.2 !! k = staged a !! k).
Proof.
  revert fields a. induction l as [|[k0 v0] l IH]; intros fields a Hnd r.
  - subst r. cbn. split; [symmetry; apply map_id|]. split; [|auto].
    intros k v Hin. apply elem_of_nil in Hin. destruct Hin.
  - change (NoDup (k0 :: l.*1)) in Hnd. apply NoDup_cons in Hnd as [Hk0 Hnd].
    subst r. rewrite apply_loop_cons.
    destruct (process_members_eq af k0 v0 fields a) as (Hf1 & Happ1 & Hfwd1 & Hst1).
    set (p := process_members index validate_and_set settingsChanged af k0 v0 fields a)
      in *.
    destruct (IH p.1 p.2 Hnd) as (Hf & Hin & Hout).
    split; [|split].
    + rewrite Hf, Hf1, map_map. reflexivity.
    + intros k v Hkv. apply elem_of_cons in Hkv as [Heq|Hkv].
      * injection Heq as -> ->. destruct (Hout k0 Hk0) as (-> & -> & ->).
        rewrite Happ1, Hfwd1, Hst1, !cond_insert_eq. auto.
      * assert (Hne : k <> k0).
        { intros ->. apply Hk0. apply list_elem_of_fmap. exists (k0, v). auto. }
        destruct (Hin k v Hkv) as (-> & -> & ->).
        rewrite Hf1, existsb_applies_touch, existsb_settable_touch by exact Hne.
        rewrite Happ1, Hfwd1, Hst1, !cond_insert_ne by exact Hne. auto.
    + intros k Hk. change (k ∉ k0 :: l.*1) in Hk.
      apply not_elem_of_cons in Hk as [Hne Hk].
      destruct (Hout k Hk) as (-> & -> & ->).
      rewrite Happ1, Hfwd1, Hst1, !cond_insert_ne by exact Hne. auto.
Qed.

(** The staged map in iteration order. *)
Lemma entries_elem (m : gmap string pmt) (k : string) (v : pmt) :
  (k, v) ∈ entries m <-> m !! k = Some v.
Proof.
  unfold entries. rewrite merge_sort_Permutation. apply elem_of_map_to_list.
Qed.

Lemma entries_NoDup (m : gmap string pmt) : NoDup (entries m).*1.
Proof.
  unfold entries. rewrite merge_sort_Permutation. apply NoDup_fst_map_to_list.
Qed.

Lemma entries_keys (m : gmap string pmt) (k : string) :
  k ∉ (entries m).*1 <-> m !! k = None.
Proof.
  rewrite eq_None_not_Some. apply not_iff_compat.
  rewrite list_elem_of_fmap. split.
  - intros ([k' v] & -> & Hin). apply entries_elem in Hin. eauto.
  - intros [v Hv]. exists (k, v). split; [reflexivity|]. apply entries_elem, Hv.
Qed.

(** Every member is changed by the staged entry under its own name
    only. *)
Lemma touch_all_entries (m : gmap string pmt) (f : field) :
  touch_all index validate_and_set (entries m) f
  = match m !! field_name f with
    | Some v => touch index validate_and_set (field_name f) v f
    | None => f
    end.
Proof.
  destruct (m !! field_name f) as [v|] eqn:Hm.
  - apply touch_all_in; [apply entries_NoDup|apply entries_elem, Hm|reflexivity].
  - apply touch_all_notin, entries_keys, Hm.
Qed.

(** [storeDefaultSettings] and the map it fills. *)
Lemma storeDefaultSettings_notin (m : gmap string pmt) (fields : list field) (k : string) :
  k ∉ map field_name fields -> storeDefaultSettings m fields !! k = m !! k.
Proof.
  revert m. induction fields as [|f fields IH]; intros m Hk; [reflexivity|].
  cbn [map] in Hk. apply not_elem_of_cons in Hk as [Hne Hk].
  unfold storeDefaultSettings. cbn [fold_left].
  fold (storeDefaultSettings
          (if readable f then <[display_name (desc f) := value f]> m else m) fields).
  rewrite (IH _ Hk). apply cond_insert_ne. exact Hne.
Qed.

Lemma storeDefaultSettings_unique (m : gmap string pmt) (fields : list field) (f : field) :
  NoDup (map field_name fields) -> f ∈ fields -> readable f = true ->
  storeDefaultSettings m fields !! field_name f = Some (value f).
Proof.
  revert m. induction fields as [|f0 fields IH]; intros m Hnd Hin Hr.
  - apply elem_of_nil in Hin. destruct Hin.
  - cbn [map] in Hnd. apply NoDup_cons in Hnd as [Hf0 Hnd].
    unfold storeDefaultSettings. cbn [fold_left].
    fold (storeDefaultSettings
            (if readable f0 then <[display_name (desc f0) := value f0]> m else m) fields).
    apply elem_of_cons in Hin as [->|Hin].
    + rewrite (storeDefaultSettings_notin _ _ _ Hf0), Hr. apply lookup_insert_eq.
    + apply IH; assumption.
Qed.

Lemma storeDefaultSettings_unreadable (m : gmap string pmt) (fields : list field)
    (k : string) :
  (forall f, f ∈ fields -> field_name f = k -> readable f = false) ->
  storeDefaultSettings m fields !! k = m !! k.
Proof.
  revert m. induction fields as [|f fields IH]; intros m Hk; [reflexivity|].
  unfold storeDefaultSettings. cbn [fold_left].
  fold (storeDefaultSettings
          (if readable f then <[display_name (desc f) := value f]> m else m) fields).
  rewrite IH by (intros f' Hf'; apply Hk; right; exact Hf').
  destruct (decide (field_name f = k)) as [Hn|Hn].
  - rewrite (Hk f ltac:(left) Hn). reflexivity.
  - apply cond_insert_ne. unfold field_name in Hn. congruence.
Qed.

Context (reset : option (block_state (pmt := pmt) -> block_state (pmt := pmt)))
        (RESET_DEFAULTS STORE_DEFAULTS : string).

(** The shape of a returning call. *)
Lemma applyStagedParameters_returned (st : t) :
  _staged (core st) !! RESET_DEFAULTS = None ->
  let r := apply_loop index validate_and_set settingsChanged (_auto_forward st)
             (entries (_staged (core st))) (_block st)
             (mk_apply_locals (mk_result ∅ ∅) ∅) in
  exists forward fields meta defaults,
    applyStagedParameters index validate_and_set settingsChanged reset
      RESET_DEFAULTS STORE_DEFAULTS st
    = Returned (mk_result forward (appliedParameters (result r.2)))
        (mk (mk_settings ∅ (_auto_update (core st)) false meta) fields
           (storeDefaultSettings (_active st) r.1) (_auto_forward st) defaults)
    /\ (staged r.2 = ∅ \/ settingsChanged = no_settingsChanged ->
        forward = forwardParameters (result r.2) /\ fields = r.1
        /\ meta = meta_information (core st))
    /\ ((forall f, settingsChanged <> old_new_forward f) ->
        forward = forwardParameters (result r.2))
    /\ (_staged (core st) !! STORE_DEFAULTS = None -> defaults = _default_settings st).
Proof.
  intros Hreset r. subst r. unfold applyStagedParameters.
  assert (Hno : ~ is_Some (_staged (core st) !! RESET_DEFAULTS)).
  { rewrite Hreset. intros [? ?]. discriminate. }
  rewrite decide_False by exact Hno.
  destruct (apply_loop index validate_and_set settingsChanged (_auto_forward st)
              (entries (_staged (core st))) (_block st)
              (mk_apply_locals (mk_result ∅ ∅) ∅)) as [fields a].
  cbn [fst snd].
  assert (Hres : forall (fm : list field * option (gmap string pmt)),
            (let '(fields0, meta0) :=
               match reset with
               | Some r0 =>
                   if decide (is_Some (_staged (core st) !! RESET_DEFAULTS))
                   then r0 fm else fm
               | None => fm
               end in (fields0, meta0)) = fm).
  { intros [f0 m0]. destruct reset; [rewrite decide_False by exact Hno|]; reflexivity. }
  assert (Hdef : forall fs,
            _staged (core st) !! STORE_DEFAULTS = None ->
            (if decide (is_Some (_staged (core st) !! STORE_DEFAULTS))
             then storeDefaultSettings (_default_settings st) fs
             else _default_settings st) = _default_settings st).
  { intros fs Hs. rewrite decide_False; [reflexivity|].
    rewrite Hs. intros [? ?]. discriminate. }
  destruct (decide (staged a = ∅)) as [Hempty|Hnonempty].
  - destruct reset as [r0|]; [rewrite decide_False by exact Hno|];
      (eexists _, _, _, _; split; [reflexivity|]; auto).
  - destruct settingsChanged as [|cb|cb].
    + destruct reset as [r0|]; [rewrite decide_False by exact Hno|];
        (eexists _, _, _, _; split; [reflexivity|]; auto).
    + destruct (cb _ (staged a) (fields, meta_information (core st))) as [fs mt].
      destruct reset as [r0|]; [rewrite decide_False by exact Hno|];
        (eexists _, _, _, _; split; [reflexivity|]; split; [|auto];
         intros [?|?]; [contradiction|discriminate]).
    + destruct (cb _ (staged a) (forwardParameters (result a))
                  (fields, meta_information (core st))) as [fw [fs mt]].
      destruct reset as [r0|]; [rewrite decide_False by exact Hno|];
        (eexists _, _, _, _; split; [reflexivity|]; split;
         [intros [?|?]; [contradiction|discriminate]|]; split; [|auto];
         intros Hcb; exfalso; apply (Hcb cb); reflexivity).
Qed.

End apply_facts.

Section apply_theorems.
Import settings block_settings.
Context {pmt : Type} (index : pmt -> nat).
Context (validate_and_set : field (pmt := pmt) -> pmt -> bool * pmt)
        (settingsChanged : settingsChanged_t (pmt := pmt))
        (reset : option (block_state (pmt := pmt) -> block_state (pmt := pmt)))
        (RESET_DEFAULTS STORE_DEFAULTS : string).

Lemma apply_loop_staged (st : t) :
  let r := apply_loop index validate_and_set settingsChanged (_auto_forward st)
             (entries (_staged (core st))) (_block st)
             (mk_apply_locals (mk_result ∅ ∅) ∅) in
  r.1 = map (after_apply index validate_and_set (_staged (core st))) (_block st)
  /\ (forall k v,
        appliedParameters (result r.2) !! k = Some v
        <-> _staged (core st) !! k = Some v
            /\ existsb (applies index validate_and_set k v) (_block st) = true)
  /\ (forall k v,
        forwardParameters (result r.2) !! k = Some v
        <-> _staged (core st) !! k = Some v /\ k ∈ _auto_forward st
            /\ existsb (fun f => settable (desc f)) (_block st) = true).
Proof.
  intros r.
  destruct (apply_loop_spec index validate_and_set settingsChanged (_auto_forward st)
              (entries (_staged (core st))) (_block st)
              (mk_apply_locals (mk_result ∅ ∅) ∅) (entries_NoDup _))
    as (Hf & Hin & Hout).
  fold r in Hf, Hin, Hout. cbn [result appliedParameters forwardParameters staged] in *.
  split; [|split].
  - rewrite Hf. apply map_ext. intros f. apply touch_all_entries.
  - intros k v. destruct (_staged (core st) !! k) as [v'|] eqn:Hk.
    + destruct (Hin k v' (proj2 (entries_elem _ _ _) Hk)) as (-> & _).
      rewrite lookup_empty.
      destruct (existsb (applies index validate_and_set k v') (_block st)) eqn:He.
      * split; [intros [= <-]; auto|]. intros ([= <-] & _). reflexivity.
      * split; [discriminate|]. intros ([= <-] & Hc). congruence.
    + destruct (Hout k (proj2 (entries_keys _ _) Hk)) as (-> & _).
      rewrite lookup_empty. split; [discriminate|]. intros (Hc & _). discriminate.
  - intros k v. destruct (_staged (core st) !! k) as [v'|] eqn:Hk.
    + destruct (Hin k v' (proj2 (entries_elem _ _ _) Hk)) as (_ & -> & _).
      rewrite lookup_empty.
      destruct (decide (k ∈ _auto_forward st)) as [Haf|Haf].
      * rewrite (bool_decide_eq_true_2 _ Haf). cbn [andb].
        destruct (existsb (fun f => settable (desc f)) (_block st)).
        -- split; [intros [= <-]; auto|]. intros ([= <-] & _). reflexivity.
        -- split; [discriminate|]. intros (_ & _ & Hc). discriminate.
      * rewrite (bool_decide_eq_false_2 _ Haf). cbn [andb].
        split; [discriminate|]. intros (_ & Hc & _). contradiction.
    + destruct (Hout k (proj2 (entries_keys _ _) Hk)) as (_ & -> & _).
      rewrite lookup_empty. split; [discriminate|]. intros (Hc & _). discriminate.
Qed.

(** X21.  [applyStagedParameters] with no RESET_DEFAULTS key among the
    staged parameters.  The call returns with the staged map empty and
    the changed flag down.  [appliedParameters] is a part of what was
    staged: an entry is in it exactly when some settable member has its
    key as name and its value's type and, if the member is annotated,
    [validate_and_set] accepted the value.  The active map is refreshed
    from the members as the loop left them, each member changed by the
    entry under its own name at most; without a [settingsChanged]
    callback that is also the block the call leaves. *)
Theorem applyStagedParameters_applies_staged (st : t) :
  _staged (core st) !! RESET_DEFAULTS = None ->
  exists r st',
    applyStagedParameters index validate_and_set settingsChanged reset
      RESET_DEFAULTS STORE_DEFAULTS st = Returned r st'
    /\ stagedParameters st' = ∅
    /\ _changed (core st') = false
    /\ _auto_update (core st') = _auto_update (core st)
    /\ appliedParameters r ⊆ _staged (core st)
    /\ (forall k v,
          appliedParameters r !! k = Some v
          <-> _staged (core st) !! k = Some v
              /\ existsb (applies index validate_and_set k v) (_block st) = true)
    /\ _active st'
       = storeDefaultSettings (_active st)
           (map (after_apply index validate_and_set (_staged (core st))) (_block st))
    /\ (settingsChanged = no_settingsChanged ->
        _block st'
        = map (after_apply index validate_and_set (_staged (core st))) (_block st)).
Proof.
  intros Hreset.
  destruct (applyStagedParameters_returned index validate_and_set settingsChanged reset
              RESET_DEFAULTS STORE_DEFAULTS st Hreset)
    as (forward & fields & meta & defaults & Heq & Hcb & _ & _).
  destruct (apply_loop_staged st) as (Hf & Happ & _).
  cbv zeta in Heq, Hcb, Hf, Happ.
  set (r := apply_loop index validate_and_set settingsChanged (_auto_forward st)
              (entries (_staged (core st))) (_block st)
              (mk_apply_locals (mk_result ∅ ∅) ∅)) in *.
  eexists _, _. split; [exact Heq|].
  unfold stagedParameters.
  cbn [core _staged _changed _auto_update appliedParameters _active _block].
  split; [reflexivity|]. split; [reflexivity|]. split; [reflexivity|]. split.
  { apply map_subseteq_spec. intros k v Hk. apply Happ in Hk. tauto. }
  split; [exact Happ|]. split; [rewrite Hf; reflexivity|].
  intros Hno. destruct (Hcb (or_intror Hno)) as (_ & -> & _). exact Hf.
Qed.

(** X22.  What [applyStagedParameters] forwards, for a block whose
    [settingsChanged] does not take the forward settings.  A staged entry
    is forwarded exactly when its key is on the auto-forward list and the
    block has a settable member at all: the test sits in the member
    lambda beside the assignment, not under it.  So an entry that no
    member applied, for one because [validate_and_set] turned the value
    down, is forwarded to the blocks downstream all the same. *)
Theorem forwardParameters_not_tied_to_applied (st : t) :
  _staged (core st) !! RESET_DEFAULTS = None ->
  (forall f, settingsChanged <> old_new_forward f) ->
  exists r st',
    applyStagedParameters index validate_and_set settingsChanged reset
      RESET_DEFAULTS STORE_DEFAULTS st = Returned r st'
    /\ (forall k v,
          forwardParameters r !! k = Some v
          <-> _staged (core st) !! k = Some v /\ k ∈ _auto_forward st
              /\ existsb (fun f => settable (desc f)) (_block st) = true)
    /\ (forall k v,
          _staged (core st) !! k = Some v -> k ∈ _auto_forward st ->
          existsb (fun f => settable (desc f)) (_block st) = true ->
          existsb (applies index validate_and_set k v) (_block st) = false ->
          forwardParameters r !! k = Some v /\ appliedParameters r !! k = None).
Proof.
  intros Hreset Hcb.
  destruct (applyStagedParameters_returned index validate_and_set settingsChanged reset
              RESET_DEFAULTS STORE_DEFAULTS st Hreset)
    as (forward & fields & meta & defaults & Heq & _ & Hfwd & _).
  destruct (apply_loop_staged st) as (_ & Happ & Hfw).
  cbv zeta in Heq, Hfwd, Happ, Hfw.
  set (r := apply_loop index validate_and_set settingsChanged (_auto_forward st)
              (entries (_staged (core st))) (_block st)
              (mk_apply_locals (mk_result ∅ ∅) ∅)) in *.
  rewrite (Hfwd Hcb) in Heq.
  eexists _, _. split; [exact Heq|].
  cbn [forwardParameters appliedParameters].
  split; [exact Hfw|].
  intros k v Hk Haf Hset Hnot. split; [apply Hfw; auto|].
  destruct (appliedParameters (result r.2) !! k) as [v'|] eqn:Ha; [|reflexivity].
  apply Happ in Ha as (Hk' & Hc). rewrite Hk in Hk'. injection Hk' as <-. congruence.
Qed.

Context (updateMaps : gmap string pmt -> gmap string pmt -> gmap string pmt).

(** X23.  From [set] to [get].  A key set with a value of the type of the
    settable, readable, not annotated member it names, in a block whose
    members have distinct names: [set] stages it, the next
    [applyStagedParameters] reports it as applied and empties the staged
    map, and afterwards [get] returns the value under the key. *)
Theorem set_apply_get_round_trip (parameters : list (string * pmt)) (st : t)
    (key : string) (value : pmt) (f : field) :
  NoDup parameters.*1 ->
  (forall k v, (k, v) ∈ parameters -> rejects index (map desc (_block st)) k v = false) ->
  (key, value) ∈ parameters ->
  RESET_DEFAULTS ∉ parameters.*1 ->
  _staged (core st) !! RESET_DEFAULTS = None ->
  NoDup (map field_name (_block st)) ->
  f ∈ _block st ->
  field_name f = key ->
  settable (desc f) = true -> readable f = true -> is_annotated f = false ->
  index value = type_index (desc f) ->
  exists ret c r st',
    set index updateMaps (map desc (_block st)) parameters (core st) = Normal ret c
    /\ _staged c !! key = Some value
    /\ applyStagedParameters index validate_and_set settingsChanged reset
         RESET_DEFAULTS STORE_DEFAULTS (with_core c st) = Returned r st'
    /\ appliedParameters r !! key = Some value
    /\ stagedParameters st' = ∅
    /\ get_key key st' = Some value
    /\ get [key] st' !! key = Some value.
Proof.
  intros Hnd Hrej Hin Hnoreset Hreset Hnames Hf Hname Hset Hread Hann Hty.
  assert (Htakes : takes index f key value = true).
  { unfold takes, holds_alternative. fold (field_name f).
    rewrite Hset, !bool_decide_eq_true_2 by assumption. reflexivity. }
  assert (Hacc : accepts index (map desc (_block st)) key value = true).
  { unfold accepts. apply existsb_exists. exists (desc f). split.
    - apply in_map, list_elem_of_In, Hf.
    - exact Htakes. }
  destruct (set_loop_normal index (map desc (_block st)) parameters ∅ (core st) Hnd Hrej)
    as (ret & c0 & Heq & _ & _ & Hkeys & Hout).
  pose proof (Hkeys key value Hin) as Hk. rewrite Hacc in Hk. destruct Hk as (Hst & _).
  destruct (Hout RESET_DEFAULTS Hnoreset) as (_ & Hr & _). rewrite Hreset in Hr.
  unfold set. rewrite Heq.
  set (c := mk_settings (_staged c0) (_auto_update c0) (_changed c0)
              (updateMaps ret <$> meta_information c0)).
  destruct (applyStagedParameters_returned index validate_and_set settingsChanged reset
              RESET_DEFAULTS STORE_DEFAULTS (with_core c st) Hr)
    as (forward & fields & meta & defaults & Happly & _).
  destruct (apply_loop_staged (with_core c st)) as (Hfields & Happ & _).
  cbv zeta in Happly, Hfields, Happ.
  cbn [with_core core _block _active _auto_forward _staged c] in Happly, Hfields, Happ.
  exists ret, c. eexists _, _.
  split; [reflexivity|]. split; [exact Hst|]. split; [exact Happly|].
  unfold stagedParameters, get_key, get.
  cbn [core _staged appliedParameters _active fold_left].
  assert (Hval : storeDefaultSettings (_active st)
                   (map (after_apply index validate_and_set (_staged c0)) (_block st))
                 !! key = Some value).
  { assert (Hf' : after_apply index validate_and_set (_staged c0) f
                  = with_value value f).
    { unfold after_apply. rewrite Hname, Hst. unfold touch.
      rewrite Htakes, Hann. reflexivity. }
    assert (Hnm : forall g, field_name (after_apply index validate_and_set (_staged c0) g)
                            = field_name g).
    { intros g. unfold after_apply. destruct (_staged c0 !! field_name g); [|reflexivity].
      apply touch_name. }
    pose proof (storeDefaultSettings_unique (_active st)
                  (map (after_apply index validate_and_set (_staged c0)) (_block st))
                  (with_value value f)) as Hu.
    replace (field_name (with_value value f)) with key in Hu
      by (rewrite <- Hname; reflexivity).
    apply Hu.
    - rewrite map_map. rewrite (map_ext _ field_name Hnm). exact Hnames.
    - rewrite <- Hf'. apply list_elem_of_fmap. exists f. auto.
    - exact Hread. }
  split.
  { apply Happ. split; [exact Hst|]. apply existsb_exists. exists f.
    split; [apply list_elem_of_In, Hf|]. unfold applies. rewrite Htakes, Hann. reflexivity. }
  split; [reflexivity|].
  rewrite Hfields, Hval. split; [reflexivity|]. apply lookup_insert_eq.
Qed.

End apply_theorems.

(** ** [storeDefaults] and [resetDefaults] *)

Section defaults.
Import settings block_settings.
Context {pmt : Type} (index : pmt -> nat).
Context (validate_and_set : field (pmt := pmt) -> pmt -> bool * pmt)
        (settingsChanged : settingsChanged_t (pmt := pmt))
        (reset : option (block_state (pmt := pmt) -> block_state (pmt := pmt)))
        (RESET_DEFAULTS STORE_DEFAULTS : string).

Lemma static_names (l l' : list (field (pmt := pmt))) :
  map static l = map static l' -> map field_name l = map field_name l'.
Proof.
  intros H.
  assert (Hn : forall l0 : list (field (pmt := pmt)),
            map field_name l0 = map (fun s : member * bool * bool => display_name s.1.1)
                                  (map static l0)).
  { intros l0. rewrite map_map. reflexivity. }
  rewrite (Hn l), (Hn l'), H. reflexivity.
Qed.

Lemma after_apply_name (m : gmap string pmt) (g : field (pmt := pmt)) :
  field_name (after_apply index validate_and_set m g) = field_name g.
Proof.
  unfold after_apply. destruct (m !! field_name g); [|reflexivity]. apply touch_name.
Qed.

(** X24.  [resetDefaults] takes a member back to what [storeDefaults]
    saved.  For a settable, readable, not annotated member of a block
    with distinct member names, whose value had the member's type when
    the defaults were stored: whatever values the members hold by now,
    and whatever was staged, [resetDefaults] returns with nothing staged
    and [get] gives the stored value under the member's name; unless a
    callback of the block steps in, the member itself holds it again. *)
Theorem resetDefaults_restores_stored (st0 st : t) (i : nat) (f0 : field) :
  _default_settings st = _default_settings (storeDefaults st0) ->
  _default_settings st !! RESET_DEFAULTS = None ->
  map static (_block st) = map static (_block st0) ->
  NoDup (map field_name (_block st0)) ->
  _block st0 !! i = Some f0 ->
  settable (desc f0) = true -> readable f0 = true -> is_annotated f0 = false ->
  index (value f0) = type_index (desc f0) ->
  exists st',
    resetDefaults index validate_and_set settingsChanged reset
      RESET_DEFAULTS STORE_DEFAULTS st = Returned tt st'
    /\ stagedParameters st' = ∅
    /\ get_key (field_name f0) st' = Some (value f0)
    /\ (settingsChanged = no_settingsChanged -> reset = None ->
        _block st' !! i = Some f0).
Proof.
  intros Hdef Hreset Hstatic Hnames Hi Hset Hread Hann Hty.
  set (D := _default_settings st) in *.
  assert (HD : D !! field_name f0 = Some (value f0)).
  { rewrite Hdef. unfold storeDefaults. cbn [_default_settings].
    apply storeDefaultSettings_unique; [exact Hnames| |exact Hread].
    eapply list_elem_of_lookup_2, Hi. }
  assert (Hf : exists f, _block st !! i = Some f /\ static f = static f0).
  { assert (Hl : map static (_block st) !! i = Some (static f0)).
    { rewrite Hstatic. change (map static (_block st0)) with (static <$> _block st0).
      rewrite list_lookup_fmap, Hi. reflexivity. }
    change (map static (_block st)) with (static <$> _block st) in Hl.
    rewrite list_lookup_fmap in Hl.
    destruct (_block st !! i) as [f|]; [|discriminate].
    exists f. split; [reflexivity|]. cbn in Hl. congruence. }
  destruct Hf as (f & Hfi & Hfs).
  assert (Hback : after_apply index validate_and_set D f = f0).
  { clear Hi Hfi. destruct f as [d r a v]. destruct f0 as [d0 r0 a0 v0].
    unfold static in Hfs. cbn [desc is_readable is_annotated] in Hfs.
    injection Hfs as -> -> ->.
    cbn [desc is_annotated value] in Hset, Hann, Hty.
    unfold field_name in HD. cbn [desc value] in HD.
    unfold after_apply, field_name. cbn [desc]. rewrite HD.
    unfold touch, takes, holds_alternative. cbn [desc is_annotated].
    rewrite Hset, Hann, !bool_decide_eq_true_2 by auto. reflexivity. }
  set (st2 := with_staged D st).
  assert (Hr2 : _staged (core st2) !! RESET_DEFAULTS = None) by exact Hreset.
  destruct (applyStagedParameters_returned index validate_and_set settingsChanged reset
              RESET_DEFAULTS STORE_DEFAULTS st2 Hr2)
    as (forward & fields & meta & defaults & Happly & Hcb & _).
  destruct (apply_loop_staged index validate_and_set settingsChanged st2) as (Hfields & _).
  cbv zeta in Happly, Hcb, Hfields.
  set (r := apply_loop index validate_and_set settingsChanged (_auto_forward st2)
              (entries (_staged (core st2))) (_block st2)
              (mk_apply_locals (mk_result ∅ ∅) ∅)) in *.
  change (_staged (core st2)) with D in Hfields.
  change (_block st2) with (_block st) in Hfields.
  change (_active st2) with (_active st) in Happly.
  assert (Hval : storeDefaultSettings (_active st) r.1 !! field_name f0 = Some (value f0)).
  { rewrite Hfields. apply storeDefaultSettings_unique; [| |exact Hread].
    - rewrite map_map.
      rewrite (map_ext _ field_name (after_apply_name D)).
      rewrite (static_names _ _ Hstatic). exact Hnames.
    - rewrite <- Hback. apply list_elem_of_fmap. exists f. split; [reflexivity|].
      eapply list_elem_of_lookup_2, Hfi. }
  unfold resetDefaults. fold D. fold st2. rewrite Happly.
  destruct reset as [r0|].
  - cbn [_block core meta_information].
    destruct (r0 (fields, meta)) as [fs mt].
    eexists. split; [reflexivity|]. unfold stagedParameters, get_key.
    cbn [core _staged _active]. split; [reflexivity|]. split; [exact Hval|].
    intros _ Hc. discriminate.
  - eexists. split; [reflexivity|]. unfold stagedParameters, get_key.
    cbn [core _staged _active _block]. split; [reflexivity|]. split; [exact Hval|].
    intros Hno _. destruct (Hcb (or_intror Hno)) as (_ & -> & _).
    rewrite Hfields. change (map ?g ?l) with (g <$> l).
    rewrite list_lookup_fmap, Hfi. cbn. rewrite Hback. reflexivity.
Qed.

End defaults.

(** The theorems at the amplifier block, without callbacks. *)
Lemma applyStagedParameters_applies_staged_witness :
  exists r st',
    block_settings.applyStagedParameters scenario.toy_index scenario.positive_only
      block_settings.no_settingsChanged None "reset_default" "store_default"
      (block_settings.with_staged {["gain" := scenario.pmt_int 7]}
         scenario.amplifier_settings)
    = block_settings.Returned r st'
    /\ block_settings.appliedParameters r !! "gain" = Some (scenario.pmt_int 7)
    /\ block_settings.stagedParameters st' = ∅.
Proof.
  destruct (applyStagedParameters_applies_staged scenario.toy_index
              scenario.positive_only block_settings.no_settingsChanged None
              "reset_default" "store_default"
              (block_settings.with_staged {["gain" := scenario.pmt_int 7]}
                 scenario.amplifier_settings))
    as (r & st' & Heq & Hst & _ & _ & _ & Happ & _).
  - vm_compute. reflexivity.
  - exists r, st'. split; [exact Heq|]. split; [|exact Hst].
    apply Happ. split; vm_compute; reflexivity.
Defined.

(** A negative [rate] is turned down by the field and forwarded. *)
Lemma forwardParameters_not_tied_to_applied_witness :
  exists r st',
    block_settings.applyStagedParameters scenario.toy_index scenario.positive_only
      block_settings.no_settingsChanged None "reset_default" "store_default"
      (block_settings.with_staged {["rate" := scenario.pmt_int (-5)]}
         scenario.amplifier_settings)
    = block_settings.Returned r st'
    /\ block_settings.forwardParameters r !! "rate" = Some (scenario.pmt_int (-5))
    /\ block_settings.appliedParameters r !! "rate" = None.
Proof.
  destruct (forwardParameters_not_tied_to_applied scenario.toy_index
              scenario.positive_only block_settings.no_settingsChanged None
              "reset_default" "store_default"
              (block_settings.with_staged {["rate" := scenario.pmt_int (-5)]}
                 scenario.amplifier_settings))
    as (r & st' & Heq & _ & Hfwd).
  - vm_compute. reflexivity.
  - intros f. discriminate.
  - exists r, st'. split; [exact Heq|].
    apply Hfwd.
    + vm_compute. reflexivity.
    + apply (bool_decide_unpack _). vm_compute. exact I.
    + vm_compute. reflexivity.
    + vm_compute. reflexivity.
Defined.

(** [gain] set to 7, applied, and read back. *)
Lemma set_apply_get_round_trip_witness :
  exists ret c r st',
    settings.set scenario.toy_index scenario.overwrite
      (map block_settings.desc scenario.amplifier) [("gain", scenario.pmt_int 7)]
      (block_settings.core scenario.amplifier_settings)
    = settings.Normal ret c
    /\ block_settings.applyStagedParameters scenario.toy_index scenario.positive_only
         block_settings.no_settingsChanged None "reset_default" "store_default"
         (block_settings.with_core c scenario.amplifier_settings)
       = block_settings.Returned r st'
    /\ block_settings.get_key "gain" st' = Some (scenario.pmt_int 7).
Proof.
  destruct (set_apply_get_round_trip scenario.toy_index scenario.positive_only
              block_settings.no_settingsChanged None "reset_default" "store_default"
              scenario.overwrite [("gain", scenario.pmt_int 7)]
              scenario.amplifier_settings "gain" (scenario.pmt_int 7)
              (block_settings.mk_field scenario.gain true false (scenario.pmt_int 1)))
    as (ret & c & r & st' & Hset & _ & Happly & _ & _ & Hget & _).
  - apply (bool_decide_unpack _). vm_compute. exact I.
  - intros k v Hkv.
    apply elem_of_cons in Hkv as [Hkv|Hkv]; [injection Hkv as -> ->; reflexivity|].
    apply elem_of_nil in Hkv. destruct Hkv.
  - left.
  - apply (bool_decide_unpack _). vm_compute. exact I.
  - vm_compute. reflexivity.
  - apply (bool_decide_unpack _). vm_compute. exact I.
  - left.
  - reflexivity.
  - reflexivity.
  - reflexivity.
  - reflexivity.
  - reflexivity.
  - exists ret, c, r, st'. auto.
Defined.

(** The defaults of the amplifier stored, [gain] changed to 9, and the
    defaults brought back. *)
Lemma resetDefaults_restores_stored_witness :
  exists st',
    block_settings.resetDefaults scenario.toy_index scenario.positive_only
      block_settings.no_settingsChanged None "reset_default" "store_default"
      (block_settings.mk
         (block_settings.core scenario.amplifier_settings)
         [block_settings.mk_field scenario.gain true false (scenario.pmt_int 9);
          block_settings.mk_field scenario.label true false (scenario.pmt_string "amp");
          block_settings.mk_field scenario.rate true true (scenario.pmt_int 48)]
         ∅ {["rate"]}
         (block_settings._default_settings
            (block_settings.storeDefaults scenario.amplifier_settings)))
    = block_settings.Returned tt st'
    /\ block_settings.get_key "gain" st' = Some (scenario.pmt_int 1).
Proof.
  destruct (resetDefaults_restores_stored scenario.toy_index scenario.positive_only
              block_settings.no_settingsChanged None "reset_default" "store_default"
              scenario.amplifier_settings
              (block_settings.mk
                 (block_settings.core scenario.amplifier_settings)
                 [block_settings.mk_field scenario.gain true false (scenario.pmt_int 9);
                  block_settings.mk_field scenario.label true false
                    (scenario.pmt_string "amp");
                  block_settings.mk_field scenario.rate true true (scenario.pmt_int 48)]
                 ∅ {["rate"]}
                 (block_settings._default_settings
                    (block_settings.storeDefaults scenario.amplifier_settings)))
              0 (block_settings.mk_field scenario.gain true false (scenario.pmt_int 1)))
    as (st' & Heq & _ & Hget & _).
  - reflexivity.
  - vm_compute. reflexivity.
  - reflexivity.
  - apply (bool_decide_unpack _). vm_compute. exact I.
  - reflexivity.
  - reflexivity.
  - reflexivity.
  - reflexivity.
  - reflexivity.
  - exists st'. split; [exact Heq|exact Hget].
Defined.

(** ** The constructor and [updateActiveParameters] *)

Section construct_facts.
Import settings block_settings.
Context {pmt : Type} (index : pmt -> nat).
Context (pmt_of_string : string -> pmt) (pmt_of_bool : bool -> pmt)
        (DEFAULT_TAGS : list string).

Lemma default_tags_fold (memberName : string) (tags : list string) (af : gset string) :
  fold_left
    (fun af shortKey =>
       if bool_decide (shortKey = memberName) then af ∪ {[memberName]} else af)
    tags af
  = if bool_decide (memberName ∈ tags) then af ∪ {[memberName]} else af.
Proof.
  revert af. induction tags as [|x tags IH]; intros af; [reflexivity|].
  cbn [fold_left]. rewrite IH.
  destruct (decide (x = memberName)) as [->|Hne].
  - rewrite (bool_decide_eq_true_2 (memberName = memberName)) by reflexivity.
    rewrite (bool_decide_eq_true_2 (memberName ∈ memberName :: tags)) by left.
    destruct (bool_decide (memberName ∈ tags)); [set_solver|reflexivity].
  - rewrite (bool_decide_eq_false_2 (x = memberName)) by exact Hne.
    destruct (decide (memberName ∈ tags)) as [Hin|Hin].
    + rewrite !bool_decide_eq_true_2; [reflexivity|right; exact Hin|exact Hin].
    + rewrite !bool_decide_eq_false_2; [reflexivity| |exact Hin].
      intros Hc. apply elem_of_cons in Hc as [?|?]; [congruence|contradiction].
Qed.

Lemma construct_fold (members : list (reflected (pmt := pmt)))
    (meta : option (gmap string pmt)) (au af : gset string) :
  let r := fold_left (construct_member pmt_of_string pmt_of_bool DEFAULT_TAGS) members
             (meta, au, af) in
  (forall k, k ∈ r.1.2 <-> k ∈ au \/ names_setting (map desc (map rfield members)) k = true)
  /\ (forall k, k ∈ r.2
                <-> k ∈ af \/ (names_setting (map desc (map rfield members)) k = true
                              /\ k ∈ DEFAULT_TAGS)).
Proof.
  revert meta au af. induction members as [|m members IH]; intros meta au af r.
  - subst r. cbn. split; intros k; split; auto; intros [?|?]; auto;
      [discriminate|destruct H; discriminate].
  - subst r. cbn [fold_left map names_setting existsb].
    fold (names_setting (map desc (map rfield members))).
    set (name := display_name (desc (rfield m))).
    assert (Hacc : exists meta1,
              construct_member pmt_of_string pmt_of_bool DEFAULT_TAGS (meta, au, af) m
              = if settable (desc (rfield m))
                then (meta1, au ∪ {[name]},
                      if bool_decide (name ∈ DEFAULT_TAGS) then af ∪ {[name]} else af)
                else (meta1, au, af)).
    { unfold construct_member. rewrite default_tags_fold. eexists. reflexivity. }
    destruct Hacc as (meta1 & ->).
    destruct (settable (desc (rfield m))) eqn:Hset; cbn [andb orb].
    + destruct (IH meta1 (au ∪ {[name]})
                  (if bool_decide (name ∈ DEFAULT_TAGS) then af ∪ {[name]} else af))
        as (Hau & Haf).
      split; intros k; [rewrite Hau|rewrite Haf]; clear Hau Haf.
      * rewrite elem_of_union, elem_of_singleton, orb_true_iff, bool_decide_eq_true.
        intuition congruence.
      * rewrite orb_true_iff, bool_decide_eq_true.
        destruct (decide (name ∈ DEFAULT_TAGS)) as [Hin|Hin].
        -- rewrite (bool_decide_eq_true_2 _ Hin), elem_of_union, elem_of_singleton.
           intuition (subst; auto).
        -- rewrite (bool_decide_eq_false_2 _ Hin). intuition (subst; auto).
    + destruct (IH meta1 au af) as (Hau & Haf).
      split; intros k; [rewrite Hau|rewrite Haf]; reflexivity.
Qed.

Lemma accepts_names (members : list member) (key : string) (value : pmt) :
  accepts index members key value = true -> names_setting members key = true.
Proof.
  unfold accepts, names_setting. rewrite !existsb_exists.
  intros (m & Hm & Hc). exists m. split; [exact Hm|].
  apply andb_true_iff in Hc as [Hc _]. exact Hc.
Qed.

(** X25.  A freshly constructed settings object.  Nothing is staged or
    active and the changed flag is down.  The auto-update list holds
    exactly the names of the settable members, the auto-forward list
    those of them that are short keys of the default tags.  So until
    [set] is called the block follows its tags: every tag entry whose key
    names a settable member of the value's type is staged by
    [autoUpdate]. *)
Theorem construct_follows_tags (meta_information : option (gmap string pmt))
    (description : option string) (members : list (reflected (pmt := pmt))) :
  let st := construct pmt_of_string pmt_of_bool DEFAULT_TAGS meta_information
              description members in
  let ms := map desc (_block st) in
  stagedParameters st = ∅
  /\ _changed (core st) = false
  /\ get [] st = ∅
  /\ (forall k, k ∈ _auto_update (core st) <-> names_setting ms k = true)
  /\ (forall k, k ∈ _auto_forward st <-> names_setting ms k = true /\ k ∈ DEFAULT_TAGS)
  /\ (forall tags k v,
        NoDup tags.*1 -> (k, v) ∈ tags -> accepts index ms k v = true ->
        _staged (autoUpdate index ms tags (core st)) !! k = Some v).
Proof.
  intros st ms. subst st ms. unfold construct.
  set (meta0 := match meta_information, description with
                | Some mi, Some d => _
                | _, _ => meta_information
                end).
  destruct (construct_fold members meta0 ∅ ∅) as (Hau & Haf). cbv zeta in Hau, Haf.
  destruct (fold_left (construct_member pmt_of_string pmt_of_bool DEFAULT_TAGS) members
              (meta0, ∅, ∅)) as [[meta au] af].
  cbn [fst snd] in Hau, Haf. unfold stagedParameters, get.
  cbn [core _block _active _auto_forward _staged _changed _auto_update].
  assert (Hau' : forall k, k ∈ au <-> names_setting (map desc (map rfield members)) k = true).
  { intros k. rewrite Hau. set_solver. }
  split; [reflexivity|]. split; [reflexivity|]. split; [reflexivity|].
  split; [exact Hau'|]. split.
  - intros k. rewrite Haf. set_solver.
  - intros tags k v Hnd Hin Hacc.
    destruct (autoUpdate_spec index (map desc (map rfield members)) tags
                (mk_settings ∅ au false meta) Hnd) as (_ & _ & Hst & _).
    rewrite (Hst k v Hin). cbn [_auto_update]. rewrite Hacc.
    rewrite bool_decide_eq_true_2; [reflexivity|].
    apply Hau', accepts_names with v, Hacc.
Qed.

(** X26.  [updateActiveParameters] brings the active map in line with the
    block.  In a block whose members have distinct names, [get] then
    returns for every readable member the value the member holds; a key
    that names no readable member keeps the active value it had. *)
Theorem updateActiveParameters_mirrors_block (st : t (pmt := pmt)) :
  NoDup (map field_name (_block st)) ->
  (forall f, f ∈ _block st -> readable f = true ->
     get_key (field_name f) (updateActiveParameters st) = Some (value f))
  /\ (forall k,
        (forall f, f ∈ _block st -> field_name f = k -> readable f = false) ->
        get_key k (updateActiveParameters st) = get_key k st)
  /\ _block (updateActiveParameters st) = _block st
  /\ stagedParameters (updateActiveParameters st) = stagedParameters st.
Proof.
  intros Hnd. unfold get_key, updateActiveParameters. cbn [_active _block].
  split; [|split; [|split; reflexivity]].
  - intros f Hf Hr. apply storeDefaultSettings_unique; assumption.
  - intros k Hk. apply storeDefaultSettings_unreadable, Hk.
Qed.

End construct_facts.

Lemma updateActiveParameters_mirrors_block_witness :
  block_settings.get_key "gain"
    (block_settings.updateActiveParameters scenario.amplifier_settings)
  = Some (scenario.pmt_int 1).
Proof.
  assert (Hnd : NoDup (map field_name
                         (block_settings._block scenario.amplifier_settings))).
  { apply (bool_decide_unpack _). vm_compute. exact I. }
  destruct (updateActiveParameters_mirrors_block scenario.amplifier_settings Hnd)
    as (Hget & _).
  apply (Hget (block_settings.mk_field scenario.gain true false (scenario.pmt_int 1))).
  - left.
  - reflexivity.
Defined.

(** ** The destructor of the scheduler *)

(** X27.  [~scheduler_base] stops the scheduler and marks it
    SHUTTING_DOWN.  A destructor that returns leaves the graph alone and
    has raised the stop flag only when it found the state RUNNING: from
    INITIALISED, the state a multi-threaded [start] leaves, it asks no
    worker to stop.  From STOPPED and ERROR it has nothing to wait for
    whatever the workers' counter holds, and from every state it returns
    at once when no worker is counted as running. *)
Theorem scheduler_base_destructor_result (b : scheduler_base) :
  (forall b',
     scheduler_base_destructor b = Some b' ->
     _state b' = SHUTTING_DOWN
     /\ _graph b' = _graph b
     /\ _stop_requested b' = _stop_requested b || bool_decide (_state b = RUNNING))
  /\ (_state b = STOPPED \/ _state b = ERROR ->
      scheduler_base_destructor b = Some (set_state SHUTTING_DOWN b))
  /\ ((_running_threads b <= 0)%Z -> exists b', scheduler_base_destructor b = Some b').
Proof.
  unfold scheduler_base_destructor, scheduler_base_ops.stop.
  destruct (decide (_state b = STOPPED \/ _state b = ERROR)) as [Hs|Hs].
  - split; [|split].
    + intros b' [= <-]. cbn. split; [reflexivity|]. split; [reflexivity|].
      rewrite bool_decide_eq_false_2; [rewrite orb_false_r; reflexivity|].
      destruct Hs as [-> | ->]; discriminate.
    + intros _. reflexivity.
    + intros _. cbn. eauto.
  - split; [|split; [intros Hc; contradiction|]].
    + destruct (decide (_state b = RUNNING)) as [Hr|Hr].
      * rewrite (bool_decide_eq_true_2 _ Hr), orb_true_r.
        unfold scheduler_base_ops.wait_done, scheduler_base_ops.request_stop. cbn.
        destruct (decide (_running_threads b > 0)%Z) as [Hrun|Hrun]; cbn;
          [discriminate|].
        intros b' [= <-]. cbn. auto.
      * rewrite (bool_decide_eq_false_2 _ Hr), orb_false_r.
        unfold scheduler_base_ops.wait_done.
        destruct (decide (_running_threads b > 0)%Z) as [Hrun|Hrun]; cbn;
          [discriminate|].
        intros b' Hb'. destruct (decide (_state b = REQUESTED_PAUSE));
          cbn in Hb'; injection Hb' as <-; cbn; auto.
    + intros Hrun. unfold scheduler_base_ops.wait_done, scheduler_base_ops.request_stop.
      destruct (decide (_state b = RUNNING)); cbn;
        rewrite decide_False by lia; repeat case_decide; cbn; eauto.
Qed.
